(** * Vecture Redact: the redaction / restoration core (src/vecture/core.py)

    A shallow embedding of [VectureRedactor] and the properties of its
    redaction, conflict resolution, restoration and key codec paths. *)

From Stdlib Require Import String Ascii.
From Stdlib Require Import List Bool Arith NArith ZArith Lia.
From Stdlib Require Import Permutation Sorted Eqdep_dec.
Import ListNotations.

Set Implicit Arguments.

(** ** Characters and strings

    A Python [str] is a sequence of code points.  The texts handled here are
    the ones [read_text(encoding='utf-8')] yields and [str.encode('utf-8')]
    accepts: sequences of Unicode scalar values (code points below 0x110000
    that are not surrogates). *)

Definition is_scalar (n : N) : bool :=
  ((n <? 0xD800) || ((0xDFFF <? n) && (n <? 0x110000)))%N.

Record uchar : Type := UChar { code : N; code_ok : is_scalar code = true }.

Definition str : Type := list uchar.

Definition chr (n : N) : uchar :=
  (if is_scalar n as b return is_scalar n = b -> uchar
   then fun H => UChar n H
   else fun _ => UChar 0xFFFD eq_refl) eq_refl.

Definition uchar_eqb (a b : uchar) : bool := (code a =? code b)%N.

Fixpoint str_eqb (s t : str) : bool :=
  match s, t with
  | [], [] => true
  | a :: s', b :: t' => uchar_eqb a b && str_eqb s' t'
  | _, _ => false
  end.

(** A string literal of the source, as a [str]. *)
Definition lit (s : string) : str :=
  map (fun a => chr (N_of_ascii a)) (list_ascii_of_string s).

(** ** UTF-8 and SHA-256 ([str.encode('utf-8')], [hashlib.sha256], [hexdigest]) *)

Definition bytes : Type := list N.

Definition utf8_char (c : uchar) : bytes :=
  let n := code c in
  (if n <? 0x80 then [n]
   else if n <? 0x800 then
     [N.lor 0xC0 (N.shiftr n 6); N.lor 0x80 (N.land n 0x3F)]
   else if n <? 0x10000 then
     [N.lor 0xE0 (N.shiftr n 12);
      N.lor 0x80 (N.land (N.shiftr n 6) 0x3F);
      N.lor 0x80 (N.land n 0x3F)]
   else
     [N.lor 0xF0 (N.shiftr n 18);
      N.lor 0x80 (N.land (N.shiftr n 12) 0x3F);
      N.lor 0x80 (N.land (N.shiftr n 6) 0x3F);
      N.lor 0x80 (N.land n 0x3F)])%N.

Definition encode_utf8 (s : str) : bytes := flat_map utf8_char s.

Module Sha256.

Local Open Scope N_scope.

Definition w32 (x : N) : N := N.land x 0xFFFFFFFF.
Definition add32 (x y : N) : N := w32 (x + y).
Definition rotr (n x : N) : N :=
  N.lor (N.shiftr x n) (w32 (N.shiftl x (32 - n))).
Definition not32 (x : N) : N := N.lxor x 0xFFFFFFFF.

Definition Ch (x y z : N) : N := N.lxor (N.land x y) (N.land (not32 x) z).
Definition Maj (x y z : N) : N :=
  N.lxor (N.lxor (N.land x y) (N.land x z)) (N.land y z).
Definition Sigma0 (x : N) : N := N.lxor (N.lxor (rotr 2 x) (rotr 13 x)) (rotr 22 x).
Definition Sigma1 (x : N) : N := N.lxor (N.lxor (rotr 6 x) (rotr 11 x)) (rotr 25 x).
Definition sigma0 (x : N) : N := N.lxor (N.lxor (rotr 7 x) (rotr 18 x)) (N.shiftr x 3).
Definition sigma1 (x : N) : N := N.lxor (N.lxor (rotr 17 x) (rotr 19 x)) (N.shiftr x 10).

(** The round constants and the initial hash value are the first 32 bits of
    the fractional parts of the cube roots of the first 64 primes and of
    the square roots of the first 8. *)
Definition is_prime (n : nat) : bool :=
  forallb (fun d => negb (n mod d =? 0)%nat) (seq 2 (n - 2)).

Definition primes : list N :=
  map N.of_nat (filter is_prime (seq 2 310)).

Fixpoint cube_root_bits (k : nat) (acc n : N) : N :=
  match k with
  | O => acc
  | S k' =>
      let c := acc + N.shiftl 1 (N.of_nat k') in
      if c * c * c <=? n then cube_root_bits k' c n else cube_root_bits k' acc n
  end.

Definition K : list N :=
  Eval vm_compute in
    map (fun p => w32 (cube_root_bits 40 0 (N.shiftl p 96))) primes.

Definition H0 : list N :=
  Eval vm_compute in
    map (fun p => w32 (N.sqrt (N.shiftl p 64))) (firstn 8 primes).

(** The padded message: the bytes, 0x80, zeros up to 56 mod 64, and the
    bit length as a 64-bit big-endian integer. *)
Fixpoint be_bytes (k : nat) (x : N) : bytes :=
  match k with
  | O => []
  | S k' => N.land (N.shiftr x (8 * N.of_nat k')) 0xFF :: be_bytes k' x
  end.

Definition pad (m : bytes) : bytes :=
  let len := N.of_nat (length m) in
  let zeros := N.to_nat ((119 - len mod 64) mod 64) in
  m ++ 0x80 :: repeat 0 zeros ++ be_bytes 8 (8 * len).

Fixpoint words (fuel : nat) (b : bytes) : list N :=
  match fuel, b with
  | S f, b0 :: b1 :: b2 :: b3 :: rest =>
      (N.shiftl b0 24 + N.shiftl b1 16 + N.shiftl b2 8 + b3) :: words f rest
  | _, _ => []
  end.

(** Message schedule: [sched] holds W[t-1], W[t-2], ... (newest first). *)
Fixpoint extend (n : nat) (sched : list N) : list N :=
  match n with
  | O => sched
  | S n' =>
      let w2 := nth 1 sched 0 in
      let w7 := nth 6 sched 0 in
      let w15 := nth 14 sched 0 in
      let w16 := nth 15 sched 0 in
      extend n' (add32 (add32 (sigma1 w2) w7) (add32 (sigma0 w15) w16) :: sched)
  end.

Definition schedule (block : list N) : list N := rev (extend 48 (rev block)).

Definition round (st : list N) (kw : N * N) : list N :=
  match st with
  | [a; b; c; d; e; f; g; h] =>
      let t1 := add32 (add32 (add32 h (Sigma1 e)) (add32 (Ch e f g) (fst kw))) (snd kw) in
      let t2 := add32 (Sigma0 a) (Maj a b c) in
      [add32 t1 t2; a; b; c; add32 d t1; e; f; g]
  | _ => st
  end.

Definition compress (h : list N) (block : list N) : list N :=
  map (fun p => add32 (fst p) (snd p))
      (combine h (fold_left round (combine K (schedule block)) h)).

Fixpoint blocks (fuel : nat) (ws : list N) : list (list N) :=
  match fuel, ws with
  | S f, _ :: _ => firstn 16 ws :: blocks f (skipn 16 ws)
  | _, _ => []
  end.

Definition digest (m : bytes) : bytes :=
  let p := pad m in
  let ws := words (length p) p in
  flat_map (be_bytes 4) (fold_left compress (blocks (length ws) ws) H0).

Definition hex_digit (n : N) : uchar :=
  chr (if n <? 10 then 48 + n else 87 + n).

Definition hexdigest (m : bytes) : str :=
  flat_map (fun b => [hex_digit (N.shiftr b 4); hex_digit (N.land b 0xF)]) (digest m).

End Sha256.

Definition sha256_hex (s : str) : str := Sha256.hexdigest (encode_utf8 s).

(** ** Slices

    [s[a:b]], [s[a:]] and [s[:b]] of Python.  [slice] is for indices that
    are never negative (regex offsets); [slice_from] and [slice_to] take a
    Python integer, with a negative index counted from the end. *)

Definition slice {A} (a b : nat) (s : list A) : list A :=
  firstn (b - a) (skipn a s).

Definition py_index {A} (k : Z) (s : list A) : nat :=
  if (k <? 0)%Z then Z.to_nat (Z.max 0 (Z.of_nat (length s) + k)) else Z.to_nat k.

Definition slice_to {A} (k : Z) (s : list A) : list A := firstn (py_index k s) s.
Definition slice_from {A} (k : Z) (s : list A) : list A := skipn (py_index k s) s.

(** ** The [re] module

    A backtracking matcher for the constructs that occur in the source's
    patterns: character classes and literals, concatenation, ordered
    alternation, greedy bounded repetition of a class, and [\b].  The classes
    [\d] and [\w] and the comparison of [re.IGNORECASE] are those of the
    Unicode database on non-ASCII characters; that table is a parameter. *)

Record unicode_db : Type := {
  unicode_isalnum : uchar -> bool;
  unicode_isdecimal : uchar -> bool;
  unicode_ignorecase_eq : uchar -> uchar -> bool
}.

Definition in_range (lo hi : N) (c : uchar) : bool :=
  ((lo <=? code c) && (code c <=? hi))%N.

Definition is_char (n : N) (c : uchar) : bool := (code c =? n)%N.

Definition is_ascii (c : uchar) : bool := (code c <? 128)%N.

Definition ascii_digit : uchar -> bool := in_range 48 57.
Definition ascii_upper : uchar -> bool := in_range 65 90.
Definition ascii_lower : uchar -> bool := in_range 97 122.
Definition ascii_alnum (c : uchar) : bool :=
  ascii_upper c || ascii_lower c || ascii_digit c.

Definition ascii_tolower (c : uchar) : N :=
  if ascii_upper c then (code c + 32)%N else code c.

Inductive regex : Type :=
| Eps
| Cls (p : uchar -> bool)
| Cat (r1 r2 : regex)
| Alt (r1 r2 : regex)
| Rep (p : uchar -> bool) (lo : nat) (hi : option nat)
| WordB.

Fixpoint cat_all (rs : list regex) : regex :=
  match rs with
  | [] => Eps
  | [r] => r
  | r :: rs' => Cat r (cat_all rs')
  end.

(** [(?:r){n}] *)
Fixpoint times (n : nat) (r : regex) : regex :=
  match n with
  | O => Eps
  | S n' => Cat r (times n' r)
  end.

Section Re.

Variable U : unicode_db.

(** [\d] and [\w] on a [str] pattern. *)
Definition re_digit (c : uchar) : bool :=
  if is_ascii c then ascii_digit c else unicode_isdecimal U c.

Definition re_word (c : uchar) : bool :=
  if is_ascii c then ascii_alnum c || is_char 95 c else unicode_isalnum U c.

(** A literal of the pattern against a character of the text under
    [re.IGNORECASE]. *)
Definition re_ignorecase_eq (c t : uchar) : bool :=
  if is_ascii c && is_ascii t
  then (ascii_tolower c =? ascii_tolower t)%N
  else unicode_ignorecase_eq U c t.

Definition word_at (s : str) (i : nat) : bool :=
  match nth_error s i with
  | Some c => re_word c
  | None => false
  end.

(** [\b] at offset [i]: exactly one of the characters before and at [i]
    is a word character. *)
Definition word_boundary (s : str) (i : nat) : bool :=
  let this := word_at s i in
  let that := match i with O => false | S j => word_at s j end in
  negb (eqb this that).

(** The longest run of characters of class [p] at the head of [s], at most
    [hi] long. *)
Fixpoint run (p : uchar -> bool) (hi : option nat) (s : str) : nat :=
  match s with
  | [] => 0
  | c :: s' =>
      match hi with
      | Some O => 0
      | Some (S h) => if p c then S (run p (Some h) s') else 0
      | None => if p c then S (run p None s') else 0
      end
  end.

(** Greedy repetition gives back one character at a time, down to [lo]. *)
Fixpoint backoff (k : nat -> option nat) (i lo n : nat) : option nat :=
  if n <? lo then None
  else match k (i + n) with
       | Some e => Some e
       | None => match n with
                 | O => None
                 | S n' => backoff k i lo n'
                 end
       end.

(** [re_match r s i k]: match [r] in [s] at offset [i]; [k] continues the
    match from the offset reached and returns the end of the whole match.
    The first success in backtracking order is the result. *)
Fixpoint re_match (r : regex) (s : str) (i : nat) (k : nat -> option nat)
  : option nat :=
  match r with
  | Eps => k i
  | Cls p =>
      match nth_error s i with
      | Some c => if p c then k (S i) else None
      | None => None
      end
  | Cat r1 r2 => re_match r1 s i (fun j => re_match r2 s j k)
  | Alt r1 r2 =>
      match re_match r1 s i k with
      | Some e => Some e
      | None => re_match r2 s i k
      end
  | Rep p lo hi => backoff k i lo (run p hi (skipn i s))
  | WordB => if word_boundary s i then k i else None
  end.

End Re.

(** A match object: [m.start()], [m.end()], [m.group()]; the source keeps
    them as a tuple [(start, end, text)]. *)
Record span : Type := Span { m_start : nat; m_end : nat; m_text : str }.

Section Finditer.

Variable U : unicode_db.

(** [re.finditer]: the leftmost match at or after each offset, the scan
    resuming at the end of the match found ([next]).  The patterns of the
    source match no empty string ([finditer_spans] below). *)
Fixpoint finditer_from (r : regex) (s : str) (offsets : list nat) (next : nat)
  : list span :=
  match offsets with
  | [] => []
  | i :: rest =>
      if i <? next then finditer_from r s rest next
      else match re_match U r s i Some with
           | Some e => Span i e (slice i e s) :: finditer_from r s rest (Nat.max e (S i))
           | None => finditer_from r s rest next
           end
  end.

Definition finditer (r : regex) (s : str) : list span :=
  finditer_from r s (seq 0 (S (length s))) 0.

End Finditer.

(** ** [list.sort(key=..., reverse=...)]

    Python's sort is stable, also under [reverse=True]: elements with equal
    keys keep their original relative order.  A stable sort has one result,
    given here by insertion. *)

Section Sort.

Variable A : Type.
Variable key : A -> Z.
Variable reverse : bool.

Definition goes_before (x y : A) : bool :=
  if reverse then (key y <=? key x)%Z else (key x <=? key y)%Z.

Definition in_order (x y : A) : Prop := goes_before x y = true.

Fixpoint insert (x : A) (l : list A) : list A :=
  match l with
  | [] => [x]
  | y :: l' => if goes_before x y then x :: l else y :: insert x l'
  end.

Fixpoint list_sort (l : list A) : list A :=
  match l with
  | [] => []
  | x :: l' => insert x (list_sort l')
  end.

End Sort.

(** ** Key data *)

Record restoration : Type := Restoration { pos : Z; text : str; len : Z }.

Record key_data : Type := KeyData {
  version : str;
  hash : str;
  restorations : list restoration
}.

(** The [ValueError]s of the core, told apart by their message, and an
    exception of a library call that the core does not catch, by the name of
    its class. *)
Inductive exception : Type :=
| IntegrityViolation
| CorruptKey (index : Z)
| InvalidObfuscatedKey
| InvalidKeyFile
| Uncaught (class_name : string).

Inductive outcome (A : Type) : Type :=
| Return (a : A)
| Raise (e : exception).

Arguments Return {A} a.
Arguments Raise {A} e.

(** ** [VectureRedactor] *)

Section Redactor.

Variable U : unicode_db.

(** *** Pattern Recognition Matrix ([__init__]) *)

Definition digits (n : nat) : regex := Rep (re_digit U) n (Some n).

Definition ipv4_pattern : regex :=
  cat_all [WordB;
           times 3 (Cat (Rep ascii_digit 1 (Some 3)) (Cls (is_char 46)));
           Rep ascii_digit 1 (Some 3);
           WordB].

Definition date_pattern : regex :=
  cat_all [WordB;
           Alt (cat_all [digits 4; Cls (is_char 45); digits 2; Cls (is_char 45); digits 2])
          (Alt (cat_all [digits 2; Cls (is_char 46); digits 2; Cls (is_char 46); digits 4])
               (cat_all [digits 2; Cls (is_char 47); digits 2; Cls (is_char 47); digits 4]));
           WordB].

Definition email_local (c : uchar) : bool :=
  ascii_alnum c || is_char 46 c || is_char 95 c || is_char 37 c
  || is_char 43 c || is_char 45 c.

Definition email_domain (c : uchar) : bool :=
  ascii_alnum c || is_char 46 c || is_char 45 c.

Definition email_tld (c : uchar) : bool :=
  ascii_upper c || is_char 124 c || ascii_lower c.

Definition email_pattern : regex :=
  cat_all [WordB;
           Rep email_local 1 None;
           Cls (is_char 64);
           Rep email_domain 1 None;
           Cls (is_char 46);
           Rep email_tld 2 None;
           WordB].

(** [r'\b' + re.escape(word) + r'\b'] under [re.IGNORECASE]: the escaped
    word matches its own characters, one by one. *)
Definition word_pattern (word : str) : regex :=
  Cat WordB
      (fold_right (fun c r => Cat (Cls (re_ignorecase_eq U c)) r) WordB word).

Definition caps_pattern : regex :=
  cat_all [WordB; Cls ascii_upper; Rep ascii_lower 1 None; WordB].

(** *** [_find_matches], phases 1 to 3: the candidates in discovery order *)

Definition find_candidates (text : str) (custom_words : list str)
           (redact_caps : bool) : list span :=
  flat_map (fun pattern => finditer U pattern text)
           [ipv4_pattern; date_pattern; email_pattern]
  ++ flat_map (fun word =>
                 match word with
                 | [] => []
                 | _ :: _ => finditer U (word_pattern word) text
                 end) custom_words
  ++ (if redact_caps then finditer U caps_pattern text else []).

(** *** [_find_matches], conflict resolution *)

Definition start_key (m : span) : Z := Z.of_nat (m_start m).

Definition resolve_step (first : span) (cleaned_matches : list span) (m : span)
  : list span :=
  if m_start m <? m_end (last cleaned_matches first)
  then cleaned_matches
  else cleaned_matches ++ [m].

(** The walk over the sorted list. *)
Definition resolve_sorted (matches : list span) : list span :=
  match matches with
  | [] => []
  | first :: rest => fold_left (resolve_step first) rest [first]
  end.

Definition resolve (candidates : list span) : list span :=
  resolve_sorted (list_sort start_key false candidates).

Definition find_matches (text : str) (custom_words : list str)
           (redact_caps : bool) : list span :=
  resolve (find_candidates text custom_words redact_caps).

(** *** [redact] *)

Definition BLACKOUT : str := lit "BLACKOUT".
Definition VECTURE_NOISE : str := lit "VECTURE_NOISE".
Definition CLASSIC : str := lit "CLASSIC".

Definition block_char : uchar := chr 0x2588.
Definition noise_chars : str := lit "XJ9#kL@!%&?".
Definition redacted_token : str := lit "[REDACTED]".

(** [random.choice(chars)]: the random source [rnd] gives the raw value
    of each draw, counted from the start of the call. *)
Definition random_choice (rnd : nat -> nat) (n : nat) (chars : str) : uchar :=
  nth (rnd n mod length chars) chars block_char.

(** The substitute for one match, and the number of draws made so far. *)
Definition replacement_for (rnd : nat -> nat) (draws : nat) (style original : str)
  : str * nat :=
  if str_eqb style BLACKOUT then
    (repeat block_char (length original), draws)
  else if str_eqb style VECTURE_NOISE then
    (map (fun j => random_choice rnd (draws + j) noise_chars)
         (seq 0 (length original)),
     draws + length original)
  else
    (redacted_token, draws).

Record redact_state : Type := RedactState {
  result_text : list str;
  key_restorations : list restoration;
  current_idx : nat;
  rnd_draws : nat
}.

Definition redact_step (text style : str) (rnd : nat -> nat)
           (st : redact_state) (m : span) : redact_state :=
  let result_text1 := result_text st ++ [slice (current_idx st) (m_start m) text] in
  let (replacement, draws) := replacement_for rnd (rnd_draws st) style (m_text m) in
  let current_len := list_sum (map (@length uchar) result_text1) in
  RedactState
    (result_text1 ++ [replacement])
    (key_restorations st ++
       [Restoration (Z.of_nat current_len) (m_text m) (Z.of_nat (length replacement))])
    (m_end m)
    draws.

Definition redact_loop (text style : str) (rnd : nat -> nat) (matches : list span)
  : redact_state :=
  fold_left (redact_step text style rnd) matches (RedactState [] [] 0 0).

Definition redact (rnd : nat -> nat) (text style : str)
           (custom_words : list str) (redact_caps : bool) : str * key_data :=
  let matches := find_matches text custom_words redact_caps in
  let st := redact_loop text style rnd matches in
  let final_redacted_text :=
    concat (result_text st ++ [skipn (current_idx st) text]) in
  let file_hash := sha256_hex final_redacted_text in
  (final_redacted_text, KeyData (lit "1.0") file_hash (key_restorations st)).

End Redactor.

(** *** [restore]

    [restorations.sort(...)] sorts the list held by the caller's key in
    place, so [restore] returns the key as the call leaves it next to its
    result. *)

Fixpoint restore_loop (result : str) (items : list restoration) : outcome str :=
  match items with
  | [] => Return result
  | item :: rest =>
      if ((pos item <? 0) || (Z.of_nat (length result) <? pos item + len item))%Z
      then Raise (CorruptKey (pos item))
      else
        let before := slice_to (pos item) result in
        let after := slice_from (pos item + len item) result in
        restore_loop (before ++ text item ++ after) rest
  end.

Definition restore (redacted_text : str) (key : key_data)
  : key_data * outcome str :=
  let current_hash := sha256_hex redacted_text in
  if negb (str_eqb current_hash (hash key)) then
    (key, Raise IntegrityViolation)
  else
    let sorted := list_sort pos true (restorations key) in
    (KeyData (version key) (hash key) sorted, restore_loop redacted_text sorted).

(** *** The key codec ([obfuscate_key], [deobfuscate_key]) *)

(** The value of a key as [json] sees it: a [dict] of strings, integers and
    lists. *)
#[local] Unset Elimination Schemes.
Inductive json : Type :=
| JNull
| JBool (b : bool)
| JInt (z : Z)
| JStr (s : str)
| JList (l : list json)
| JDict (items : list (str * json)).
#[local] Set Elimination Schemes.

Definition json_of_restoration (r : restoration) : json :=
  JDict [(lit "pos", JInt (pos r)); (lit "text", JStr (text r)); (lit "len", JInt (len r))].

Definition json_of_key (k : key_data) : json :=
  JDict [(lit "version", JStr (version k));
         (lit "hash", JStr (hash k));
         (lit "restorations", JList (map json_of_restoration (restorations k)))].

Fixpoint startswith (prefix s : str) : bool :=
  match prefix, s with
  | [], _ => true
  | a :: prefix', b :: s' => uchar_eqb a b && startswith prefix' s'
  | _ :: _, [] => false
  end.

(** [s.replace(old, new)] for a non-empty [old]: every occurrence found
    scanning from the left is replaced, the scan resuming after it ([skip]
    counts the characters of the occurrence still to pass). *)
Fixpoint replace_from (old new : str) (skip : nat) (s : str) : str :=
  match s with
  | [] => []
  | c :: s' =>
      match skip with
      | S n => replace_from old new n s'
      | O =>
          if startswith old s
          then new ++ replace_from old new (length old - 1) s'
          else c :: replace_from old new 0 s'
      end
  end.

Definition str_replace (old new s : str) : str := replace_from old new 0 s.

Definition MARKER : str := lit "VECTURE_KEY:".

(** What [json.loads] does on a [str]: it returns a value, raises
    [json.JSONDecodeError], or raises an exception of another class (a
    [RecursionError] on input nested too deep). *)
Inductive loads_outcome : Type :=
| Loaded (j : json)
| JSONDecodeError
| OtherError (class_name : string).

Section Codec.

(** The library calls of the codec.  [json_loads] is the call on a [str] of
    the unmarked branch, whose handler catches [json.JSONDecodeError] only.
    The calls of the marked branch sit under [except Exception]: for them
    [None] stands for any raised exception. *)
Variable json_dumps : option nat -> json -> str.
Variable json_loads : str -> loads_outcome.
Variable json_loads_bytes : bytes -> option json.
Variable zlib_compress : bytes -> bytes.
Variable zlib_decompress : bytes -> option bytes.
Variable b64encode : bytes -> str.
Variable b64decode : str -> option bytes.

Definition obfuscate_key (key : key_data) : str :=
  let json_str := json_dumps None (json_of_key key) in
  let compressed := zlib_compress (encode_utf8 json_str) in
  let encoded := b64encode compressed in
  MARKER ++ encoded.

(** The [try] block of the marked branch. *)
Definition decode_packed (key_content : str) : option json :=
  match b64decode key_content with
  | None => None
  | Some decoded =>
      match zlib_decompress decoded with
      | None => None
      | Some decompressed => json_loads_bytes decompressed
      end
  end.

Definition deobfuscate_key (key_content : str) : outcome json :=
  if startswith MARKER key_content then
    let key_content := str_replace MARKER [] key_content in
    match decode_packed key_content with
    | Some j => Return j
    | None => Raise InvalidObfuscatedKey
    end
  else
    match json_loads key_content with
    | Loaded j => Return j
    | JSONDecodeError => Raise InvalidKeyFile
    | OtherError class_name => Raise (Uncaught class_name)
    end.

(** [import_json_dumps] of main.py: the plain form of a key file. *)
Definition import_json_dumps (key : key_data) : str :=
  json_dumps (Some 2) (json_of_key key).

End Codec.

(** The concrete table used in the examples: no non-ASCII character is
    alphanumeric or decimal, and non-ASCII characters compare by equality. *)
Definition ascii_db : unicode_db :=
  {| unicode_isalnum := fun _ => false;
     unicode_isdecimal := fun _ => false;
     unicode_ignorecase_eq := uchar_eqb |}.

Definition no_random : nat -> nat := fun _ => 0.

Definition example_text : str := lit "Contact john@example.com on 2023-01-05.".

(** ** The command line (src/vecture/main.py)

    The computations of the two commands on the contents and the names of
    their files.  A file is the text that its bytes decode to; the console
    and the failures of the file system are left out. *)

(** [Path.read_text(encoding='utf-8')] opens the file in text mode with
    universal newlines: of the decoded content every CR LF pair and every
    other CR comes out as one LF. *)
Fixpoint universal_newlines (s : str) : str :=
  match s with
  | [] => []
  | c :: s' =>
      if is_char 13 c then
        chr 10 :: match s' with
                  | d :: s'' =>
                      if is_char 10 d then universal_newlines s''
                      else universal_newlines s'
                  | [] => []
                  end
      else c :: universal_newlines s'
  end.

Definition read_text (content : str) : str := universal_newlines content.

(** [Path.write_text(data, encoding='utf-8')] opens the file in text mode
    too: every LF of [data] is written as [os.linesep], which is LF on
    POSIX and CR LF on Windows. *)
Definition write_text (linesep data : str) : str :=
  flat_map (fun c => if is_char 10 c then linesep else [c]) data.

(** The line boundaries of [str.splitlines] and the white space of
    [str.strip]. *)
Definition is_linebreak (c : uchar) : bool :=
  in_range 0x0A 0x0D c || in_range 0x1C 0x1E c || is_char 0x85 c
  || in_range 0x2028 0x2029 c.

Definition is_space (c : uchar) : bool :=
  in_range 0x09 0x0D c || in_range 0x1C 0x20 c || is_char 0x85 c
  || is_char 0xA0 c || is_char 0x1680 c || in_range 0x2000 0x200A c
  || in_range 0x2028 0x2029 c || is_char 0x202F c || is_char 0x205F c
  || is_char 0x3000 c.

(** [s.splitlines()]: [line] holds the characters of the current line, last
    first; a carriage return followed by a line feed is one boundary, and
    a boundary at the very end opens no further line. *)
Fixpoint splitlines_from (line : str) (s : str) : list str :=
  match s with
  | [] => match line with
          | [] => []
          | _ :: _ => [rev line]
          end
  | c :: s' =>
      if is_linebreak c then
        rev line ::
          (if is_char 13 c then
             match s' with
             | d :: s'' =>
                 if is_char 10 d then splitlines_from [] s''
                 else splitlines_from [] s'
             | [] => splitlines_from [] s'
             end
           else splitlines_from [] s')
      else splitlines_from (c :: line) s'
  end.

Definition splitlines (s : str) : list str := splitlines_from [] s.

Fixpoint lstrip (s : str) : str :=
  match s with
  | [] => []
  | c :: s' => if is_space c then lstrip s' else s
  end.

Definition rstrip (s : str) : str := rev (lstrip (rev s)).

Definition strip (s : str) : str := rstrip (lstrip s).

(** The truth value of a [str]. *)
Definition truthy (s : str) : bool :=
  match s with
  | [] => false
  | _ :: _ => true
  end.

(** [[w.strip() for w in content.splitlines() if w.strip()]] *)
Definition load_custom_words (content : str) : list str :=
  map strip (filter (fun w => truthy (strip w)) (splitlines content)).

(** [old in s] *)
Fixpoint contains (old s : str) : bool :=
  startswith old s
  || match s with
     | [] => false
     | _ :: s' => contains old s'
     end.

(** The names of the files written when no output path is given, from the
    stem and the suffix of the name of the file read. *)
Definition redacted_name (stem suffix : str) : str :=
  stem ++ lit "_redacted" ++ suffix.

Definition key_name (out_name : str) : str := out_name ++ lit ".vecture".

Definition restored_name (stem suffix : str) : str :=
  if contains (lit "_redacted") stem then
    str_replace (lit "_redacted") (lit "_restored") stem ++ suffix
  else
    stem ++ lit "_restored" ++ suffix.

(** [name.rfind(c)]: the highest index of [c] in [name], or -1. *)
Fixpoint rfind (c : uchar) (name : str) : Z :=
  match name with
  | [] => -1
  | d :: name' =>
      let i := rfind c name' in
      if (0 <=? i)%Z then (i + 1)%Z
      else if uchar_eqb d c then 0%Z else (-1)%Z
  end.

(** [PurePath.suffix] and [PurePath.stem] of pathlib, on the name of the
    file, as CPython has them up to version 3.13: the name is cut at its
    last dot when that dot is neither its first nor its last character. *)
Definition suffix (name : str) : str :=
  let i := rfind (chr 46) name in
  if ((0 <? i) && (i <? Z.of_nat (length name) - 1))%Z
  then skipn (Z.to_nat i) name
  else [].

Definition stem (name : str) : str :=
  let i := rfind (chr 46) name in
  if ((0 <? i) && (i <? Z.of_nat (length name) - 1))%Z
  then firstn (Z.to_nat i) name
  else name.

(** [name.endswith('.')] *)
Definition endswith_dot (name : str) : bool :=
  match rev name with
  | c :: _ => is_char 46 c
  | [] => false
  end.

(** The names that the two commands give their output when no output path
    is given, from the name of the file they read. *)
Definition default_redacted_name (name : str) : str :=
  redacted_name (stem name) (suffix name).

Definition default_restored_name (name : str) : str :=
  restored_name (stem name) (suffix name).

Section CommandLine.

Variable U : unicode_db.
Variable json_dumps : option nat -> json -> str.
Variable zlib_compress : bytes -> bytes.
Variable b64encode : bytes -> str.

(** The line separator of the platform, [os.linesep]. *)
Variable linesep : str.

(** The contents of the redacted file and of the key file that the
    [redact] command writes, from the content of the source file, the
    content of the words file when one is given, and the options. *)
Definition redact_command (rnd : nat -> nat) (source : str)
           (words : option str) (style : str) (capitals obfuscate : bool)
  : str * str :=
  let custom_word_list :=
    match words with
    | Some content => load_custom_words (read_text content)
    | None => []
    end in
  let text := read_text source in
  let (redacted_text, key_data) :=
    redact U rnd text style custom_word_list capitals in
  let key_content :=
    if obfuscate
    then obfuscate_key json_dumps zlib_compress b64encode key_data
    else import_json_dumps json_dumps key_data in
  (write_text linesep redacted_text, write_text linesep key_content).

End CommandLine.

(** * Vocabulary of the statements *)

Definition span_ok (m : span) : Prop := m_start m < m_end m.
Definition ends_before (a b : span) : Prop := m_end a <= m_start b.
Definition starts_before (a b : span) : Prop := m_start a < m_start b.
Definition starts_no_later (a b : span) : Prop := m_start a <= m_start b.

Definition nested_candidates : list span :=
  [Span 5 7 (lit "fg"); Span 0 5 (lit "abcde"); Span 3 10 (lit "defghij");
   Span 5 7 (lit "fg"); Span 1 2 (lit "b"); Span 7 9 (lit "hi")].

Fixpoint min_len (r : regex) : nat :=
  match r with
  | Eps => 0
  | Cls _ => 1
  | Cat r1 r2 => min_len r1 + min_len r2
  | Alt r1 r2 => Nat.min (min_len r1) (min_len r2)
  | Rep _ lo _ => lo
  | WordB => 0
  end.

(** A span of [s]: non-empty, inside [s], and carrying the text it covers. *)
Definition valid_span (s : str) (m : span) : Prop :=
  m_start m < m_end m /\ m_end m <= length s /\
  m_text m = slice (m_start m) (m_end m) s.

Definition pos_lt (a b : restoration) : Prop := (pos a < pos b)%Z.

(** What the loop of [redact] maintains: the records so far are in
    strictly ascending position order inside the output so far, and
    undoing them last to first gives back the text consumed so far. *)
Definition redact_inv (T : str) (st : redact_state) : Prop :=
  let out := concat (result_text st) in
  current_idx st <= length T /\
  StronglySorted pos_lt (key_restorations st) /\
  Forall (fun r => (pos r < Z.of_nat (length out))%Z) (key_restorations st) /\
  forall rest, restore_loop (out ++ rest) (rev (key_restorations st))
               = Return (firstn (current_idx st) T ++ rest).

Definition starts_at_or_after (idx : nat) (ms : list span) : Prop :=
  match ms with
  | [] => True
  | m :: _ => idx <= m_start m
  end.

Definition example_redacted : str := lit "Contact [REDACTED] on [REDACTED].".

Definition example_key : key_data :=
  KeyData (lit "1.0")
          (lit "49e0518e2c7cd33d66819e14e32f4a890b0f6e1b0f9a4686cd05338164c85704")
          [Restoration 8 (lit "john@example.com") 10;
           Restoration 22 (lit "2023-01-05") 10].

(** A text with its character at offset [i] replaced by [c]. *)
Definition mutate (i : nat) (c : uchar) (s : str) : str :=
  firstn i s ++ c :: skipn (S i) s.

Definition out_of_bounds (result : str) (item : restoration) : Prop :=
  (pos item < 0 \/ Z.of_nat (length result) < pos item + len item)%Z.

(** The statement of C3 as the specification has it: a record out of the
    bounds of the supplied redacted text makes [restore] raise. *)
Definition bounds_checked_against_input (redacted_text : str) (key : key_data) : Prop :=
  hash key = sha256_hex redacted_text ->
  Exists (out_of_bounds redacted_text) (restorations key) ->
  exists index, snd (restore redacted_text key) = Raise (CorruptKey index).

Definition shielded_key : key_data :=
  KeyData (lit "1.0") (sha256_hex (lit "ab"))
          [Restoration 1 (lit "XXXXX") 1; Restoration 0 (lit "Y") 4].

Definition beyond_end_key : key_data :=
  KeyData (lit "1.0") (sha256_hex (lit "ab"))
          [Restoration 0 (lit "Y") 1; Restoration 3 (lit "Z") 0].

(** The statement of C5 as the specification has it: any reordering of the
    records of a key leaves the result of [restore] unchanged. *)
Definition storage_order_irrelevant (redacted_text : str) (key : key_data) : Prop :=
  forall records,
    Permutation (restorations key) records ->
    snd (restore redacted_text (KeyData (version key) (hash key) records))
    = snd (restore redacted_text key).

Definition tied_key : key_data :=
  KeyData (lit "1.0") (sha256_hex (lit "ab"))
          [Restoration 0 (lit "X") 1; Restoration 0 (lit "Y") 0].

(** What each style puts in place of [original]. *)
Definition substitute_ok (style original tok : str) : Prop :=
  (style = BLACKOUT -> tok = repeat block_char (length original)) /\
  (style = VECTURE_NOISE ->
   length tok = length original /\ Forall (fun c => In c noise_chars) tok) /\
  (style <> BLACKOUT -> style <> VECTURE_NOISE -> tok = redacted_token).

(** The record [r] describes a token of [redacted]: the token starts at
    [pos r], is [len r] long and is the substitute of [style] for [text r]. *)
Definition token_recorded (style redacted : str) (r : restoration) : Prop :=
  exists pre tok post,
    redacted = pre ++ tok ++ post /\
    pos r = Z.of_nat (length pre) /\
    len r = Z.of_nat (length tok) /\
    substitute_ok style (text r) tok.

Definition tokens_inv (style : str) (st : redact_state) : Prop :=
  Forall (token_recorded style (concat (result_text st))) (key_restorations st).

(** [old] occurs in [s]. *)
Definition occurs (old s : str) : Prop := exists a b, s = a ++ old ++ b.

(** The characters of a base64 text. *)
Definition b64_char (c : uchar) : bool :=
  ascii_alnum c || is_char 43 c || is_char 47 c || is_char 61 c.

(** The values of the libraries on the key of the text "abc" (no match, no
    record): the JSON texts, the zlib stream and its base64 text. *)
Definition sample_key : key_data :=
  KeyData (lit "1.0")
          (lit "ba7816bf8f01cfea414140de5dae2223b00361a396177a9cb410ff61f20015ad")
          [].

Definition quoted (s : string) : str := chr 34 :: lit s ++ [chr 34].

Definition sample_json : str :=
  lit "{" ++ quoted "version" ++ lit ": " ++ quoted "1.0" ++ lit ", "
  ++ quoted "hash" ++ lit ": "
  ++ quoted "ba7816bf8f01cfea414140de5dae2223b00361a396177a9cb410ff61f20015ad"
  ++ lit ", " ++ quoted "restorations" ++ lit ": []}".

Definition sample_json_indented : str :=
  lit "{" ++ [chr 10]
  ++ lit "  " ++ quoted "version" ++ lit ": " ++ quoted "1.0" ++ lit "," ++ [chr 10]
  ++ lit "  " ++ quoted "hash" ++ lit ": "
  ++ quoted "ba7816bf8f01cfea414140de5dae2223b00361a396177a9cb410ff61f20015ad"
  ++ lit "," ++ [chr 10]
  ++ lit "  " ++ quoted "restorations" ++ lit ": []" ++ [chr 10] ++ lit "}".

Definition sample_compressed : bytes :=
  [120; 156; 21; 141; 177; 14; 131; 48; 12; 5; 127; 5; 121; 70; 149; 95; 2; 9;
   240; 43; 168; 131; 67; 108; 209; 165; 72; 9; 234; 130; 248; 247; 6; 221;
   116; 203; 221; 69; 63; 45; 245; 115; 124; 105; 233; 8; 47; 166; 190; 163;
   93; 234; 254; 104; 146; 56; 33; 36; 155; 140; 177; 153; 202; 128; 6; 103;
   29; 179; 168; 115; 206; 39; 102; 31; 32; 126; 14; 136; 81; 230; 45; 13; 96;
   179; 0; 115; 204; 24; 37; 63; 173; 162; 245; 60; 138; 156; 237; 80; 91;
   115; 125; 223; 127; 26; 203; 32; 103]%N.

Definition sample_encoded : str :=
  lit "eJwVjbEOgzAMBX8FeUaVXwIJ8Cuog0Ns0aVICeqC+PcG3XTL3UU/LfVzfGnpCC+mvqNd6v5okjghJJuMsZnKgAZnHbOoc84nZh8gfg6IUeYtDWCzAHPMGCU/raL1PIqc7VBbc33ffxrLIGc=".

Fixpoint bytes_eqb (a b : bytes) : bool :=
  match a, b with
  | [], [] => true
  | x :: a', y :: b' => (x =? y)%N && bytes_eqb a' b'
  | _, _ => false
  end.


Definition sample_loads (s : str) : loads_outcome :=
  if str_eqb s sample_json_indented || str_eqb s sample_json
  then Loaded (json_of_key sample_key) else JSONDecodeError.

Definition sample_loads_bytes (b : bytes) : option json :=
  if bytes_eqb b (encode_utf8 sample_json)
  then Some (json_of_key sample_key) else None.


Definition sample_decompress (b : bytes) : option bytes :=
  if bytes_eqb b sample_compressed then Some (encode_utf8 sample_json) else None.


Definition sample_b64decode (s : str) : option bytes :=
  if str_eqb s sample_encoded then Some sample_compressed else None.

(** The text [T] from offset [idx] on with [tok] in place of each of the
    spans [ms], and every character outside them kept. *)
Fixpoint substitute_spans (tok T : str) (idx : nat) (ms : list span) : str :=
  match ms with
  | [] => skipn idx T
  | m :: ms' =>
      slice idx (m_start m) T ++ tok ++ substitute_spans tok T (m_end m) ms'
  end.






(** ** Vocabulary of the further properties *)

(** A source file with a CR LF line end and an address to redact, the key
    that [redact] returns for its text, and the values of the libraries on
    that key: the JSON texts, the zlib stream and its base64 text. *)
Definition mail_source : str :=
  lit "mail bob@x.io" ++ [chr 13; chr 10] ++ lit "bye".

Definition mail_text : str := lit "mail bob@x.io" ++ [chr 10] ++ lit "bye".

Definition mail_redacted : str := lit "mail [REDACTED]" ++ [chr 10] ++ lit "bye".

Definition mail_key : key_data :=
  KeyData (lit "1.0")
          (lit "4f349642a8f593f04a7477521fbff22b422af59a514ac51e1f9411634e25de03")
          [Restoration 5 (lit "bob@x.io") 10].

Definition mail_json : str :=
  lit "{" ++ quoted "version" ++ lit ": " ++ quoted "1.0" ++ lit ", "
  ++ quoted "hash" ++ lit ": "
  ++ quoted "4f349642a8f593f04a7477521fbff22b422af59a514ac51e1f9411634e25de03"
  ++ lit ", " ++ quoted "restorations" ++ lit ": [{"
  ++ quoted "pos" ++ lit ": 5, " ++ quoted "text" ++ lit ": "
  ++ quoted "bob@x.io" ++ lit ", " ++ quoted "len" ++ lit ": 10}]}".

Definition mail_json_indented : str :=
  lit "{" ++ [chr 10]
  ++ lit "  " ++ quoted "version" ++ lit ": " ++ quoted "1.0" ++ lit "," ++ [chr 10]
  ++ lit "  " ++ quoted "hash" ++ lit ": "
  ++ quoted "4f349642a8f593f04a7477521fbff22b422af59a514ac51e1f9411634e25de03"
  ++ lit "," ++ [chr 10]
  ++ lit "  " ++ quoted "restorations" ++ lit ": [" ++ [chr 10]
  ++ lit "    {" ++ [chr 10]
  ++ lit "      " ++ quoted "pos" ++ lit ": 5," ++ [chr 10]
  ++ lit "      " ++ quoted "text" ++ lit ": " ++ quoted "bob@x.io" ++ lit ","
  ++ [chr 10]
  ++ lit "      " ++ quoted "len" ++ lit ": 10" ++ [chr 10]
  ++ lit "    }" ++ [chr 10]
  ++ lit "  ]" ++ [chr 10] ++ lit "}".

Definition mail_compressed : bytes :=
  [120; 156; 21; 142; 193; 10; 195; 48; 12; 67; 127; 165; 228; 60; 74; 236;
   56; 205; 178; 83; 255; 99; 236; 224; 108; 54; 45; 140; 101; 52; 97; 20;
   74; 255; 125; 201; 77; 66; 66; 79; 135; 249; 201; 86; 214; 252; 49; 183;
   193; 192; 104; 205; 101; 48; 11; 151; 165; 91; 82; 71; 113; 34; 228; 171;
   250; 232; 212; 18; 7; 10; 193; 35; 104; 82; 69; 76; 132; 200; 45; 97; 15;
   196; 79; 15; 2; 26; 9; 96; 114; 36; 232; 95; 98; 93; 223; 218; 164; 212;
   188; 113; 109; 132; 210; 54; 239; 135; 249; 230; 46; 124; 203; 170; 236;
   181; 115; 82; 78; 243; 62; 174; 185; 247; 223; 210; 159; 128; 61; 31; 231;
   31; 239; 28; 43; 90]%N.

Definition mail_encoded : str :=
  lit "eJwVjsEKwzAMQ3+l5DxK7DjNslP/Y+zgbDYtjGU0YRRK/33JTUJCT4f5yVbW/DG3wcBozWUwC5elW1JHcSLkq/ro1BIHCsEjaFJFTITILWEPxE8PAhoJYHIk6F9iXd/apNS8cW2E0jbvh/nmLnzLquy1c1JO8z6uufff0p+APR/nH+8cK1o=".

Definition mail_dumps (indent : option nat) (_ : json) : str :=
  match indent with
  | None => mail_json
  | Some _ => mail_json_indented
  end.

Definition mail_loads (s : str) : loads_outcome :=
  if str_eqb s mail_json_indented || str_eqb s mail_json
  then Loaded (json_of_key mail_key) else JSONDecodeError.

Definition mail_loads_bytes (b : bytes) : option json :=
  if bytes_eqb b (encode_utf8 mail_json)
  then Some (json_of_key mail_key) else None.

Definition mail_compress (_ : bytes) : bytes := mail_compressed.

Definition mail_decompress (b : bytes) : option bytes :=
  if bytes_eqb b mail_compressed then Some (encode_utf8 mail_json) else None.

Definition mail_b64encode (_ : bytes) : str := mail_encoded.

Definition mail_b64decode (s : str) : option bytes :=
  if str_eqb s mail_encoded then Some mail_compressed else None.

(** How much the text grows when the record [r] is restored, and when all
    the records of a list are. *)
Definition growth (r : restoration) : Z := Z.of_nat (length (text r)) - len r.

Definition total_growth (rs : list restoration) : Z :=
  fold_right (fun r acc => growth r + acc)%Z 0%Z rs.

(** The window of the text that the record [r] stands for. *)
Definition in_window (r : restoration) (i : nat) : Prop :=
  (pos r <= Z.of_nat i < pos r + len r)%Z.

(** The records of [rs] are those of the matches [ms], in order, each at
    the start of its match moved by what the tokens before it added. *)
Fixpoint positions_shifted (shift : Z) (ms : list span) (rs : list restoration)
  : Prop :=
  match ms, rs with
  | [], [] => True
  | m :: ms', r :: rs' =>
      pos r = (Z.of_nat (m_start m) + shift)%Z /\
      text r = m_text m /\
      positions_shifted (shift - growth r) ms' rs'
  | _, _ => False
  end.

(** The offset [i] lies in the span [m]. *)
Definition in_span (m : span) (i : nat) : Prop := m_start m <= i < m_end m.

(** The length of the token that [style] puts in place of [original], and
    the records of a list of matches: each at the start of its match moved
    by the lengths of the tokens before it minus those of the texts they
    replace. *)
Definition token_length (style original : str) : nat :=
  if str_eqb style BLACKOUT || str_eqb style VECTURE_NOISE
  then length original else 10.

Fixpoint expected_records (style : str) (shift : Z) (ms : list span)
  : list restoration :=
  match ms with
  | [] => []
  | m :: ms' =>
      let l := Z.of_nat (token_length style (m_text m)) in
      Restoration (Z.of_nat (m_start m) + shift) (m_text m) l
      :: expected_records style (shift + l - Z.of_nat (length (m_text m))) ms'
  end.

(** An entry of the custom word list that [_find_matches] does not skip. *)
Definition nonempty_word (word : str) : bool :=
  match word with
  | [] => false
  | _ :: _ => true
  end.

(** The characters of [s] from offset [i] on, [n] of them, are all of the
    class [p]. *)
Definition class_run (p : uchar -> bool) (s : str) (i n : nat) : Prop :=
  forall m, m < n -> exists c, nth_error s (i + m) = Some c /\ p c = true.

(** [re_sem U s r i j]: the pattern [r] matches the characters of [s] from
    offset [i] up to offset [j], whatever the order in which a matcher
    tries the alternatives. *)
Inductive re_sem (U : unicode_db) (s : str) : regex -> nat -> nat -> Prop :=
| sem_eps i : re_sem U s Eps i i
| sem_cls p i c :
    nth_error s i = Some c -> p c = true -> re_sem U s (Cls p) i (S i)
| sem_cat r1 r2 i j k :
    re_sem U s r1 i j -> re_sem U s r2 j k -> re_sem U s (Cat r1 r2) i k
| sem_alt_l r1 r2 i j : re_sem U s r1 i j -> re_sem U s (Alt r1 r2) i j
| sem_alt_r r1 r2 i j : re_sem U s r2 i j -> re_sem U s (Alt r1 r2) i j
| sem_rep p lo hi i n :
    lo <= n -> (forall h, hi = Some h -> n <= h) -> class_run p s i n ->
    re_sem U s (Rep p lo hi) i (i + n)
| sem_wordb i : word_boundary U s i = true -> re_sem U s WordB i i.

(** The character of [s] at offset [i] has code [n]. *)
Definition char_at (s : str) (i : nat) (n : N) : Prop :=
  exists c, nth_error s i = Some c /\ code c = n.

(** [word] stands in [text] at offset [i], compared as [re.IGNORECASE]
    compares, with a word boundary on each side. *)
Definition word_occurs_at (U : unicode_db) (text word : str) (i : nat) : Prop :=
  word_boundary U text i = true /\
  Forall2 (fun c t => re_ignorecase_eq U c t = true)
          word (slice i (i + length word) text) /\
  word_boundary U text (i + length word) = true.

(** A capitalised word at [i, j): an ASCII upper-case letter followed by one
    or more ASCII lower-case letters, between word boundaries. *)
Definition capitalised_at (U : unicode_db) (text : str) (i j : nat) : Prop :=
  word_boundary U text i = true /\
  (exists c, nth_error text i = Some c /\ ascii_upper c = true) /\
  S (S i) <= j /\ class_run ascii_lower text (S i) (j - S i) /\
  word_boundary U text j = true.

(** The three shapes of a date at offset [i]: groups of [a], [b] and [c]
    digits with the separator of code [sep] between them. *)
Definition date_shape (U : unicode_db) (text : str) (i a b c : nat) (sep : N)
  : Prop :=
  class_run (re_digit U) text i a /\ char_at text (i + a) sep /\
  class_run (re_digit U) text (i + a + 1) b /\ char_at text (i + a + 1 + b) sep /\
  class_run (re_digit U) text (i + a + b + 2) c.

Definition date_at (U : unicode_db) (text : str) (i j : nat) : Prop :=
  word_boundary U text i = true /\ j = i + 10 /\
  (date_shape U text i 4 2 2 45 \/ date_shape U text i 2 2 4 46
   \/ date_shape U text i 2 2 4 47) /\
  word_boundary U text j = true.

(** Four groups of one to three ASCII digits separated by dots. *)
Definition ipv4_at (U : unicode_db) (text : str) (i j : nat) : Prop :=
  word_boundary U text i = true /\
  (exists a b c d,
      1 <= a <= 3 /\ 1 <= b <= 3 /\ 1 <= c <= 3 /\ 1 <= d <= 3 /\
      class_run ascii_digit text i a /\ char_at text (i + a) 46 /\
      class_run ascii_digit text (i + a + 1) b /\ char_at text (i + a + 1 + b) 46 /\
      class_run ascii_digit text (i + a + b + 2) c /\
      char_at text (i + a + b + 2 + c) 46 /\
      class_run ascii_digit text (i + a + b + c + 3) d /\
      j = i + a + b + c + d + 3) /\
  word_boundary U text j = true.

(** A local part, an at sign, a domain part, a dot and a top-level label of
    two or more characters. *)
Definition email_at (U : unicode_db) (text : str) (i j : nat) : Prop :=
  word_boundary U text i = true /\
  (exists a b c,
      1 <= a /\ 1 <= b /\ 2 <= c /\
      class_run email_local text i a /\ char_at text (i + a) 64 /\
      class_run email_domain text (i + a + 1) b /\
      char_at text (i + a + 1 + b) 46 /\
      class_run email_tld text (i + a + b + 2) c /\
      j = i + a + b + c + 2) /\
  word_boundary U text j = true.

(** What the recognisers that are switched on look for: [i, j) holds an
    address-like, date-like or email-like string, an occurrence of a
    non-empty custom word or, with the heuristic on, a capitalised word. *)
Definition entity_at (U : unicode_db) (text : str) (custom_words : list str)
           (redact_caps : bool) (i j : nat) : Prop :=
  ipv4_at U text i j \/ date_at U text i j \/ email_at U text i j
  \/ (exists word, In word custom_words /\ word <> [] /\
                   j = i + length word /\ word_occurs_at U text word i)
  \/ (redact_caps = true /\ capitalised_at U text i j).

Definition acme_text : str := lit "Acme Corp uses acme.io".

(** A lower-case hexadecimal digit. *)
Definition is_hex_digit (c : uchar) : bool := in_range 48 57 c || in_range 97 102 c.

(** A word as the words file is meant to hold them: not empty, no white
    space at either end, no line boundary inside. *)
Definition clean_word (w : str) : Prop :=
  w <> [] /\
  (forall c, hd_error w = Some c -> is_space c = false) /\
  (forall c, hd_error (rev w) = Some c -> is_space c = false) /\
  Forall (fun c => is_linebreak c = false) w.

(** A words file with the words one per line, each line ended by a line
    feed. *)
Definition one_per_line (ws : list str) : str :=
  flat_map (fun w => w ++ [chr 10]) ws.

(** A key for the text "a##d" whose one record puts "bc" back in place. *)
Definition in_place_key : key_data :=
  KeyData (lit "1.0") (sha256_hex (lit "a##d")) [Restoration 1 (lit "bc") 2].

(** * Properties *)

(** ** SHA-256 test vectors *)

Example sha256_empty :
  sha256_hex (lit "") =
  lit "e3b0c44298fc1c149afbf4c8996fb92427ae41e4649b934ca495991b7852b855".
Proof. vm_compute. reflexivity. Qed.

Example sha256_abc :
  sha256_hex (lit "abc") =
  lit "ba7816bf8f01cfea414140de5dae2223b00361a396177a9cb410ff61f20015ad".
Proof. vm_compute. reflexivity. Qed.

Example sha256_two_blocks :
  sha256_hex (lit "abcdbcdecdefdefgefghfghighijhijkijkljklmklmnlmnomnopnopq") =
  lit "248d6a61d20638b8e5c026930c3e6039a33ce45964ff2167f6ecedd419db06c1".
Proof. vm_compute. reflexivity. Qed.

Example sha256_non_ascii :
  sha256_hex [chr 0x2588; chr 0xE9; chr 0x1F600] =
  lit "f87c797601fc6da837282b391b97b1691c4042ea76735ae3c53316edf4aa9173".
Proof. vm_compute. reflexivity. Qed.

(** ** Sorting *)

Section SortFacts.

Variable A : Type.
Variable key : A -> Z.
Variable reverse : bool.

#[local] Abbreviation before := (goes_before key reverse).
#[local] Abbreviation isort := (list_sort key reverse).
#[local] Abbreviation ins := (insert key reverse).
#[local] Abbreviation ordered := (in_order key reverse).

Lemma goes_before_total x y : before x y = false -> before y x = true.
Proof.
  unfold goes_before. destruct reverse; intros H;
    apply Z.leb_gt in H; apply Z.leb_le; lia.
Qed.

Lemma ordered_trans x y z : ordered x y -> ordered y z -> ordered x z.
Proof.
  unfold in_order, goes_before. destruct reverse; intros H1 H2;
    apply Z.leb_le in H1; apply Z.leb_le in H2; apply Z.leb_le; lia.
Qed.

Lemma insert_perm x l : Permutation (ins x l) (x :: l).
Proof.
  induction l as [|y l IH]; simpl; [reflexivity|].
  destruct (before x y); [reflexivity|].
  rewrite IH. apply perm_swap.
Qed.

Lemma list_sort_perm l : Permutation (isort l) l.
Proof.
  induction l as [|x l IH]; simpl; [reflexivity|].
  rewrite insert_perm. now constructor.
Qed.

Lemma insert_hdrel a x l :
  ordered a x -> HdRel ordered a l -> HdRel ordered a (ins x l).
Proof.
  intros Hax Hal. destruct l as [|y l]; simpl.
  - now constructor.
  - destruct (before x y); constructor; auto. now inversion Hal.
Qed.

Lemma insert_sorted x l : Sorted ordered l -> Sorted ordered (ins x l).
Proof.
  induction 1 as [|y l Hs IH Hhd]; simpl.
  - repeat constructor.
  - destruct (before x y) eqn:E.
    + repeat constructor; auto.
    + constructor; auto. apply insert_hdrel; auto.
      now apply goes_before_total.
Qed.

Lemma list_sort_sorted l : Sorted ordered (isort l).
Proof.
  induction l as [|x l IH]; simpl; [constructor|]. now apply insert_sorted.
Qed.

Lemma list_sort_strongly_sorted l : StronglySorted ordered (isort l).
Proof.
  apply Sorted_StronglySorted; [|apply list_sort_sorted].
  intros x y z. apply ordered_trans.
Qed.

(** Stability: the elements of any one key keep their order. *)
Lemma insert_filter_other k x l :
  (key x =? k)%Z = false ->
  filter (fun y => (key y =? k)%Z) (ins x l) = filter (fun y => (key y =? k)%Z) l.
Proof.
  intros Hx. induction l as [|y l IH]; simpl.
  - now rewrite Hx.
  - destruct (before x y); simpl.
    + now rewrite Hx.
    + now rewrite IH.
Qed.

Lemma insert_filter_same k x l :
  (key x =? k)%Z = true -> Sorted ordered l ->
  filter (fun y => (key y =? k)%Z) (ins x l)
  = x :: filter (fun y => (key y =? k)%Z) l.
Proof.
  intros Hx Hs. induction Hs as [|y l Hs IH Hhd]; simpl.
  - now rewrite Hx.
  - destruct (before x y) eqn:E; simpl.
    + now rewrite Hx.
    + rewrite IH. destruct (key y =? k)%Z eqn:Ey; [|reflexivity].
      exfalso. apply Z.eqb_eq in Hx, Ey.
      unfold goes_before in E. destruct reverse; apply Z.leb_gt in E; lia.
Qed.

Lemma list_sort_stable k l :
  filter (fun y => (key y =? k)%Z) (isort l) = filter (fun y => (key y =? k)%Z) l.
Proof.
  induction l as [|x l IH]; simpl; [reflexivity|].
  destruct (key x =? k)%Z eqn:E.
  - rewrite insert_filter_same; auto using list_sort_sorted. now rewrite IH.
  - rewrite insert_filter_other; auto.
Qed.

(** With pairwise distinct keys the result depends on the elements only. *)
Lemma goes_before_antisym x y :
  key x <> key y -> before x y = true -> before y x = false.
Proof.
  unfold goes_before. destruct reverse; intros Hxy H;
    apply Z.leb_le in H; apply Z.leb_gt; lia.
Qed.

Lemma insert_insert x y l :
  key x <> key y -> ins x (ins y l) = ins y (ins x l).
Proof.
  intros Hxy. induction l as [|z l IH]; simpl.
  - destruct (before x y) eqn:E1.
    + now rewrite (goes_before_antisym Hxy E1).
    + now rewrite (goes_before_total _ _ E1).
  - destruct (before y z) eqn:Eyz, (before x z) eqn:Exz; simpl;
      rewrite ?Eyz, ?Exz.
    + destruct (before x y) eqn:E1.
      * rewrite (goes_before_antisym Hxy E1). simpl. now rewrite ?Eyz.
      * rewrite (goes_before_total _ _ E1). simpl. now rewrite ?Exz.
    + destruct (before x y) eqn:E1.
      * exfalso. assert (ordered x z) by (eapply ordered_trans; eauto).
        unfold in_order in *. congruence.
      * simpl. now rewrite ?Exz.
    + destruct (before y x) eqn:E2.
      * exfalso. assert (ordered y z) by (eapply ordered_trans; eauto).
        unfold in_order in *. congruence.
      * simpl. now rewrite ?Eyz.
    + now rewrite IH.
Qed.

Lemma list_sort_permutation l l' :
  Permutation l l' -> NoDup (map key l) -> isort l = isort l'.
Proof.
  induction 1 as [|x l l' Hp IH|x y l|l l' l'' Hp1 IH1 Hp2 IH2]; intros Hnd.
  - reflexivity.
  - simpl. rewrite IH; auto. now inversion Hnd.
  - simpl. apply insert_insert. inversion Hnd as [|? ? Hin _]; subst.
    intros E. apply Hin. left. now symmetry.
  - rewrite IH1; auto. apply IH2.
    eapply Permutation_NoDup; [|exact Hnd]. now apply Permutation_map.
Qed.

End SortFacts.

(** ** Conflict resolution *)

Lemma last_nonempty {A} (l : list A) (d d' : A) : l <> [] -> last l d = last l d'.
Proof.
  induction l as [|a l IH]; [congruence|]. intros _.
  destruct l as [|b l]; [reflexivity|]. simpl in *. apply IH. discriminate.
Qed.

Lemma Sorted_snoc {A} (R : A -> A -> Prop) (l : list A) (x d : A) :
  Sorted R l -> (l <> [] -> R (last l d) x) -> Sorted R (l ++ [x]).
Proof.
  induction 1 as [|a l Hs IH Hhd]; intros Hlast; simpl.
  - repeat constructor.
  - constructor.
    + apply IH. intros Hne. destruct l as [|b l]; [congruence|].
      apply Hlast. discriminate.
    + destruct l as [|b l]; simpl.
      * constructor. apply Hlast. discriminate.
      * constructor. now inversion Hhd.
Qed.

Lemma resolve_loop_inv (first : span) (rest cleaned : list span) :
  cleaned <> [] -> Sorted ends_before cleaned ->
  let out := fold_left (resolve_step first) rest cleaned in
  out <> [] /\ Sorted ends_before out /\
  (exists kept, out = cleaned ++ kept /\ incl kept rest).
Proof.
  revert cleaned. induction rest as [|m rest IH]; intros cleaned Hne Hs; simpl.
  - repeat split; auto. exists []. split; [now rewrite app_nil_r|easy].
  - unfold resolve_step at 2 4 6.
    destruct (m_start m <? m_end (last cleaned first)) eqn:E.
    + destruct (IH cleaned Hne Hs) as (H1 & H2 & kept & H3 & H4).
      repeat split; auto. exists kept. split; auto.
      intros x Hx. right. now apply H4.
    + assert (Hne' : cleaned ++ [m] <> []) by (destruct cleaned; discriminate).
      assert (Hs' : Sorted ends_before (cleaned ++ [m])).
      { apply Sorted_snoc with (d := first); auto.
        intros _. apply Nat.ltb_ge in E. exact E. }
      destruct (IH _ Hne' Hs') as (H1 & H2 & kept & H3 & H4).
      repeat split; auto. exists (m :: kept). split.
      * now rewrite H3, <- app_assoc.
      * intros x [->|Hx]; [now left|right; now apply H4].
Qed.

Lemma resolve_sorted_inv (ms : list span) :
  Sorted ends_before (resolve_sorted ms) /\ incl (resolve_sorted ms) ms /\
  (forall m rest, ms = m :: rest -> exists kept, resolve_sorted ms = m :: kept).
Proof.
  destruct ms as [|m rest]; simpl.
  - repeat split; [constructor|easy|discriminate].
  - destruct (@resolve_loop_inv m rest [m]) as (H1 & H2 & kept & H3 & H4);
      [discriminate|repeat constructor|].
    repeat split; auto.
    + rewrite H3. intros x [->|Hx]; [now left|right; now apply H4].
    + intros m' rest' E. injection E as <- <-. now exists kept.
Qed.

Lemma resolve_sorted_snoc (ms : list span) (m : span) :
  ms <> [] ->
  resolve_sorted (ms ++ [m]) =
  if m_start m <? m_end (last (resolve_sorted ms) m)
  then resolve_sorted ms
  else resolve_sorted ms ++ [m].
Proof.
  destruct ms as [|first rest]; [congruence|]. intros _. simpl.
  rewrite fold_left_app. simpl. unfold resolve_step at 1.
  destruct (@resolve_loop_inv first rest [first]) as (Hne & _);
    [discriminate|repeat constructor|].
  now rewrite (last_nonempty first m Hne).
Qed.

Lemma Sorted_starts_before (l : list span) :
  Forall span_ok l -> Sorted ends_before l -> StronglySorted starts_before l.
Proof.
  intros Hok Hs. apply Sorted_StronglySorted.
  - intros a b c. unfold starts_before. lia.
  - induction Hs as [|a l Hs IH Hhd]; constructor.
    + apply IH. now inversion Hok.
    + inversion Hhd as [|b l' Hab]; constructor. subst.
      inversion Hok as [|? ? Ha _]; subst.
      unfold span_ok, ends_before, starts_before in *. lia.
Qed.

Lemma incl_Forall_span {P : span -> Prop} (l l' : list span) :
  incl l l' -> Forall P l' -> Forall P l.
Proof.
  intros Hi Hf. rewrite Forall_forall in *. auto.
Qed.

Lemma resolve_incl (candidates : list span) : incl (resolve candidates) candidates.
Proof.
  unfold resolve. intros x Hx.
  apply (proj1 (proj2 (resolve_sorted_inv _))) in Hx.
  eapply Permutation_in; [apply list_sort_perm|exact Hx].
Qed.

Lemma resolve_ends_before (candidates : list span) :
  Sorted ends_before (resolve candidates).
Proof. apply resolve_sorted_inv. Qed.

Lemma sorted_by_start (candidates : list span) :
  Sorted starts_no_later (list_sort start_key false candidates).
Proof.
  pose proof (list_sort_sorted start_key false candidates) as H.
  induction H as [|a l Hs IH Hhd]; constructor; auto.
  inversion Hhd as [|b l' Hab]; constructor.
  unfold in_order, goes_before, start_key in Hab. apply Z.leb_le in Hab.
  unfold starts_no_later. lia.
Qed.

Lemma stable_by_start (k : nat) (candidates : list span) :
  filter (fun m => m_start m =? k) (list_sort start_key false candidates)
  = filter (fun m => m_start m =? k) candidates.
Proof.
  pose proof (list_sort_stable start_key false (Z.of_nat k) candidates) as H.
  assert (E : forall l, filter (fun m => m_start m =? k) l
                        = filter (fun y => (start_key y =? Z.of_nat k)%Z) l).
  { intros l. apply filter_ext. intros m. unfold start_key.
    destruct (m_start m =? k) eqn:E1.
    - apply Nat.eqb_eq in E1. symmetry. apply Z.eqb_eq. lia.
    - apply Nat.eqb_neq in E1. symmetry. apply Z.eqb_neq. lia. }
  now rewrite !E.
Qed.

(** ** Matches are spans of the text *)

Section ReFacts.

Variable U : unicode_db.

Lemma run_le p hi (s : str) : run p hi s <= length s.
Proof.
  revert hi. induction s as [|c s IH]; intros hi; simpl; [lia|].
  destruct hi as [[|h]|]; try lia.
  - destruct (p c); [specialize (IH (Some h))|]; lia.
  - destruct (p c); [specialize (IH None)|]; lia.
Qed.

Lemma backoff_sound k i lo n e :
  backoff k i lo n = Some e ->
  exists m, lo <= m /\ m <= n /\ k (i + m) = Some e.
Proof.
  induction n as [|n IH]; simpl.
  - destruct (0 <? lo) eqn:E; [discriminate|]. apply Nat.ltb_ge in E.
    destruct (k (i + 0)) eqn:Ek; [|discriminate].
    intros [= <-]. exists 0. auto.
  - destruct (S n <? lo) eqn:E; [discriminate|]. apply Nat.ltb_ge in E.
    destruct (k (i + S n)) eqn:Ek.
    + intros [= <-]. exists (S n). auto.
    + intros H. destruct (IH H) as (m & H1 & H2 & H3). exists m. auto.
Qed.

Lemma re_match_sound r (s : str) :
  forall i k e, i <= length s -> re_match U r s i k = Some e ->
  exists j, i + min_len r <= j /\ j <= length s /\ k j = Some e.
Proof.
  induction r as [|p|r1 IH1 r2 IH2|r1 IH1 r2 IH2|p lo hi|];
    intros i k e Hi H; simpl in *.
  - exists i. repeat split; auto; lia.
  - destruct (nth_error s i) as [c|] eqn:E; [|discriminate].
    destruct (p c); [|discriminate].
    assert (i < length s) by (apply nth_error_Some; congruence).
    exists (S i). repeat split; auto; lia.
  - destruct (IH1 _ _ _ Hi H) as (j1 & H1 & H2 & H3).
    destruct (IH2 _ _ _ H2 H3) as (j2 & H4 & H5 & H6).
    exists j2. repeat split; auto; lia.
  - destruct (re_match U r1 s i k) eqn:E1.
    + injection H as ->. destruct (IH1 _ _ _ Hi E1) as (j & H1 & H2 & H3).
      exists j. repeat split; auto; lia.
    + destruct (IH2 _ _ _ Hi H) as (j & H1 & H2 & H3).
      exists j. repeat split; auto; lia.
  - destruct (backoff_sound _ _ _ _ H) as (m & H1 & H2 & H3).
    pose proof (run_le p hi (skipn i s)) as Hr. rewrite length_skipn in Hr.
    exists (i + m). repeat split; auto; lia.
  - destruct (word_boundary U s i); [|discriminate].
    exists i. repeat split; auto; lia.
Qed.

Lemma finditer_from_spans r (s : str) offsets next :
  0 < min_len r -> Forall (fun i => i <= length s) offsets ->
  Forall (valid_span s) (finditer_from U r s offsets next).
Proof.
  intros Hmin Hoff. revert next.
  induction Hoff as [|i offsets Hi Hoff IH]; intros next; simpl; [constructor|].
  destruct (i <? next); [apply IH|].
  destruct (re_match U r s i Some) as [e|] eqn:E; [|apply IH].
  constructor; [|apply IH].
  destruct (re_match_sound _ _ _ Hi E) as (j & H1 & H2 & [= <-]).
  unfold valid_span; simpl. repeat split; auto; lia.
Qed.

Lemma finditer_spans r (s : str) :
  0 < min_len r -> Forall (valid_span s) (finditer U r s).
Proof.
  intros Hmin. apply finditer_from_spans; auto.
  apply Forall_forall. intros i Hi. apply in_seq in Hi. lia.
Qed.

Lemma word_pattern_min_len c (w : str) : 0 < min_len (word_pattern U (c :: w)).
Proof. simpl. lia. Qed.

Lemma find_candidates_spans text custom_words redact_caps :
  Forall (valid_span text) (find_candidates U text custom_words redact_caps).
Proof.
  unfold find_candidates. repeat rewrite Forall_app. repeat split.
  - simpl. repeat rewrite Forall_app. repeat split;
      try (apply finditer_spans; simpl; lia). constructor.
  - induction custom_words as [|w ws IH]; simpl; [constructor|].
    apply Forall_app. split; [|exact IH].
    destruct w as [|c w]; [constructor|].
    apply finditer_spans, word_pattern_min_len.
  - destruct redact_caps; [|constructor].
    apply finditer_spans. simpl. lia.
Qed.

Lemma find_matches_spans text custom_words redact_caps :
  Forall (valid_span text) (find_matches U text custom_words redact_caps)
  /\ Sorted ends_before (find_matches U text custom_words redact_caps).
Proof.
  unfold find_matches. split; [|apply resolve_ends_before].
  eapply incl_Forall_span; [apply resolve_incl|apply find_candidates_spans].
Qed.

End ReFacts.

(** ** The resolver's contract *)

(** C4.  The resolver sorts the candidates stably by start (a permutation,
    ascending, equal starts in discovery order), always keeps the first
    span of the sorted list and drops a later span exactly when its start
    is strictly less than the end of the last kept span.  Its output has
    each kept span ending no later than the next one starts, is strictly
    ascending by start when the candidates are spans ([start < end]), and
    holds candidates only; every candidate of the matcher is such a span,
    so the resolved matches of any text are strictly ascending.
    A=[0,5), B=[3,10) resolve to A alone, and no candidate gives no
    output. *)
Theorem resolve_first_claim_wins (candidates : list span) :
  let sorted := list_sort start_key false candidates in
  (Permutation sorted candidates /\
   Sorted starts_no_later sorted /\
   (forall k, filter (fun m => m_start m =? k) sorted
              = filter (fun m => m_start m =? k) candidates)) /\
  (resolve candidates = resolve_sorted sorted /\
   (forall m rest, exists kept, resolve_sorted (m :: rest) = m :: kept) /\
   (forall ms m, ms <> [] ->
      resolve_sorted (ms ++ [m]) =
      if m_start m <? m_end (last (resolve_sorted ms) m)
      then resolve_sorted ms
      else resolve_sorted ms ++ [m])) /\
  (Sorted ends_before (resolve candidates) /\
   (Forall span_ok candidates -> StronglySorted starts_before (resolve candidates)) /\
   incl (resolve candidates) candidates) /\
  (forall U text custom_words redact_caps,
      Forall span_ok (find_candidates U text custom_words redact_caps) /\
      StronglySorted starts_before (find_matches U text custom_words redact_caps)) /\
  (forall ta tb, resolve [Span 0 5 ta; Span 3 10 tb] = [Span 0 5 ta]) /\
  (forall ta tb, resolve [Span 3 10 tb; Span 0 5 ta] = [Span 0 5 ta]) /\
  resolve [] = [].
Proof.
  intros sorted.
  assert (Hstrict : forall cs, Forall span_ok cs ->
                               StronglySorted starts_before (resolve cs)).
  { intros cs Hok. apply Sorted_starts_before; [|apply resolve_ends_before].
    eapply incl_Forall_span; [apply resolve_incl|exact Hok]. }
  assert (Hcand : forall U text custom_words redact_caps,
             Forall span_ok (find_candidates U text custom_words redact_caps)).
  { intros U text custom_words redact_caps.
    eapply Forall_impl; [|apply find_candidates_spans].
    intros m Hm. apply Hm. }
  refine (conj (conj _ (conj _ _))
         (conj (conj _ (conj _ _))
         (conj (conj _ (conj _ _))
         (conj _ (conj _ (conj _ _)))))).
  - apply list_sort_perm.
  - apply sorted_by_start.
  - intros k. apply stable_by_start.
  - reflexivity.
  - intros m rest.
    destruct (resolve_sorted_inv (m :: rest)) as (_ & _ & H). now apply (H m rest).
  - intros ms m. apply resolve_sorted_snoc.
  - apply resolve_ends_before.
  - apply Hstrict.
  - apply resolve_incl.
  - intros U text custom_words redact_caps. split; [apply Hcand|].
    apply Hstrict, Hcand.
  - reflexivity.
  - reflexivity.
  - reflexivity.
Qed.

Lemma resolve_first_claim_wins_witness :
  Forall span_ok nested_candidates /\
  StronglySorted starts_before (resolve nested_candidates) /\
  resolve nested_candidates
  = [Span 0 5 (lit "abcde"); Span 5 7 (lit "fg"); Span 7 9 (lit "hi")].
Proof.
  assert (Hok : Forall span_ok nested_candidates).
  { unfold nested_candidates, span_ok. repeat constructor. }
  split; [exact Hok|]. split.
  - exact (proj1 (proj2 (proj1 (proj2 (proj2
             (resolve_first_claim_wins nested_candidates))))) Hok).
  - reflexivity.
Defined.

(** ** Redaction followed by restoration *)

Lemma uchar_eqb_refl (c : uchar) : uchar_eqb c c = true.
Proof. apply N.eqb_refl. Qed.

Lemma str_eqb_refl (s : str) : str_eqb s s = true.
Proof. induction s as [|c s IH]; simpl; [reflexivity|]. now rewrite uchar_eqb_refl. Qed.

Lemma uchar_eq (a b : uchar) : code a = code b -> a = b.
Proof.
  destruct a as [n Hn], b as [m Hm]. simpl. intros ->.
  f_equal. apply UIP_dec. apply bool_dec.
Qed.

Lemma uchar_eqb_eq (a b : uchar) : uchar_eqb a b = true <-> a = b.
Proof.
  split.
  - intros H. apply uchar_eq. now apply N.eqb_eq.
  - intros ->. apply uchar_eqb_refl.
Qed.

Lemma str_eqb_eq (s t : str) : str_eqb s t = true <-> s = t.
Proof.
  split.
  - revert t. induction s as [|a s IH]; intros [|b t]; simpl; try easy.
    intros H. apply andb_true_iff in H as [H1 H2].
    apply uchar_eqb_eq in H1. subst. f_equal. now apply IH.
  - intros ->. apply str_eqb_refl.
Qed.

Lemma firstn_slice {A} (a b : nat) (s : list A) :
  a <= b -> firstn a s ++ slice a b s = firstn b s.
Proof.
  unfold slice. revert b s. induction a as [|a IH]; intros b s Hab; simpl.
  - now rewrite Nat.sub_0_r.
  - destruct b as [|b]; [lia|]. destruct s as [|c s]; simpl.
    + now rewrite firstn_nil.
    + f_equal. apply IH. lia.
Qed.

Lemma slice_length {A} (a b : nat) (s : list A) :
  a <= b -> b <= length s -> length (slice a b s) = b - a.
Proof.
  intros Hab Hb. unfold slice. rewrite length_firstn, length_skipn. lia.
Qed.

Lemma list_sum_lengths {A} (l : list (list A)) :
  list_sum (map (@length A) l) = length (concat l).
Proof.
  induction l as [|x l IH]; simpl; [reflexivity|]. now rewrite length_app, IH.
Qed.

Lemma concat_snoc {A} (l : list (list A)) (x : list A) :
  concat (l ++ [x]) = concat l ++ x.
Proof. now rewrite concat_app; simpl; rewrite app_nil_r. Qed.

Lemma StronglySorted_snoc {A} (R : A -> A -> Prop) (l : list A) (x : A) :
  StronglySorted R l -> Forall (fun a => R a x) l -> StronglySorted R (l ++ [x]).
Proof.
  induction 1 as [|a l Hs IH Hf]; intros Hx; simpl.
  - repeat constructor.
  - inversion Hx; subst. constructor; auto.
    apply Forall_app. split; auto.
Qed.

Lemma insert_last (x : restoration) (l : list restoration) :
  Forall (fun y => pos_lt x y) l -> insert pos true x l = l ++ [x].
Proof.
  induction 1 as [|y l Hy Hl IH]; simpl; [reflexivity|].
  unfold goes_before. unfold pos_lt in Hy.
  destruct (pos y <=? pos x)%Z eqn:E; [apply Z.leb_le in E; lia|].
  now rewrite IH.
Qed.

(** Records in strictly ascending position order are processed last to
    first. *)
Lemma sort_descending_rev (l : list restoration) :
  StronglySorted pos_lt l -> list_sort pos true l = rev l.
Proof.
  induction 1 as [|x l Hs IH Hf]; simpl; [reflexivity|].
  rewrite IH. apply insert_last.
  apply Forall_forall. intros y Hy. apply in_rev in Hy.
  rewrite Forall_forall in Hf. now apply Hf.
Qed.

Lemma slice_to_app {A} (a b : list A) : slice_to (Z.of_nat (length a)) (a ++ b) = a.
Proof.
  unfold slice_to, py_index.
  destruct (Z.of_nat (length a) <? 0)%Z eqn:E; [apply Z.ltb_lt in E; lia|].
  rewrite Nat2Z.id. rewrite firstn_app, Nat.sub_diag, firstn_all. simpl.
  apply app_nil_r.
Qed.

Lemma slice_from_app {A} (a b : list A) : slice_from (Z.of_nat (length a)) (a ++ b) = b.
Proof.
  unfold slice_from, py_index.
  destruct (Z.of_nat (length a) <? 0)%Z eqn:E; [apply Z.ltb_lt in E; lia|].
  rewrite Nat2Z.id. rewrite skipn_app, Nat.sub_diag, skipn_all. reflexivity.
Qed.

(** One step of [restore] on a record that covers the token [tok] found
    after [pre] in the text. *)
Lemma restore_loop_token (pre tok post orig : str) (items : list restoration) :
  restore_loop (pre ++ tok ++ post)
    (Restoration (Z.of_nat (length pre)) orig (Z.of_nat (length tok)) :: items)
  = restore_loop (pre ++ orig ++ post) items.
Proof.
  simpl.
  destruct ((Z.of_nat (length pre) <? 0)
            || (Z.of_nat (length (pre ++ tok ++ post))
                <? Z.of_nat (length pre) + Z.of_nat (length tok)))%Z eqn:E.
  - exfalso. apply orb_true_iff in E as [E|E]; apply Z.ltb_lt in E;
      rewrite ?length_app in E; lia.
  - rewrite slice_to_app.
    replace (Z.of_nat (length pre) + Z.of_nat (length tok))%Z
      with (Z.of_nat (length (pre ++ tok))) by (rewrite length_app; lia).
    replace (pre ++ tok ++ post) with ((pre ++ tok) ++ post)
      by (now rewrite <- app_assoc).
    rewrite slice_from_app. reflexivity.
Qed.

Section RoundTrip.

Variable U : unicode_db.
Variable rnd : nat -> nat.
Variable T : str.
Variable style : str.

Lemma replacement_for_nonempty draws original :
  0 < length original ->
  0 < length (fst (replacement_for rnd draws style original)).
Proof.
  intros H. unfold replacement_for.
  destruct (str_eqb style BLACKOUT); simpl.
  - now rewrite repeat_length.
  - destruct (str_eqb style VECTURE_NOISE); simpl.
    + now rewrite length_map, length_seq.
    + apply Nat.lt_0_succ.
Qed.

Lemma redact_step_inv st m :
  redact_inv T st -> valid_span T m -> current_idx st <= m_start m ->
  redact_inv T (redact_step T style rnd st m).
Proof.
  intros (Hidx & Hsorted & Hpos & Hrestore) (Hne & Hend & Htext) Hstart.
  unfold redact_step.
  pose proof (@replacement_for_nonempty (rnd_draws st) (m_text m)) as Hrepl.
  destruct (replacement_for rnd (rnd_draws st) style (m_text m))
    as [replacement draws] eqn:E.
  simpl in Hrepl.
  assert (Hlen : length (m_text m) = m_end m - m_start m).
  { rewrite Htext. apply slice_length; lia. }
  specialize (Hrepl ltac:(lia)).
  set (out := concat (result_text st)) in *.
  set (gap := slice (current_idx st) (m_start m) T).
  assert (Eout1 : concat (result_text st ++ [gap]) = out ++ gap)
    by apply concat_snoc.
  assert (Eout2 : concat ((result_text st ++ [gap]) ++ [replacement])
                  = (out ++ gap) ++ replacement)
    by (rewrite <- Eout1; apply concat_snoc).
  unfold redact_inv. simpl.
  rewrite list_sum_lengths, Eout1, Eout2.
  repeat split.
  - exact Hend.
  - apply StronglySorted_snoc; auto.
    eapply Forall_impl; [|exact Hpos]. intros r Hr. unfold pos_lt.
    cbv beta in Hr. simpl. rewrite length_app. lia.
  - apply Forall_app. split.
    + eapply Forall_impl; [|exact Hpos]. intros r Hr. cbv beta in Hr.
      rewrite !length_app. lia.
    + constructor; [|constructor]. simpl. rewrite !length_app. lia.
  - intros rest. rewrite rev_unit.
    rewrite <- (app_assoc (out ++ gap) replacement rest).
    rewrite restore_loop_token.
    rewrite <- (app_assoc out gap). rewrite Hrestore.
    f_equal. rewrite !app_assoc. f_equal.
    unfold gap. rewrite firstn_slice by lia.
    rewrite Htext. apply firstn_slice. lia.
Qed.

Lemma redact_loop_inv ms st :
  redact_inv T st -> Forall (valid_span T) ms -> Sorted ends_before ms ->
  starts_at_or_after (current_idx st) ms ->
  redact_inv T (fold_left (redact_step T style rnd) ms st).
Proof.
  revert st. induction ms as [|m ms IH]; intros st Hinv Hvalid Hsorted Hfirst;
    simpl; [exact Hinv|].
  inversion Hvalid as [|? ? Hm Hms]; subst.
  inversion Hsorted as [|? ? Hs Hhd]; subst.
  apply IH; auto.
  - apply redact_step_inv; auto.
  - unfold redact_step.
    destruct (replacement_for rnd (rnd_draws st) style (m_text m)). simpl.
    destruct ms as [|m' ms]; simpl; [exact I|]. now inversion Hhd.
Qed.

Lemma redact_init_inv : redact_inv T (RedactState [] [] 0 0).
Proof.
  unfold redact_inv. simpl. repeat split; try constructor. lia.
Qed.

Lemma redact_inv_final custom_words redact_caps :
  redact_inv T (redact_loop T style rnd (find_matches U T custom_words redact_caps)).
Proof.
  destruct (find_matches_spans U T custom_words redact_caps) as [Hv Hs].
  apply redact_loop_inv; auto using redact_init_inv.
  simpl. destruct (find_matches U T custom_words redact_caps); simpl; [exact I|lia].
Qed.

End RoundTrip.

(** The parts of what [redact] returns, and [restore] past its hash check. *)
Lemma redact_text U rnd T style custom_words redact_caps :
  let st := redact_loop T style rnd (find_matches U T custom_words redact_caps) in
  fst (redact U rnd T style custom_words redact_caps)
  = concat (result_text st) ++ skipn (current_idx st) T.
Proof. intros st. unfold redact. cbv zeta. cbn [fst]. apply concat_snoc. Qed.

Lemma redact_restorations U rnd T style custom_words redact_caps :
  restorations (snd (redact U rnd T style custom_words redact_caps))
  = key_restorations
      (redact_loop T style rnd (find_matches U T custom_words redact_caps)).
Proof. reflexivity. Qed.

Lemma redact_hash U rnd T style custom_words redact_caps :
  hash (snd (redact U rnd T style custom_words redact_caps))
  = sha256_hex (fst (redact U rnd T style custom_words redact_caps)).
Proof. reflexivity. Qed.

Lemma restore_matching (redacted_text : str) (key : key_data) :
  hash key = sha256_hex redacted_text ->
  restore redacted_text key
  = (KeyData (version key) (hash key) (list_sort pos true (restorations key)),
     restore_loop redacted_text (list_sort pos true (restorations key))).
Proof.
  intros H. unfold restore. cbv zeta. rewrite H, str_eqb_refl. reflexivity.
Qed.

Lemma restore_mismatch (redacted_text : str) (key : key_data) :
  hash key <> sha256_hex redacted_text ->
  restore redacted_text key = (key, Raise IntegrityViolation).
Proof.
  intros H. unfold restore. cbv zeta.
  destruct (str_eqb (sha256_hex redacted_text) (hash key)) eqn:E; [|reflexivity].
  apply str_eqb_eq in E. congruence.
Qed.

Lemma ascending_positions_distinct (l : list restoration) :
  StronglySorted pos_lt l -> NoDup (map pos l).
Proof.
  induction 1 as [|x l Hs IH Hf]; simpl; constructor; auto.
  intros Hin. apply in_map_iff in Hin as (y & Hy & Hin).
  rewrite Forall_forall in Hf. specialize (Hf _ Hin). unfold pos_lt in Hf. lia.
Qed.

Lemma redact_positions_distinct U rnd T style custom_words redact_caps :
  NoDup (map pos (restorations (snd (redact U rnd T style custom_words redact_caps)))).
Proof.
  rewrite redact_restorations. apply ascending_positions_distinct.
  apply (redact_inv_final U rnd T style custom_words redact_caps).
Qed.

(** C1.  Restoring the redacted text with the key that [redact] returned
    with it gives back the text, for every text, style (the three named
    ones and any other string), custom word list, heuristic flag and
    outcome of the random draws. *)
Theorem redact_restore_round_trip (U : unicode_db) (rnd : nat -> nat)
        (T style : str) (custom_words : list str) (redact_caps : bool) :
  snd (restore (fst (redact U rnd T style custom_words redact_caps))
               (snd (redact U rnd T style custom_words redact_caps)))
  = Return T.
Proof.
  destruct (redact_inv_final U rnd T style custom_words redact_caps)
    as (Hidx & Hsorted & Hpos & Hrestore).
  rewrite restore_matching by reflexivity.
  rewrite redact_restorations, redact_text.
  rewrite sort_descending_rev by exact Hsorted.
  rewrite Hrestore. cbn [snd]. now rewrite firstn_skipn.
Qed.

(** ** The worked example *)

Lemma redact_example (U : unicode_db) (rnd : nat -> nat) :
  redact U rnd example_text CLASSIC [] false = (example_redacted, example_key).
Proof. vm_compute. reflexivity. Qed.

(** C9.  Redacting "Contact john@example.com on 2023-01-05." in the CLASSIC
    style with no custom word and the heuristic off gives
    "Contact [REDACTED] on [REDACTED]." and a key of two records, the email
    and then the date; restoring that pair gives the original string. *)
Theorem worked_example (U : unicode_db) (rnd : nat -> nat) :
  redact U rnd example_text CLASSIC [] false = (example_redacted, example_key)
  /\ map text (restorations example_key)
     = [lit "john@example.com"; lit "2023-01-05"]
  /\ snd (restore example_redacted example_key) = Return example_text.
Proof.
  split; [apply redact_example|]. split; vm_compute; reflexivity.
Qed.

(** ** The key after [restore] *)

(** Past the hash check, [restore] leaves the key's records in descending
    position order. *)
Lemma restore_sorts_key (redacted_text : str) (key : key_data) :
  hash key = sha256_hex redacted_text ->
  restorations (fst (restore redacted_text key))
  = list_sort pos true (restorations key).
Proof. intros H. now rewrite restore_matching. Qed.

(** C6.  On the pair of the worked example [restore] returns the original
    text and leaves the records of the caller's key in the opposite order:
    the key is not the one that was passed in. *)
Theorem restore_reorders_key :
  snd (restore example_redacted example_key) = Return example_text
  /\ restorations (fst (restore example_redacted example_key))
     = rev (restorations example_key)
  /\ fst (restore example_redacted example_key) <> example_key.
Proof.
  repeat split; try (vm_compute; reflexivity).
  intros H. apply (f_equal restorations) in H.
  vm_compute in H. discriminate H.
Qed.

(** ** Integrity *)

Lemma str_eqb_neq (s t : str) : str_eqb s t = false -> s <> t.
Proof.
  intros H E. apply str_eqb_eq in E. congruence.
Qed.

Lemma restore_loop_not_integrity (result : str) (items : list restoration) :
  restore_loop result items <> Raise IntegrityViolation.
Proof.
  revert result. induction items as [|item items IH]; intros result; simpl.
  - discriminate.
  - destruct ((pos item <? 0)
              || (Z.of_nat (length result) <? pos item + len item))%Z;
      [discriminate|apply IH].
Qed.

(** C2.  [restore] compares the SHA-256 digest of the UTF-8 bytes of the
    text it is given with the hash of the key before anything else: when
    they differ it raises the integrity error, with no record applied, no
    text returned and the key untouched, and it raises that error in no
    other case.  So a redacted text with one character changed, whose
    digest is then no longer the one in the key, is rejected. *)
Theorem restore_integrity_rejection :
  (forall redacted_text key,
      sha256_hex redacted_text <> hash key ->
      restore redacted_text key = (key, Raise IntegrityViolation)) /\
  (forall redacted_text key,
      snd (restore redacted_text key) = Raise IntegrityViolation ->
      sha256_hex redacted_text <> hash key) /\
  (forall U rnd T style custom_words redact_caps i c,
      let redacted := fst (redact U rnd T style custom_words redact_caps) in
      let key := snd (redact U rnd T style custom_words redact_caps) in
      i < length redacted ->
      sha256_hex (mutate i c redacted) <> sha256_hex redacted ->
      restore (mutate i c redacted) key = (key, Raise IntegrityViolation)).
Proof.
  repeat split.
  - intros t key H. apply restore_mismatch. congruence.
  - intros t key H E. symmetry in E. rewrite (restore_matching _ _ E) in H.
    simpl in H. now apply restore_loop_not_integrity in H.
  - intros U rnd T style custom_words redact_caps i c redacted key Hi H.
    apply restore_mismatch. unfold key. rewrite redact_hash. fold redacted.
    congruence.
Qed.

Lemma restore_integrity_rejection_witness :
  restore (mutate 32 (chr 33) example_redacted) example_key
  = (example_key, Raise IntegrityViolation).
Proof.
  pose proof (proj2 (proj2 restore_integrity_rejection)
                ascii_db no_random example_text CLASSIC [] false 32 (chr 33)) as H.
  cbv zeta in H.
  rewrite (redact_example ascii_db no_random) in H.
  apply H.
  - vm_compute. lia.
  - apply str_eqb_neq. vm_compute. reflexivity.
Defined.

(** ** Corrupt keys *)

Lemma bounds_check_spec (result : str) (item : restoration) :
  ((pos item <? 0) || (Z.of_nat (length result) <? pos item + len item))%Z = true
  <-> out_of_bounds result item.
Proof.
  unfold out_of_bounds. rewrite orb_true_iff, !Z.ltb_lt. reflexivity.
Qed.

Lemma restore_loop_app (result : str) (done rest : list restoration) :
  restore_loop result (done ++ rest)
  = match restore_loop result done with
    | Return current => restore_loop current rest
    | Raise e => Raise e
    end.
Proof.
  revert result. induction done as [|item done IH]; intros result; simpl.
  - reflexivity.
  - destruct ((pos item <? 0)
              || (Z.of_nat (length result) <? pos item + len item))%Z;
      [reflexivity|apply IH].
Qed.

Lemma restore_loop_raises (result : str) (items : list restoration) (e : exception) :
  restore_loop result items = Raise e ->
  exists done item rest current,
    items = done ++ item :: rest /\
    restore_loop result done = Return current /\
    out_of_bounds current item /\ e = CorruptKey (pos item).
Proof.
  revert result. induction items as [|item items IH]; intros result; simpl.
  - discriminate.
  - destruct ((pos item <? 0)
              || (Z.of_nat (length result) <? pos item + len item))%Z eqn:E.
    + intros [= <-]. exists [], item, items, result.
      repeat split; auto. now apply bounds_check_spec.
    + intros H. destruct (IH _ H) as (done & it & rest & cur & H1 & H2 & H3 & H4).
      exists (item :: done), it, rest, cur. repeat split; auto.
      * simpl. now rewrite H1.
      * simpl. now rewrite E.
Qed.

Lemma restore_loop_first_violation (result current : str)
      (done rest : list restoration) (item : restoration) :
  restore_loop result done = Return current ->
  out_of_bounds current item ->
  restore_loop result (done ++ item :: rest) = Raise (CorruptKey (pos item)).
Proof.
  intros Hdone Hout. rewrite restore_loop_app, Hdone. simpl.
  apply bounds_check_spec in Hout. now rewrite Hout.
Qed.

(** The record processed first has the largest position. *)
Lemma sorted_descending_head (items : list restoration) (r : restoration) :
  In r items ->
  exists first rest,
    list_sort pos true items = first :: rest /\ In first items /\
    (pos r <= pos first)%Z.
Proof.
  intros Hin.
  pose proof (list_sort_strongly_sorted pos true items) as Hs.
  pose proof (list_sort_perm pos true items) as Hp.
  assert (Hin' : In r (list_sort pos true items))
    by (eapply Permutation_in; [symmetry; exact Hp|exact Hin]).
  destruct (list_sort pos true items) as [|first rest]; [contradiction|].
  exists first, rest. repeat split.
  - eapply Permutation_in; [exact Hp|now left].
  - destruct Hin' as [->|Hr]; [lia|].
    inversion Hs as [|? ? _ Hall]; subst. rewrite Forall_forall in Hall.
    specialize (Hall _ Hr). unfold in_order, goes_before in Hall.
    now apply Z.leb_le in Hall.
Qed.

(** C3, counterexample.  With the text "ab" the record at position 0 with
    length 4 lies outside the supplied text, yet [restore] raises nothing:
    the record at position 1 is applied first and lengthens the text. *)
Lemma bounds_checked_against_input_fails :
  ~ bounds_checked_against_input (lit "ab") shielded_key.
Proof.
  intros H. destruct H as [index H].
  - vm_compute. reflexivity.
  - apply Exists_cons_tl, Exists_cons_hd. right. vm_compute. reflexivity.
  - vm_compute in H. discriminate H.
Qed.

(** C3, amended.  Past the hash check [restore] takes the records in
    descending position order and checks each against the current text,
    the supplied text with the records before it applied: the first record
    with a negative position or with [position + replacement_length] beyond
    the current text raises the corrupt-key error carrying that position,
    and no other error is raised.  When no replacement length is negative,
    a record positioned beyond the end of the supplied text makes [restore]
    raise that error. *)
Theorem restore_bounds_check (redacted_text : str) (key : key_data) :
  hash key = sha256_hex redacted_text ->
  let sorted := list_sort pos true (restorations key) in
  (forall done item rest current,
      sorted = done ++ item :: rest ->
      restore_loop redacted_text done = Return current ->
      out_of_bounds current item ->
      snd (restore redacted_text key) = Raise (CorruptKey (pos item))) /\
  (forall e,
      snd (restore redacted_text key) = Raise e ->
      exists done item rest current,
        sorted = done ++ item :: rest /\
        restore_loop redacted_text done = Return current /\
        out_of_bounds current item /\ e = CorruptKey (pos item)) /\
  (Forall (fun r => (0 <= len r)%Z) (restorations key) ->
   Exists (fun r => (Z.of_nat (length redacted_text) < pos r)%Z) (restorations key) ->
   exists index,
     (Z.of_nat (length redacted_text) < index)%Z /\
     snd (restore redacted_text key) = Raise (CorruptKey index)).
Proof.
  intros Hhash sorted. rewrite (restore_matching _ _ Hhash). cbn [snd].
  fold sorted. repeat split.
  - intros done item rest current -> Hdone Hout.
    now apply restore_loop_first_violation with (current := current).
  - intros e. apply restore_loop_raises.
  - intros Hlen Hex. apply Exists_exists in Hex as (r & Hr & Hpos).
    destruct (sorted_descending_head _ _ Hr) as (first & rest & Hs & Hin & Hle).
    exists (pos first). split; [lia|].
    unfold sorted. rewrite Hs.
    apply (@restore_loop_first_violation _ redacted_text [] rest first);
      [reflexivity|].
    rewrite Forall_forall in Hlen. specialize (Hlen _ Hin).
    right. lia.
Qed.

Lemma beyond_end_key_hash : hash beyond_end_key = sha256_hex (lit "ab").
Proof. vm_compute. reflexivity. Qed.

Lemma restore_bounds_check_witness :
  exists index,
    (Z.of_nat (length (lit "ab")) < index)%Z /\
    snd (restore (lit "ab") beyond_end_key) = Raise (CorruptKey index).
Proof.
  apply (proj2 (proj2 (restore_bounds_check (lit "ab") beyond_end_key
                         beyond_end_key_hash))).
  - repeat constructor; vm_compute; discriminate.
  - apply Exists_cons_tl, Exists_cons_hd. vm_compute. reflexivity.
Defined.

(** ** Storage order of the records *)

(** C5, counterexample.  Two records at position 0 of the text "ab": the
    sort keeps records of equal position in their stored order, and that
    order decides between "YXb" and "Xab". *)
Lemma storage_order_irrelevant_fails :
  ~ storage_order_irrelevant (lit "ab") tied_key.
Proof.
  intros H.
  specialize (H [Restoration 0 (lit "Y") 0; Restoration 0 (lit "X") 1]
                (perm_swap _ _ _)).
  vm_compute in H. discriminate H.
Qed.

(** C5, amended.  When the records of the key have pairwise distinct
    positions, restoring with any permutation of them gives the same
    outcome, text or error, and leaves the same key behind once the hash
    check has passed.  The keys that [redact] returns have pairwise
    distinct positions. *)
Theorem restore_order_independent :
  (forall (redacted_text : str) (key : key_data) (records : list restoration),
      NoDup (map pos (restorations key)) ->
      Permutation (restorations key) records ->
      snd (restore redacted_text (KeyData (version key) (hash key) records))
      = snd (restore redacted_text key)
      /\ (hash key = sha256_hex redacted_text ->
          restore redacted_text (KeyData (version key) (hash key) records)
          = restore redacted_text key)) /\
  (forall U rnd T style custom_words redact_caps,
      NoDup (map pos (restorations
                        (snd (redact U rnd T style custom_words redact_caps))))).
Proof.
  split; [|apply redact_positions_distinct].
  intros redacted_text key records Hnd Hperm.
  pose proof (list_sort_permutation pos true Hperm Hnd) as Hsort.
  assert (Hmatch : hash key = sha256_hex redacted_text ->
                   restore redacted_text (KeyData (version key) (hash key) records)
                   = restore redacted_text key).
  { intros Hhash. rewrite !restore_matching by exact Hhash.
    cbn [version hash restorations]. now rewrite Hsort. }
  split; [|exact Hmatch].
  destruct (str_eqb (sha256_hex redacted_text) (hash key)) eqn:E.
  - apply str_eqb_eq in E. now rewrite Hmatch.
  - apply str_eqb_neq in E. rewrite !restore_mismatch; auto.
Qed.

Lemma restore_order_independent_witness :
  snd (restore example_redacted
         (KeyData (version example_key) (hash example_key)
                  (rev (restorations example_key))))
  = snd (restore example_redacted example_key).
Proof.
  apply (proj1 restore_order_independent).
  - vm_compute. repeat constructor; simpl; intuition discriminate.
  - vm_compute. apply perm_swap.
Defined.

(** ** Substitute tokens *)

Lemma noise_is_not_blackout : str_eqb VECTURE_NOISE BLACKOUT = false.
Proof. vm_compute. reflexivity. Qed.

Lemma classic_is_not_blackout : str_eqb CLASSIC BLACKOUT = false.
Proof. vm_compute. reflexivity. Qed.

Lemma classic_is_not_noise : str_eqb CLASSIC VECTURE_NOISE = false.
Proof. vm_compute. reflexivity. Qed.

Lemma noise_chars_length : length noise_chars = 11.
Proof. vm_compute. reflexivity. Qed.

Lemma str_eqb_false (s t : str) : s <> t -> str_eqb s t = false.
Proof.
  intros H. destruct (str_eqb s t) eqn:E; [|reflexivity].
  apply str_eqb_eq in E. contradiction.
Qed.

Lemma random_choice_in (rnd : nat -> nat) (n : nat) :
  In (random_choice rnd n noise_chars) noise_chars.
Proof.
  unfold random_choice. apply nth_In. rewrite noise_chars_length.
  apply Nat.mod_upper_bound. discriminate.
Qed.

Lemma replacement_for_classic (rnd : nat -> nat) (draws : nat) (style original : str) :
  style <> BLACKOUT -> style <> VECTURE_NOISE ->
  replacement_for rnd draws style original = (redacted_token, draws).
Proof.
  intros H1 H2. unfold replacement_for.
  now rewrite (str_eqb_false H1), (str_eqb_false H2).
Qed.

Lemma replacement_for_ok (rnd : nat -> nat) (draws : nat) (style original : str) :
  substitute_ok style original (fst (replacement_for rnd draws style original)).
Proof.
  unfold substitute_ok. repeat split.
  - intros ->. unfold replacement_for. now rewrite str_eqb_refl.
  - subst. unfold replacement_for.
    rewrite noise_is_not_blackout, str_eqb_refl. cbn [fst].
    now rewrite length_map, length_seq.
  - subst. unfold replacement_for.
    rewrite noise_is_not_blackout, str_eqb_refl. cbn [fst].
    apply Forall_forall. intros c Hc. apply in_map_iff in Hc as (j & <- & _).
    apply random_choice_in.
  - intros H1 H2. now rewrite replacement_for_classic.
Qed.

Section Tokens.

Variable rnd : nat -> nat.
Variable T : str.
Variable style : str.

Lemma token_recorded_extend (redacted more : str) (r : restoration) :
  token_recorded style redacted r -> token_recorded style (redacted ++ more) r.
Proof.
  intros (pre & tok & post & -> & H1 & H2 & H3).
  exists pre, tok, (post ++ more).
  split; [now rewrite <- !app_assoc|auto].
Qed.

Lemma redact_step_tokens (st : redact_state) (m : span) :
  tokens_inv style st ->
  tokens_inv style (redact_step T style rnd st m) /\
  map text (key_restorations (redact_step T style rnd st m))
  = map text (key_restorations st) ++ [m_text m].
Proof.
  intros Hinv. unfold redact_step.
  pose proof (replacement_for_ok rnd (rnd_draws st) style (m_text m)) as Hok.
  destruct (replacement_for rnd (rnd_draws st) style (m_text m))
    as [replacement draws].
  cbn [fst] in Hok. unfold tokens_inv. cbn [result_text key_restorations].
  set (gap := slice (current_idx st) (m_start m) T).
  assert (E1 : concat (result_text st ++ [gap]) = concat (result_text st) ++ gap)
    by apply concat_snoc.
  assert (E2 : concat ((result_text st ++ [gap]) ++ [replacement])
               = (concat (result_text st) ++ gap) ++ replacement)
    by (rewrite <- E1; apply concat_snoc).
  rewrite list_sum_lengths, E1, E2. split.
  - apply Forall_app. split.
    + eapply Forall_impl; [|exact Hinv]. intros r Hr.
      rewrite <- app_assoc. now apply token_recorded_extend.
    + constructor; [|constructor].
      exists (concat (result_text st) ++ gap), replacement, [].
      split; [now rewrite app_nil_r|auto].
  - now rewrite map_app.
Qed.

Lemma redact_loop_tokens (ms : list span) (st : redact_state) :
  tokens_inv style st ->
  tokens_inv style (fold_left (redact_step T style rnd) ms st) /\
  map text (key_restorations (fold_left (redact_step T style rnd) ms st))
  = map text (key_restorations st) ++ map m_text ms.
Proof.
  revert st. induction ms as [|m ms IH]; intros st Hinv; simpl.
  - split; [exact Hinv|now rewrite app_nil_r].
  - destruct (redact_step_tokens m Hinv) as [H1 H2].
    destruct (IH _ H1) as [H3 H4]. split; [exact H3|].
    now rewrite H4, H2, <- app_assoc.
Qed.

End Tokens.

Lemma redact_tokens U rnd T style custom_words redact_caps :
  Forall (token_recorded style (fst (redact U rnd T style custom_words redact_caps)))
         (restorations (snd (redact U rnd T style custom_words redact_caps)))
  /\ map text (restorations (snd (redact U rnd T style custom_words redact_caps)))
     = map m_text (find_matches U T custom_words redact_caps).
Proof.
  rewrite redact_restorations, redact_text. cbv zeta.
  destruct (@redact_loop_tokens rnd T style
              (find_matches U T custom_words redact_caps) (RedactState [] [] 0 0))
    as [H1 H2]; [constructor|].
  split; [|exact H2].
  eapply Forall_impl; [|exact H1]. intros r Hr.
  now apply token_recorded_extend.
Qed.

(** C8.  The records of the key are those of the resolved spans, in order,
    and each one describes a token of the redacted text: the token starts
    at the recorded position, the recorded length is the length of the
    token, and the token is the block character repeated [len(original)]
    times under BLACKOUT, [len(original)] characters of the noise alphabet
    under VECTURE_NOISE, and the literal "[REDACTED]" otherwise. *)
Theorem style_length_invariants (U : unicode_db) (rnd : nat -> nat)
        (T style : str) (custom_words : list str) (redact_caps : bool) :
  let redacted := fst (redact U rnd T style custom_words redact_caps) in
  let key := snd (redact U rnd T style custom_words redact_caps) in
  map text (restorations key) = map m_text (find_matches U T custom_words redact_caps)
  /\ Forall (fun r =>
       exists pre tok post,
         redacted = pre ++ tok ++ post /\
         pos r = Z.of_nat (length pre) /\
         len r = Z.of_nat (length tok) /\
         (style = BLACKOUT -> tok = repeat block_char (length (text r))) /\
         (style = VECTURE_NOISE ->
          length tok = length (text r) /\ Forall (fun c => In c noise_chars) tok) /\
         (style <> BLACKOUT -> style <> VECTURE_NOISE -> tok = lit "[REDACTED]"))
       (restorations key).
Proof.
  intros redacted key.
  destruct (redact_tokens U rnd T style custom_words redact_caps) as [H1 H2].
  split; [exact H2|exact H1].
Qed.

Lemma style_length_invariants_witness :
  Forall (fun r =>
    exists pre tok post,
      fst (redact ascii_db no_random example_text BLACKOUT [] false)
      = pre ++ tok ++ post /\
      pos r = Z.of_nat (length pre) /\
      len r = Z.of_nat (length tok) /\
      tok = repeat block_char (length (text r)))
    (restorations (snd (redact ascii_db no_random example_text BLACKOUT [] false))).
Proof.
  eapply Forall_impl;
    [|exact (proj2 (style_length_invariants ascii_db no_random example_text
                      BLACKOUT [] false))].
  intros r (pre & tok & post & H1 & H2 & H3 & H4 & _).
  exists pre, tok, post. repeat split; auto.
Defined.

Lemma redact_loop_classic_text (rnd : nat -> nat) (T style : str)
      (ms : list span) :
  style <> BLACKOUT -> style <> VECTURE_NOISE ->
  forall st,
    let st' := fold_left (redact_step T style rnd) ms st in
    concat (result_text st') ++ skipn (current_idx st') T
    = concat (result_text st)
      ++ substitute_spans redacted_token T (current_idx st) ms.
Proof.
  intros H1 H2. induction ms as [|m ms IH]; intros st; [reflexivity|].
  cbn [fold_left substitute_spans]. cbv zeta in IH. rewrite IH.
  unfold redact_step, replacement_for.
  rewrite (str_eqb_false H1), (str_eqb_false H2).
  cbn [result_text current_idx].
  rewrite !concat_app. cbn [concat]. rewrite !app_nil_r.
  now rewrite <- !app_assoc.
Qed.

(** C10.  With a style that is neither "BLACKOUT" nor "VECTURE_NOISE",
    whatever string it is, [redact] returns what it returns for "CLASSIC":
    a text and a key (it has no failing path).  The text is the original
    with the literal "[REDACTED]" in place of every resolved span and
    nothing else changed, and the key has one record for each resolved
    span, in order, holding the text of the span, the position of its
    token in the redacted text and the length 10. *)
Theorem unknown_style_is_classic (U : unicode_db) (rnd : nat -> nat)
        (T style : str) (custom_words : list str) (redact_caps : bool) :
  style <> BLACKOUT -> style <> VECTURE_NOISE ->
  let redacted := fst (redact U rnd T style custom_words redact_caps) in
  let key := snd (redact U rnd T style custom_words redact_caps) in
  let matches := find_matches U T custom_words redact_caps in
  redact U rnd T style custom_words redact_caps
  = redact U rnd T CLASSIC custom_words redact_caps
  /\ redacted = substitute_spans (lit "[REDACTED]") T 0 matches
  /\ map text (restorations key) = map m_text matches
  /\ Forall (fun r =>
       exists pre post,
         redacted = pre ++ lit "[REDACTED]" ++ post /\
         pos r = Z.of_nat (length pre) /\ len r = 10%Z)
       (restorations key).
Proof.
  intros H1 H2 redacted key matches. split; [|split; [|split]].
  - unfold redact, redact_loop.
    assert (E : forall ms st,
               fold_left (redact_step T style rnd) ms st
               = fold_left (redact_step T CLASSIC rnd) ms st).
    { induction ms as [|m ms IH]; intros st; simpl; [reflexivity|].
      rewrite IH. f_equal. unfold redact_step.
      rewrite (replacement_for_classic rnd (rnd_draws st) (m_text m) H1 H2).
      unfold replacement_for.
      now rewrite classic_is_not_blackout, classic_is_not_noise. }
    now rewrite E.
  - unfold redacted. rewrite redact_text. cbv zeta. unfold redact_loop.
    exact (@redact_loop_classic_text rnd T style matches H1 H2
             (RedactState [] [] 0 0)).
  - apply redact_tokens.
  - destruct (redact_tokens U rnd T style custom_words redact_caps) as [H _].
    eapply Forall_impl; [|exact H].
    intros r (pre & tok & post & E1 & E2 & E3 & _ & _ & E4).
    specialize (E4 H1 H2). subst tok.
    exists pre, post. repeat split; auto.
Qed.

Lemma unknown_style_is_classic_witness :
  redact ascii_db no_random example_text (lit "classic") [] false
  = redact ascii_db no_random example_text CLASSIC [] false
  /\ fst (redact ascii_db no_random example_text (lit "classic") [] false)
     = lit "Contact [REDACTED] on [REDACTED].".
Proof.
  destruct (@unknown_style_is_classic ascii_db no_random example_text
              (lit "classic") [] false) as (E1 & E2 & _).
  - apply str_eqb_neq. vm_compute. reflexivity.
  - apply str_eqb_neq. vm_compute. reflexivity.
  - split; [exact E1|]. rewrite E2. vm_compute. reflexivity.
Defined.

(** ** The key codec *)

Lemma startswith_app (p s : str) : startswith p (p ++ s) = true.
Proof.
  induction p as [|c p IH]; simpl; [reflexivity|].
  now rewrite uchar_eqb_refl.
Qed.

Lemma startswith_true (p s : str) :
  startswith p s = true -> exists s', s = p ++ s'.
Proof.
  revert s. induction p as [|c p IH]; intros s H; simpl in *.
  - now exists s.
  - destruct s as [|d s]; [discriminate|].
    apply andb_true_iff in H as [H1 H2]. apply uchar_eqb_eq in H1. subst d.
    destruct (IH _ H2) as [s' ->]. now exists s'.
Qed.

Lemma replace_from_skip (old new a s : str) :
  replace_from old new (length a) (a ++ s) = replace_from old new 0 s.
Proof.
  induction a as [|c a IH]; simpl; [reflexivity|exact IH].
Qed.

(** An occurrence at the head is replaced and the scan goes on after it. *)
Lemma str_replace_head (old new s : str) :
  old <> [] -> str_replace old new (old ++ s) = new ++ str_replace old new s.
Proof.
  intros Hne. unfold str_replace.
  pose proof (startswith_app old s) as Hp.
  destruct old as [|c old]; [congruence|].
  change ((c :: old) ++ s) with (c :: (old ++ s)) in *.
  cbn [replace_from]. rewrite Hp. f_equal.
  replace (length (c :: old) - 1) with (length old) by (simpl; lia).
  apply replace_from_skip.
Qed.

(** Without an occurrence nothing is replaced. *)
Lemma str_replace_absent (old new s : str) :
  ~ occurs old s -> str_replace old new s = s.
Proof.
  unfold str_replace. induction s as [|c s IH]; intros Hno; [reflexivity|].
  cbn [replace_from].
  destruct (startswith old (c :: s)) eqn:E.
  - exfalso. apply Hno. apply startswith_true in E as [s' ->].
    now exists [], s'.
  - f_equal. apply IH. intros (a & b & ->). apply Hno.
    now exists (c :: a), b.
Qed.

Lemma base64_has_no_marker (s : str) :
  Forall (fun c => b64_char c = true) s -> ~ occurs MARKER s.
Proof.
  intros Hall (a & b & ->).
  apply Forall_app in Hall as [_ Hall]. apply Forall_app in Hall as [Hall _].
  rewrite Forall_forall in Hall.
  assert (H : b64_char (chr 58) = true).
  { apply Hall. vm_compute. tauto. }
  vm_compute in H. discriminate H.
Qed.

Lemma json_of_restoration_inj (r r' : restoration) :
  json_of_restoration r = json_of_restoration r' -> r = r'.
Proof.
  destruct r, r'. unfold json_of_restoration. cbn [pos text len].
  intros [= -> -> ->]. reflexivity.
Qed.

Lemma json_of_key_inj (k k' : key_data) : json_of_key k = json_of_key k' -> k = k'.
Proof.
  destruct k as [v h rs], k' as [v' h' rs']. unfold json_of_key.
  cbn [version hash restorations]. intros [= -> -> H]. f_equal.
  revert rs' H. induction rs as [|r rs IH]; intros [|r' rs']; cbn [map];
    try easy.
  intros H.
  assert (H1 : json_of_restoration r = json_of_restoration r') by congruence.
  assert (H2 : map json_of_restoration rs = map json_of_restoration rs')
    by congruence.
  apply json_of_restoration_inj in H1. subst.
  f_equal. now apply IH.
Qed.

Section CodecFacts.

Variable json_dumps : option nat -> json -> str.
Variable json_loads : str -> loads_outcome.
Variable json_loads_bytes : bytes -> option json.
Variable zlib_compress : bytes -> bytes.
Variable zlib_decompress : bytes -> option bytes.
Variable b64encode : bytes -> str.
Variable b64decode : str -> option bytes.

#[local] Abbreviation pack := (obfuscate_key json_dumps zlib_compress b64encode).
#[local] Abbreviation unpack :=
  (deobfuscate_key json_loads json_loads_bytes zlib_decompress b64decode).
#[local] Abbreviation decode :=
  (decode_packed json_loads_bytes zlib_decompress b64decode).

Lemma deobfuscate_marked (rest : str) :
  unpack (MARKER ++ rest)
  = match decode (str_replace MARKER [] rest) with
    | Some j => Return j
    | None => Raise InvalidObfuscatedKey
    end.
Proof.
  unfold deobfuscate_key. rewrite startswith_app.
  rewrite str_replace_head by discriminate. reflexivity.
Qed.

Lemma deobfuscate_unmarked (key_content : str) :
  startswith MARKER key_content = false ->
  unpack key_content
  = match json_loads key_content with
    | Loaded j => Return j
    | JSONDecodeError => Raise InvalidKeyFile
    | OtherError class_name => Raise (Uncaught class_name)
    end.
Proof. intros H. unfold deobfuscate_key. now rewrite H. Qed.




End CodecFacts.


(** * Further properties *)

(** ** [restore] and the key it is given *)

Lemma list_sort_sorted_id {A} (key : A -> Z) (reverse : bool) (l : list A) :
  Sorted (in_order key reverse) l -> list_sort key reverse l = l.
Proof.
  induction 1 as [|x l Hs IH Hhd]; simpl; [reflexivity|].
  rewrite IH. destruct Hhd as [|y l Hxy]; simpl; [reflexivity|].
  unfold in_order in Hxy. now rewrite Hxy.
Qed.

Lemma list_sort_idempotent {A} (key : A -> Z) (reverse : bool) (l : list A) :
  list_sort key reverse (list_sort key reverse l) = list_sort key reverse l.
Proof. apply list_sort_sorted_id, list_sort_sorted. Qed.

(** X1.  Whatever the outcome, [restore] leaves a key with the same
    version and hash and the same records, only reordered; past the hash
    check they are in descending position order, and a second call with
    the key the first one left gives the same outcome and the same key. *)
Theorem restore_key_afterwards (redacted_text : str) (key : key_data) :
  let key' := fst (restore redacted_text key) in
  version key' = version key /\
  hash key' = hash key /\
  Permutation (restorations key') (restorations key) /\
  (hash key = sha256_hex redacted_text ->
   Sorted (fun a b => (pos b <= pos a)%Z) (restorations key')) /\
  restore redacted_text key' = restore redacted_text key.
Proof.
  cbv zeta.
  destruct (str_eqb (sha256_hex redacted_text) (hash key)) eqn:E.
  - apply str_eqb_eq in E. symmetry in E.
    rewrite (restore_matching _ _ E). cbn [fst version hash restorations].
    repeat split.
    + apply list_sort_perm.
    + intros _. pose proof (list_sort_sorted pos true (restorations key)) as Hs.
      induction Hs as [|a l Hs IH Hhd]; constructor; auto.
      destruct Hhd as [|b l Hab]; constructor.
      unfold in_order, goes_before in Hab. now apply Z.leb_le in Hab.
    + rewrite restore_matching by exact E.
      cbn [version hash restorations]. now rewrite list_sort_idempotent.
  - apply str_eqb_neq in E.
    rewrite restore_mismatch by congruence. cbn [fst].
    refine (conj eq_refl (conj eq_refl (conj (Permutation_refl _) (conj _ _)))).
    + intros H. congruence.
    + apply restore_mismatch. congruence.
Qed.

Lemma restore_key_afterwards_witness :
  Sorted (fun a b => (pos b <= pos a)%Z)
         (restorations (fst (restore example_redacted example_key))).
Proof.
  apply (proj1 (proj2 (proj2 (proj2
           (restore_key_afterwards example_redacted example_key))))).
  vm_compute. reflexivity.
Defined.

Lemma total_growth_app (a b : list restoration) :
  total_growth (a ++ b) = (total_growth a + total_growth b)%Z.
Proof.
  induction a as [|r a IH]; simpl; [reflexivity|]. rewrite IH. lia.
Qed.

Lemma total_growth_perm (a b : list restoration) :
  Permutation a b -> total_growth a = total_growth b.
Proof.
  induction 1; simpl; lia.
Qed.

Lemma restore_step_length (result : str) (item : restoration) :
  (0 <= pos item)%Z -> (0 <= len item)%Z ->
  (pos item + len item <= Z.of_nat (length result))%Z ->
  Z.of_nat (length (slice_to (pos item) result ++ text item
                    ++ slice_from (pos item + len item) result))
  = (Z.of_nat (length result) + growth item)%Z.
Proof.
  intros Hp Hl Hb. unfold slice_to, slice_from, py_index, growth.
  destruct (pos item <? 0)%Z eqn:E1; [apply Z.ltb_lt in E1; lia|].
  destruct (pos item + len item <? 0)%Z eqn:E2; [apply Z.ltb_lt in E2; lia|].
  rewrite !length_app, length_firstn, length_skipn. lia.
Qed.

Lemma restore_loop_length (items : list restoration) :
  Forall (fun r => (0 <= len r)%Z) items ->
  forall result restored,
    restore_loop result items = Return restored ->
    Z.of_nat (length restored)
    = (Z.of_nat (length result) + total_growth items)%Z.
Proof.
  induction 1 as [|item items Hl Hrest IH]; intros result restored; simpl.
  - intros [= <-]. lia.
  - destruct ((pos item <? 0)
              || (Z.of_nat (length result) <? pos item + len item))%Z eqn:E;
      [discriminate|].
    apply orb_false_iff in E as [E1 E2].
    apply Z.ltb_ge in E1, E2.
    intros H. apply IH in H. rewrite H, restore_step_length by lia. lia.
Qed.

(** X2.  When no replacement length of the key is negative, a successful
    [restore] returns a text whose length is that of the redacted text
    plus, for each record, the length of its original text minus its
    replacement length. *)
Theorem restore_length (redacted_text restored : str) (key : key_data) :
  Forall (fun r => (0 <= len r)%Z) (restorations key) ->
  snd (restore redacted_text key) = Return restored ->
  Z.of_nat (length restored)
  = (Z.of_nat (length redacted_text) + total_growth (restorations key))%Z.
Proof.
  intros Hlen H.
  destruct (str_eqb (sha256_hex redacted_text) (hash key)) eqn:E.
  - apply str_eqb_eq in E. symmetry in E.
    rewrite (restore_matching _ _ E) in H. cbn [snd] in H.
    apply restore_loop_length in H.
    + rewrite H. f_equal. apply total_growth_perm, list_sort_perm.
    + eapply Permutation_Forall; [|exact Hlen].
      symmetry. apply list_sort_perm.
  - apply str_eqb_neq in E. rewrite restore_mismatch in H by congruence.
    discriminate H.
Qed.

Lemma restore_length_witness :
  Z.of_nat (length example_text)
  = (Z.of_nat (length example_redacted)
     + total_growth (restorations example_key))%Z.
Proof.
  apply (@restore_length example_redacted example_text example_key).
  - repeat constructor; vm_compute; discriminate.
  - vm_compute. reflexivity.
Defined.

Lemma restore_step_prefix (result : str) (item : restoration) (n : nat) :
  (Z.of_nat n <= pos item)%Z -> (0 <= len item)%Z ->
  (pos item + len item <= Z.of_nat (length result))%Z ->
  firstn n (slice_to (pos item) result ++ text item
            ++ slice_from (pos item + len item) result)
  = firstn n result.
Proof.
  intros Hn Hl Hb. unfold slice_to, py_index.
  destruct (pos item <? 0)%Z eqn:E1; [apply Z.ltb_lt in E1; lia|].
  rewrite firstn_app, length_firstn.
  replace (n - Nat.min (Z.to_nat (pos item)) (length result)) with 0 by lia.
  rewrite firstn_0, app_nil_r, firstn_firstn. f_equal. lia.
Qed.

Lemma restore_loop_prefix (items : list restoration) (n : nat) :
  Forall (fun r => (0 <= len r)%Z /\ (Z.of_nat n <= pos r)%Z) items ->
  forall result restored,
    restore_loop result items = Return restored ->
    firstn n restored = firstn n result.
Proof.
  induction 1 as [|item items [Hl Hn] Hrest IH]; intros result restored; simpl.
  - now intros [= <-].
  - destruct ((pos item <? 0)
              || (Z.of_nat (length result) <? pos item + len item))%Z eqn:E;
      [discriminate|].
    apply orb_false_iff in E as [E1 E2]. apply Z.ltb_ge in E1, E2.
    intros H. apply IH in H. rewrite H. now apply restore_step_prefix.
Qed.

(** X3.  When no replacement length is negative, a successful [restore]
    leaves the text before the smallest recorded position as it was: the
    first [n] characters are unchanged whenever every record is at
    position [n] or later. *)
Theorem restore_keeps_prefix (redacted_text restored : str) (key : key_data)
        (n : nat) :
  Forall (fun r => (0 <= len r)%Z /\ (Z.of_nat n <= pos r)%Z) (restorations key) ->
  snd (restore redacted_text key) = Return restored ->
  firstn n restored = firstn n redacted_text.
Proof.
  intros Hall H.
  destruct (str_eqb (sha256_hex redacted_text) (hash key)) eqn:E.
  - apply str_eqb_eq in E. symmetry in E.
    rewrite (restore_matching _ _ E) in H. cbn [snd] in H.
    eapply restore_loop_prefix; [|exact H].
    eapply Permutation_Forall; [|exact Hall]. symmetry. apply list_sort_perm.
  - apply str_eqb_neq in E. rewrite restore_mismatch in H by congruence.
    discriminate H.
Qed.

Lemma restore_keeps_prefix_witness :
  firstn 8 example_text = firstn 8 example_redacted.
Proof.
  apply (@restore_keeps_prefix example_redacted example_text example_key 8).
  - repeat constructor; vm_compute; discriminate.
  - vm_compute. reflexivity.
Defined.

(** A record whose original text is as long as its token is restored in
    place: the step changes nothing outside the window of the record. *)
Lemma restore_step_window (result : str) (item : restoration) (i : nat) :
  (0 <= pos item)%Z -> Z.of_nat (length (text item)) = len item ->
  (pos item + len item <= Z.of_nat (length result))%Z ->
  let next := slice_to (pos item) result ++ text item
              ++ slice_from (pos item + len item) result in
  length next = length result /\
  (~ in_window item i -> nth_error next i = nth_error result i) /\
  (in_window item i ->
   nth_error next i = nth_error (text item) (i - Z.to_nat (pos item))).
Proof.
  intros Hp Hl Hb next. unfold in_window.
  assert (Hnext : next = firstn (Z.to_nat (pos item)) result ++ text item
                         ++ skipn (Z.to_nat (pos item) + length (text item)) result).
  { unfold next, slice_to, slice_from, py_index.
    destruct (pos item <? 0)%Z eqn:E1; [apply Z.ltb_lt in E1; lia|].
    destruct (pos item + len item <? 0)%Z eqn:E2; [apply Z.ltb_lt in E2; lia|].
    do 3 f_equal. lia. }
  set (p := Z.to_nat (pos item)) in *. set (l := length (text item)) in *.
  assert (Hpl : p + l <= length result) by lia.
  assert (Hf : length (firstn p result) = p) by (rewrite length_firstn; lia).
  rewrite Hnext. split; [|split].
  - rewrite !length_app, Hf, length_skipn. fold l. lia.
  - intros Hout. destruct (Nat.lt_ge_cases i p) as [Hlt|Hge].
    + rewrite nth_error_app1 by lia. rewrite nth_error_firstn.
      apply Nat.ltb_lt in Hlt. now rewrite Hlt.
    + assert (p + l <= i) by lia.
      rewrite nth_error_app2 by lia. rewrite Hf.
      rewrite nth_error_app2 by (fold l; lia). fold l.
      rewrite nth_error_skipn. f_equal. lia.
  - intros Hin. rewrite nth_error_app2 by lia. rewrite Hf.
    apply nth_error_app1. fold l. lia.
Qed.

Lemma restore_loop_windows (items : list restoration) :
  Forall (fun r => Z.of_nat (length (text r)) = len r) items ->
  forall result restored,
    restore_loop result items = Return restored ->
    length restored = length result /\
    forall i, (forall r, In r items -> ~ in_window r i) ->
              nth_error restored i = nth_error result i.
Proof.
  induction 1 as [|item items Hl Hrest IH]; intros result restored; simpl.
  - intros [= <-]. auto.
  - destruct ((pos item <? 0)
              || (Z.of_nat (length result) <? pos item + len item))%Z eqn:E;
      [discriminate|].
    apply orb_false_iff in E as [E1 E2]. apply Z.ltb_ge in E1, E2.
    intros H. apply IH in H as [H1 H2].
    destruct (@restore_step_window result item 0 E1 Hl E2) as (Hlen & _ & _).
    split; [congruence|].
    intros i Hout. rewrite H2 by (intros r Hr; apply Hout; now right).
    apply (@restore_step_window result item i E1 Hl E2).
    apply Hout. now left.
Qed.

(** X4.  With a key whose records each have an original text as long as
    the token it replaces, a successful [restore] returns a text of the
    length of the redacted text that differs from it only inside the
    recorded windows [position, position + length). *)
Theorem restore_in_place (redacted_text restored : str) (key : key_data) :
  Forall (fun r => Z.of_nat (length (text r)) = len r) (restorations key) ->
  snd (restore redacted_text key) = Return restored ->
  length restored = length redacted_text /\
  forall i, (forall r, In r (restorations key) -> ~ in_window r i) ->
            nth_error restored i = nth_error redacted_text i.
Proof.
  intros Hall H.
  destruct (str_eqb (sha256_hex redacted_text) (hash key)) eqn:E.
  - apply str_eqb_eq in E. symmetry in E.
    rewrite (restore_matching _ _ E) in H. cbn [snd] in H.
    apply restore_loop_windows in H.
    + destruct H as [H1 H2]. split; [exact H1|].
      intros i Hout. apply H2. intros r Hr. apply Hout.
      eapply Permutation_in; [apply list_sort_perm|exact Hr].
    + eapply Permutation_Forall; [|exact Hall]. symmetry. apply list_sort_perm.
  - apply str_eqb_neq in E. rewrite restore_mismatch in H by congruence.
    discriminate H.
Qed.

Lemma restore_in_place_witness :
  length (lit "abcd") = length (lit "a##d") /\
  forall i, (forall r, In r (restorations in_place_key) -> ~ in_window r i) ->
            nth_error (lit "abcd") i = nth_error (lit "a##d") i.
Proof.
  apply (@restore_in_place (lit "a##d") (lit "abcd") in_place_key).
  - repeat constructor.
  - vm_compute. reflexivity.
Defined.

(** ** The text and the key that [redact] returns *)

Section Accounting.

Variable rnd : nat -> nat.
Variable T : str.
Variable style : str.

Lemma redact_loop_accounting (ms : list span) :
  forall st,
    Forall (valid_span T) ms -> Sorted ends_before ms ->
    starts_at_or_after (current_idx st) ms -> current_idx st <= length T ->
    let st' := fold_left (redact_step T style rnd) ms st in
    let shift := (Z.of_nat (length (concat (result_text st)))
                  - Z.of_nat (current_idx st))%Z in
    exists rs,
      key_restorations st' = key_restorations st ++ rs /\
      positions_shifted shift ms rs /\
      current_idx st' <= length T /\
      (Z.of_nat (length (concat (result_text st'))) - Z.of_nat (current_idx st'))%Z
      = (shift - total_growth rs)%Z.
Proof.
  induction ms as [|m ms IH]; intros st Hvalid Hsorted Hfirst Hidx; cbv zeta.
  - exists []. simpl. rewrite app_nil_r. repeat split; auto; lia.
  - inversion Hvalid as [|? ? (Hne & Hend & Htext) Hms]; subst.
    inversion Hsorted as [|? ? Hs Hhd]; subst.
    simpl in Hfirst. cbn [fold_left].
    set (st1 := redact_step T style rnd st m).
    assert (Hst1 : exists replacement : str,
               key_restorations st1
               = key_restorations st
                 ++ [Restoration
                       (Z.of_nat (length (concat (result_text st))
                                  + (m_start m - current_idx st)))
                       (m_text m) (Z.of_nat (length replacement))] /\
               current_idx st1 = m_end m /\
               length (concat (result_text st1))
               = length (concat (result_text st))
                 + (m_start m - current_idx st) + length replacement).
    { unfold st1, redact_step.
      destruct (replacement_for rnd (rnd_draws st) style (m_text m))
        as [replacement draws].
      exists replacement. cbn [key_restorations current_idx result_text].
      set (gap := slice (current_idx st) (m_start m) T).
      assert (E1 : concat (result_text st ++ [gap])
                   = concat (result_text st) ++ gap) by apply concat_snoc.
      assert (E2 : concat ((result_text st ++ [gap]) ++ [replacement])
                   = (concat (result_text st) ++ gap) ++ replacement)
        by (rewrite <- E1; apply concat_snoc).
      assert (Hgap : length gap = m_start m - current_idx st)
        by (apply slice_length; lia).
      rewrite list_sum_lengths, E1, E2, !length_app, Hgap. auto. }
    destruct Hst1 as (replacement & Hrs & Hidx1 & Hout1).
    destruct (IH st1) as (rs & H1 & H2 & H3 & H4); auto.
    { rewrite Hidx1. destruct ms as [|m' ms]; simpl; [exact I|].
      now inversion Hhd. }
    { rewrite Hidx1. exact Hend. }
    assert (Hlen : length (m_text m) = m_end m - m_start m).
    { rewrite Htext. apply slice_length; lia. }
    set (r := Restoration
                (Z.of_nat (length (concat (result_text st))
                           + (m_start m - current_idx st)))
                (m_text m) (Z.of_nat (length replacement))) in *.
    assert (Hshift : (Z.of_nat (length (concat (result_text st1)))
                      - Z.of_nat (current_idx st1))%Z
                     = (Z.of_nat (length (concat (result_text st)))
                        - Z.of_nat (current_idx st) - growth r)%Z).
    { rewrite Hout1, Hidx1. unfold growth, r. cbn [text len]. lia. }
    exists (r :: rs). split; [|split; [|split]].
    + rewrite H1, Hrs, <- app_assoc. reflexivity.
    + cbn [positions_shifted]. split; [|split].
      * unfold r. cbn [pos]. lia.
      * reflexivity.
      * now rewrite <- Hshift.
    + exact H3.
    + rewrite H4, Hshift. cbn [total_growth fold_right]. fold (total_growth rs).
      lia.
Qed.

End Accounting.

Lemma redact_accounting U rnd T style custom_words redact_caps :
  positions_shifted 0 (find_matches U T custom_words redact_caps)
    (restorations (snd (redact U rnd T style custom_words redact_caps)))
  /\ Z.of_nat (length (fst (redact U rnd T style custom_words redact_caps)))
     = (Z.of_nat (length T)
        - total_growth
            (restorations (snd (redact U rnd T style custom_words redact_caps))))%Z.
Proof.
  rewrite redact_restorations, redact_text. cbv zeta.
  destruct (find_matches_spans U T custom_words redact_caps) as [Hv Hs].
  destruct (@redact_loop_accounting rnd T style
              (find_matches U T custom_words redact_caps)
              (RedactState [] [] 0 0) Hv Hs) as (rs & H1 & H2 & H3 & H4).
  - simpl. destruct (find_matches U T custom_words redact_caps); simpl;
      [exact I|lia].
  - simpl. lia.
  - fold (redact_loop T style rnd (find_matches U T custom_words redact_caps)) in *.
    simpl in H1, H2, H4. rewrite H1. split; [exact H2|].
    rewrite length_app, length_skipn. lia.
Qed.

Lemma substitute_ok_length (style original tok : str) :
  substitute_ok style original tok -> length tok = token_length style original.
Proof.
  intros (H1 & H2 & H3). unfold token_length.
  destruct (str_eqb style BLACKOUT) eqn:E1.
  - apply str_eqb_eq in E1. rewrite (H1 E1). apply repeat_length.
  - destruct (str_eqb style VECTURE_NOISE) eqn:E2.
    + apply str_eqb_eq in E2. apply (H2 E2).
    + apply str_eqb_neq in E1, E2. rewrite (H3 E1 E2). reflexivity.
Qed.

Lemma positions_shifted_records (style : str) (ms : list span) :
  forall shift rs,
    positions_shifted shift ms rs ->
    Forall (fun r => len r = Z.of_nat (token_length style (text r))) rs ->
    rs = expected_records style shift ms.
Proof.
  induction ms as [|m ms IH]; intros shift [|r rs] Hp Hl; simpl in Hp;
    try contradiction; [reflexivity|].
  destruct Hp as (Hpos & Htext & Hrest). inversion Hl as [|? ? Hr Hrs]; subst.
  cbn [expected_records]. destruct r as [p t l]. cbn [pos text len] in *.
  subst p t l. f_equal. apply IH; [|exact Hrs].
  unfold growth in Hrest. cbn [text len] in Hrest.
  replace (shift + Z.of_nat (token_length style (m_text m))
           - Z.of_nat (length (m_text m)))%Z
    with (shift - (Z.of_nat (length (m_text m))
                   - Z.of_nat (token_length style (m_text m))))%Z by lia.
  exact Hrest.
Qed.

Lemma redact_token_lengths U rnd T style custom_words redact_caps :
  Forall (fun r => len r = Z.of_nat (token_length style (text r)))
         (restorations (snd (redact U rnd T style custom_words redact_caps))).
Proof.
  destruct (redact_tokens U rnd T style custom_words redact_caps) as [H _].
  eapply Forall_impl; [|exact H].
  intros r (pre & tok & post & _ & _ & Hlen & Hok).
  rewrite Hlen. f_equal. now apply substitute_ok_length.
Qed.

Lemma redact_expected_records U rnd T style custom_words redact_caps :
  restorations (snd (redact U rnd T style custom_words redact_caps))
  = expected_records style 0 (find_matches U T custom_words redact_caps).
Proof.
  apply positions_shifted_records.
  - apply redact_accounting.
  - apply redact_token_lengths.
Qed.

(** X5.  The records of the key are those of the resolved matches, in
    order: each holds the text of its match, the length of its token (the
    length of that text under BLACKOUT and VECTURE_NOISE, 10 otherwise)
    and the position of the match in the original text moved by what the
    tokens before it added.  The redacted text is as long as the original
    plus what the tokens added. *)
Theorem redact_records (U : unicode_db) (rnd : nat -> nat) (T style : str)
        (custom_words : list str) (redact_caps : bool) :
  let key := snd (redact U rnd T style custom_words redact_caps) in
  restorations key
  = expected_records style 0 (find_matches U T custom_words redact_caps)
  /\ Z.of_nat (length (fst (redact U rnd T style custom_words redact_caps)))
     = (Z.of_nat (length T) - total_growth (restorations key))%Z.
Proof.
  cbv zeta. split; [apply redact_expected_records|apply redact_accounting].
Qed.

Lemma replacement_for_no_random (rnd rnd' : nat -> nat) (draws : nat)
      (style original : str) :
  style <> VECTURE_NOISE ->
  replacement_for rnd draws style original
  = replacement_for rnd' draws style original.
Proof.
  intros H. unfold replacement_for.
  destruct (str_eqb style BLACKOUT); [reflexivity|].
  now rewrite (str_eqb_false H).
Qed.

(** X6.  The random source decides nothing but the characters of the
    VECTURE_NOISE tokens: under any style two sources give the same records
    and redacted texts of the same length, and under a style other than
    VECTURE_NOISE they give the same text and the same key. *)
Theorem redact_random_source (U : unicode_db) (rnd rnd' : nat -> nat)
        (T style : str) (custom_words : list str) (redact_caps : bool) :
  restorations (snd (redact U rnd T style custom_words redact_caps))
  = restorations (snd (redact U rnd' T style custom_words redact_caps))
  /\ length (fst (redact U rnd T style custom_words redact_caps))
     = length (fst (redact U rnd' T style custom_words redact_caps))
  /\ (style <> VECTURE_NOISE ->
      redact U rnd T style custom_words redact_caps
      = redact U rnd' T style custom_words redact_caps).
Proof.
  assert (Hrs : restorations (snd (redact U rnd T style custom_words redact_caps))
                = restorations (snd (redact U rnd' T style custom_words redact_caps)))
    by now rewrite !redact_expected_records.
  split; [exact Hrs|]. split.
  - pose proof (proj2 (redact_accounting U rnd T style custom_words redact_caps)) as H1.
    pose proof (proj2 (redact_accounting U rnd' T style custom_words redact_caps)) as H2.
    rewrite Hrs in H1. lia.
  - intros Hstyle. unfold redact, redact_loop.
    assert (E : forall ms st,
               fold_left (redact_step T style rnd) ms st
               = fold_left (redact_step T style rnd') ms st).
    { induction ms as [|m ms IH]; intros st; simpl; [reflexivity|].
      rewrite IH. f_equal. unfold redact_step.
      now rewrite (replacement_for_no_random rnd rnd' (rnd_draws st) (m_text m) Hstyle). }
    now rewrite E.
Qed.

Lemma redact_random_source_witness :
  redact ascii_db no_random example_text BLACKOUT [] false
  = redact ascii_db (fun n => n) example_text BLACKOUT [] false.
Proof.
  apply redact_random_source.
  apply str_eqb_neq. vm_compute. reflexivity.
Defined.

(** What [restore] undoes, without the hash check and the sort. *)
Lemma redact_undo U rnd T style custom_words redact_caps :
  restore_loop (fst (redact U rnd T style custom_words redact_caps))
    (rev (restorations (snd (redact U rnd T style custom_words redact_caps))))
  = Return T.
Proof.
  destruct (redact_inv_final U rnd T style custom_words redact_caps)
    as (_ & _ & _ & Hrestore).
  rewrite redact_restorations, redact_text. cbv zeta.
  rewrite Hrestore. now rewrite firstn_skipn.
Qed.

Lemma expected_records_in_place (style : str) (T : str) (ms : list span) :
  (forall o, token_length style o = length o) ->
  Forall (valid_span T) ms ->
  expected_records style 0 ms
  = map (fun m => Restoration (Z.of_nat (m_start m)) (m_text m)
                              (Z.of_nat (m_end m - m_start m))) ms.
Proof.
  intros Htok. induction 1 as [|m ms (Hne & Hend & Htext) Hms IH];
    cbn [expected_records map]; [reflexivity|].
  assert (Hlen : length (m_text m) = m_end m - m_start m).
  { rewrite Htext. apply slice_length; lia. }
  rewrite Htok, Hlen. f_equal; [f_equal; lia|].
  replace (0 + Z.of_nat (m_end m - m_start m)
           - Z.of_nat (m_end m - m_start m))%Z with 0%Z by lia.
  exact IH.
Qed.

Lemma token_length_in_place (style : str) :
  style = BLACKOUT \/ style = VECTURE_NOISE ->
  forall o, token_length style o = length o.
Proof.
  intros [-> | ->] o; unfold token_length.
  - now rewrite str_eqb_refl.
  - now rewrite str_eqb_refl, orb_true_r.
Qed.

(** X7.  BLACKOUT and VECTURE_NOISE keep the layout of the text: the
    redacted text is as long as the original, every record sits at the
    start of its match with the length of the match, every character
    outside the resolved spans is the original one, and every character
    inside one is the block character (BLACKOUT) or a character of the
    noise alphabet (VECTURE_NOISE). *)
Theorem redact_keeps_layout (U : unicode_db) (rnd : nat -> nat) (T style : str)
        (custom_words : list str) (redact_caps : bool) :
  style = BLACKOUT \/ style = VECTURE_NOISE ->
  let redacted := fst (redact U rnd T style custom_words redact_caps) in
  let key := snd (redact U rnd T style custom_words redact_caps) in
  let matches := find_matches U T custom_words redact_caps in
  length redacted = length T /\
  restorations key
  = map (fun m => Restoration (Z.of_nat (m_start m)) (m_text m)
                              (Z.of_nat (m_end m - m_start m))) matches /\
  (forall i, (forall m, In m matches -> ~ in_span m i) ->
             nth_error redacted i = nth_error T i) /\
  (forall m i, In m matches -> in_span m i ->
     exists c, nth_error redacted i = Some c /\
               (style = BLACKOUT -> c = block_char) /\
               (style = VECTURE_NOISE -> In c noise_chars)).
Proof.
  intros Hstyle redacted key matches.
  destruct (find_matches_spans U T custom_words redact_caps) as [Hvalid _].
  fold matches in Hvalid.
  assert (Hrs : restorations key
                = map (fun m => Restoration (Z.of_nat (m_start m)) (m_text m)
                                            (Z.of_nat (m_end m - m_start m)))
                      matches).
  { unfold key. rewrite redact_expected_records.
    apply expected_records_in_place with (T := T); auto.
    now apply token_length_in_place. }
  assert (Hin : forall r, In r (restorations key) ->
                  exists m, In m matches /\ valid_span T m /\
                            pos r = Z.of_nat (m_start m) /\
                            len r = Z.of_nat (m_end m - m_start m) /\
                            text r = m_text m).
  { intros r Hr. rewrite Hrs in Hr. apply in_map_iff in Hr as (m & <- & Hm).
    exists m. rewrite Forall_forall in Hvalid. auto. }
  assert (Hplace : Forall (fun r => Z.of_nat (length (text r)) = len r)
                          (restorations key)).
  { apply Forall_forall. intros r Hr.
    destruct (Hin r Hr) as (m & _ & (Hne & Hend & Htext) & _ & Hl & Ht).
    rewrite Hl, Ht, Htext, slice_length; lia. }
  pose proof (redact_undo U rnd T style custom_words redact_caps) as Hundo.
  fold redacted in Hundo. fold key in Hundo.
  apply restore_loop_windows in Hundo;
    [|apply Forall_rev; exact Hplace].
  destruct Hundo as [Hlen Hsame].
  refine (conj (eq_sym Hlen) (conj Hrs (conj _ _))).
  - intros i Hout. symmetry. apply Hsame. intros r Hr Hwin.
    apply in_rev in Hr. destruct (Hin r Hr) as (m & Hm & _ & Hp & Hl & _).
    apply (Hout m Hm). unfold in_window in Hwin. unfold in_span. lia.
  - intros m i Hm Hi.
    destruct (redact_tokens U rnd T style custom_words redact_caps) as [Htok _].
    fold redacted in Htok. fold key in Htok. rewrite Forall_forall in Htok.
    assert (Hr : In (Restoration (Z.of_nat (m_start m)) (m_text m)
                                 (Z.of_nat (m_end m - m_start m)))
                    (restorations key)).
    { rewrite Hrs. apply in_map_iff. now exists m. }
    destruct (Htok _ Hr) as (pre & tok & post & Hred & Hp & Hl & Hok).
    cbn [pos len text] in *. unfold in_span in Hi.
    assert (Hpre : length pre = m_start m) by lia.
    assert (Htl : length tok = m_end m - m_start m) by lia.
    assert (Hnth : nth_error redacted i = nth_error tok (i - m_start m)).
    { rewrite Hred. rewrite nth_error_app2 by lia. rewrite Hpre.
      apply nth_error_app1. lia. }
    destruct (nth_error tok (i - m_start m)) as [c|] eqn:Ec.
    2:{ apply nth_error_None in Ec. lia. }
    exists c. split; [exact Hnth|]. apply nth_error_In in Ec.
    destruct Hok as (H1 & H2 & _). split.
    + intros Hb. rewrite (H1 Hb) in Ec. now apply repeat_spec in Ec.
    + intros Hn. destruct (H2 Hn) as [_ Hall].
      rewrite Forall_forall in Hall. now apply Hall.
Qed.

Lemma redact_keeps_layout_witness :
  length (fst (redact ascii_db no_random example_text BLACKOUT [] false))
  = length example_text.
Proof.
  apply (@redact_keeps_layout ascii_db no_random example_text BLACKOUT [] false).
  now left.
Defined.

Lemma finditer_empty_text (U : unicode_db) (r : regex) :
  0 < min_len r -> finditer U r [] = [].
Proof.
  intros Hmin. unfold finditer. simpl.
  destruct (re_match U r [] 0 Some) as [e|] eqn:E; [|reflexivity].
  apply re_match_sound in E; [|simpl; lia].
  destruct E as (j & H1 & H2 & _). simpl in H2. lia.
Qed.

Lemma find_matches_empty_text (U : unicode_db) (custom_words : list str)
      (redact_caps : bool) :
  find_matches U [] custom_words redact_caps = [].
Proof.
  unfold find_matches, find_candidates.
  assert (Hw : flat_map (fun word => match word with
                                     | [] => []
                                     | _ :: _ => finditer U (word_pattern U word) []
                                     end) custom_words = []).
  { induction custom_words as [|w ws IH]; simpl; [reflexivity|].
    rewrite IH, app_nil_r. destruct w as [|c w]; [reflexivity|].
    apply finditer_empty_text, word_pattern_min_len. }
  rewrite Hw. cbn [flat_map].
  rewrite !finditer_empty_text by (simpl; lia).
  destruct redact_caps; reflexivity.
Qed.

Lemma redact_no_match U rnd T style custom_words redact_caps :
  find_matches U T custom_words redact_caps = [] ->
  redact U rnd T style custom_words redact_caps
  = (T, KeyData (lit "1.0") (sha256_hex T) []).
Proof.
  intros H. unfold redact, redact_loop. rewrite H.
  cbn [fold_left result_text current_idx key_restorations].
  assert (E : concat (([] : list str) ++ [skipn 0 T]) = T)
    by (simpl; apply app_nil_r).
  now rewrite E.
Qed.

(** X8.  When no match is resolved, and only then, the key has no record;
    [redact] then returns the text unchanged with the hash of the text.
    The empty text has no match, whatever the word list and the flag. *)
Theorem redact_nothing_found (U : unicode_db) (rnd : nat -> nat) (T style : str)
        (custom_words : list str) (redact_caps : bool) :
  (restorations (snd (redact U rnd T style custom_words redact_caps)) = []
   <-> find_matches U T custom_words redact_caps = []) /\
  (restorations (snd (redact U rnd T style custom_words redact_caps)) = [] ->
   redact U rnd T style custom_words redact_caps
   = (T, KeyData (lit "1.0") (sha256_hex T) [])) /\
  redact U rnd [] style custom_words redact_caps
  = ([], KeyData (lit "1.0") (sha256_hex []) []).
Proof.
  assert (Hiff : restorations (snd (redact U rnd T style custom_words redact_caps)) = []
                 <-> find_matches U T custom_words redact_caps = []).
  { rewrite redact_expected_records.
    destruct (find_matches U T custom_words redact_caps); simpl; split;
      congruence. }
  split; [exact Hiff|]. split.
  - intros H. apply redact_no_match. now apply Hiff.
  - apply redact_no_match, find_matches_empty_text.
Qed.

Lemma redact_nothing_found_witness :
  redact ascii_db no_random (lit "nothing to hide") CLASSIC [] false
  = (lit "nothing to hide",
     KeyData (lit "1.0") (sha256_hex (lit "nothing to hide")) []).
Proof.
  apply (proj1 (proj2 (redact_nothing_found ascii_db no_random
                         (lit "nothing to hide") CLASSIC [] false))).
  vm_compute. reflexivity.
Defined.

Lemma find_candidates_nonempty_words (U : unicode_db) (text : str)
      (custom_words : list str) (redact_caps : bool) :
  find_candidates U text custom_words redact_caps
  = find_candidates U text (filter nonempty_word custom_words) redact_caps.
Proof.
  unfold find_candidates. do 2 f_equal.
  induction custom_words as [|w ws IH]; simpl; [reflexivity|].
  destruct w as [|c w]; simpl; [exact IH|]. now rewrite IH.
Qed.

(** X9.  Empty entries of the custom word list are skipped: [redact]
    returns the same text and key with them as without them. *)
Theorem redact_skips_empty_words (U : unicode_db) (rnd : nat -> nat)
        (T style : str) (custom_words : list str) (redact_caps : bool) :
  redact U rnd T style custom_words redact_caps
  = redact U rnd T style (filter nonempty_word custom_words) redact_caps.
Proof.
  unfold redact, find_matches.
  now rewrite (find_candidates_nonempty_words U T custom_words redact_caps).
Qed.

(** ** More on conflict resolution *)

Lemma StronglySorted_remove {A} (R : A -> A -> Prop) (a b : list A) (x : A) :
  StronglySorted R (a ++ x :: b) -> StronglySorted R (a ++ b).
Proof.
  induction a as [|y a IH]; simpl; intros H.
  - now inversion H.
  - inversion H as [|? ? Hs Hall]; subst. constructor; [now apply IH|].
    apply Forall_app in Hall as [H1 H2]. inversion H2; subst.
    apply Forall_app. now split.
Qed.

Lemma resolve_loop_sorted {R : span -> span -> Prop} (first : span)
      (rest cleaned : list span) :
  StronglySorted R (cleaned ++ rest) ->
  StronglySorted R (fold_left (resolve_step first) rest cleaned).
Proof.
  revert cleaned. induction rest as [|m rest IH]; intros cleaned H; simpl.
  - now rewrite app_nil_r in H.
  - unfold resolve_step at 2.
    destruct (m_start m <? m_end (last cleaned first)).
    + apply IH. now apply StronglySorted_remove in H.
    + apply IH. now rewrite <- app_assoc.
Qed.

Lemma resolve_sorted_keeps_order {R : span -> span -> Prop} (ms : list span) :
  StronglySorted R ms -> StronglySorted R (resolve_sorted ms).
Proof.
  destruct ms as [|m rest]; simpl; [auto|].
  intros H. now apply resolve_loop_sorted.
Qed.

(** The walk keeps a list whose spans already follow one another. *)
Lemma resolve_loop_keeps_all (first : span) (rest cleaned : list span) :
  cleaned <> [] -> Sorted ends_before (cleaned ++ rest) ->
  fold_left (resolve_step first) rest cleaned = cleaned ++ rest.
Proof.
  revert cleaned. induction rest as [|m rest IH]; intros cleaned Hne Hs; simpl.
  - now rewrite app_nil_r.
  - unfold resolve_step at 2.
    assert (Hlast : m_end (last cleaned first) <= m_start m).
    { clear IH. induction cleaned as [|c cleaned IHc]; [congruence|].
      destruct cleaned as [|c' cleaned].
      - simpl in *. inversion Hs as [|? ? _ Hhd]; subst. now inversion Hhd.
      - change (last (c :: c' :: cleaned) first) with (last (c' :: cleaned) first).
        apply IHc; [discriminate|]. simpl in Hs. now inversion Hs. }
    apply Nat.ltb_ge in Hlast. rewrite Hlast.
    rewrite IH.
    + now rewrite <- app_assoc.
    + destruct cleaned; discriminate.
    + now rewrite <- app_assoc.
Qed.

Lemma sorted_by_start_strong (candidates : list span) :
  StronglySorted starts_no_later (list_sort start_key false candidates).
Proof.
  apply Sorted_StronglySorted; [|apply sorted_by_start].
  intros a b c. unfold starts_no_later. lia.
Qed.

Lemma sort_by_start_sorted_id (ms : list span) :
  Sorted starts_no_later ms -> list_sort start_key false ms = ms.
Proof.
  intros H. apply list_sort_sorted_id.
  induction H as [|a l Hs IH Hhd]; constructor; auto.
  destruct Hhd as [|b l Hab]; constructor.
  unfold in_order, goes_before, start_key. apply Z.leb_le.
  unfold starts_no_later in Hab. lia.
Qed.

(** X10.  Resolving is idempotent: resolving the output of the resolver
    again changes nothing. *)
Theorem resolve_idempotent (candidates : list span) :
  resolve (resolve candidates) = resolve candidates.
Proof.
  assert (Hs : Sorted starts_no_later (resolve candidates)).
  { apply StronglySorted_Sorted. unfold resolve.
    apply resolve_sorted_keeps_order, sorted_by_start_strong. }
  unfold resolve at 1. rewrite (sort_by_start_sorted_id Hs).
  pose proof (resolve_ends_before candidates) as He.
  destruct (resolve candidates) as [|m rest]; [reflexivity|].
  simpl. now apply (@resolve_loop_keeps_all m rest [m]).
Qed.

Lemma StronglySorted_snoc_inv {A} (R : A -> A -> Prop) (l : list A) (x : A) :
  StronglySorted R (l ++ [x]) ->
  StronglySorted R l /\ Forall (fun y => R y x) l.
Proof.
  induction l as [|a l IH]; simpl; intros H.
  - split; constructor.
  - inversion H as [|? ? Hs Hall]; subst. destruct (IH Hs) as [H1 H2].
    apply Forall_app in Hall as [Hl Hx]. inversion Hx; subst.
    split; constructor; auto.
Qed.

Lemma last_In {A} (l : list A) (d : A) : l <> [] -> In (last l d) l.
Proof.
  induction l as [|a l IH]; [congruence|]. intros _.
  destruct l as [|b l]; [now left|]. right. apply IH. discriminate.
Qed.

Lemma resolve_sorted_covers (ms : list span) :
  StronglySorted starts_no_later ms -> Forall span_ok ms ->
  forall c, In c ms ->
    exists k, In k (resolve_sorted ms) /\
              m_start k <= m_start c < m_end k.
Proof.
  induction ms as [|m ms IH] using rev_ind; intros Hs Hok c Hc; [contradiction|].
  apply StronglySorted_snoc_inv in Hs as [Hs Hle].
  apply Forall_app in Hok as [Hok Hm]. inversion Hm as [|? ? Hmok _]; subst.
  destruct ms as [|m0 ms0].
  - simpl in *. destruct Hc as [<-|[]]. exists m. split; [now left|].
    unfold span_ok in Hmok. lia.
  - set (ms' := m0 :: ms0) in *.
    assert (Hne : ms' <> []) by discriminate.
    rewrite (resolve_sorted_snoc m Hne).
    destruct (resolve_sorted_inv ms') as (_ & Hincl & Hhead).
    destruct (Hhead m0 ms0 eq_refl) as [kept Hkept].
    assert (Hne' : resolve_sorted ms' <> []) by (rewrite Hkept; discriminate).
    apply in_app_or in Hc as [Hc|[<-|[]]].
    + destruct (IH Hs Hok c Hc) as (k & Hk & Hcov). exists k. split; [|exact Hcov].
      destruct (m_start m <? m_end (last (resolve_sorted ms') m));
        [exact Hk|apply in_or_app; now left].
    + destruct (m_start m <? m_end (last (resolve_sorted ms') m)) eqn:E.
      * apply Nat.ltb_lt in E.
        pose proof (last_In m Hne') as Hlast.
        exists (last (resolve_sorted ms') m). split; [exact Hlast|].
        split; [|exact E].
        rewrite Forall_forall in Hle. apply (Hle _ (Hincl _ Hlast)).
      * exists m. split; [apply in_or_app; right; now left|].
        unfold span_ok in Hmok. lia.
Qed.

(** X11.  No candidate loses its first character to the resolution: for
    every candidate span there is a kept span that contains the start of
    the candidate (the candidate itself when it is kept). *)
Theorem resolve_covers_starts (candidates : list span) :
  Forall span_ok candidates ->
  forall c, In c candidates ->
    exists k, In k (resolve candidates) /\
              m_start k <= m_start c < m_end k.
Proof.
  intros Hok c Hc. unfold resolve. apply resolve_sorted_covers.
  - apply sorted_by_start_strong.
  - eapply Permutation_Forall; [|exact Hok]. symmetry. apply list_sort_perm.
  - eapply Permutation_in; [|exact Hc]. symmetry. apply list_sort_perm.
Qed.

Lemma resolve_covers_starts_witness :
  exists k, In k (resolve nested_candidates) /\
            m_start k <= 3 < m_end k.
Proof.
  apply (@resolve_covers_starts nested_candidates
           ltac:(unfold nested_candidates, span_ok; repeat constructor)
           (Span 3 10 (lit "defghij"))).
  right. right. now left.
Defined.

(** ** The matcher against the meaning of the patterns *)

Section ReMeaning.

Variable U : unicode_db.
Variable s : str.

Lemma run_class p hi (t : str) :
  forall m, m < run p hi t -> exists c, nth_error t m = Some c /\ p c = true.
Proof.
  revert hi. induction t as [|c t IH]; intros hi m Hm; simpl in Hm; [lia|].
  destruct hi as [[|h]|]; try lia.
  - destruct (p c) eqn:E; [|lia]. destruct m as [|m]; simpl.
    + now exists c.
    + apply (IH (Some h)). lia.
  - destruct (p c) eqn:E; [|lia]. destruct m as [|m]; simpl.
    + now exists c.
    + apply (IH None). lia.
Qed.

Lemma run_bound p h (t : str) : run p (Some h) t <= h.
Proof.
  revert h. induction t as [|c t IH]; intros h; simpl; [lia|].
  destruct h as [|h]; [lia|]. destruct (p c); [specialize (IH h)|]; lia.
Qed.

Lemma run_longest p hi (t : str) (n : nat) :
  (forall m, m < n -> exists c, nth_error t m = Some c /\ p c = true) ->
  (forall h, hi = Some h -> n <= h) ->
  n <= run p hi t.
Proof.
  revert hi n. induction t as [|c t IH]; intros hi n Hrun Hhi.
  - destruct n as [|n]; [lia|]. destruct (Hrun 0) as (c & Hc & _); [lia|].
    discriminate Hc.
  - destruct n as [|n]; [lia|].
    destruct (Hrun 0) as (c0 & Hc0 & Hp0); [lia|]. simpl in Hc0.
    injection Hc0 as <-.
    assert (Hrest : forall m, m < n ->
                      exists c', nth_error t m = Some c' /\ p c' = true).
    { intros m Hm. apply (Hrun (S m)). lia. }
    simpl. destruct hi as [[|h]|].
    + specialize (Hhi 0 eq_refl). lia.
    + rewrite Hp0. apply le_n_S. apply IH; auto.
      intros h' [= <-]. specialize (Hhi (S h) eq_refl). lia.
    + rewrite Hp0. apply le_n_S. apply IH; auto. discriminate.
Qed.

Lemma backoff_complete k i lo n :
  backoff k i lo n = None ->
  forall m, lo <= m -> m <= n -> k (i + m) = None.
Proof.
  induction n as [|n IH]; simpl.
  - destruct (0 <? lo) eqn:E.
    + apply Nat.ltb_lt in E. intros _ m H1 H2. lia.
    + destruct (k (i + 0)) eqn:Ek; [discriminate|].
      intros _ m H1 H2. now replace m with 0 by lia.
  - destruct (S n <? lo) eqn:E.
    + apply Nat.ltb_lt in E. intros _ m H1 H2. lia.
    + destruct (k (i + S n)) eqn:Ek; [discriminate|].
      intros H m H1 H2. destruct (Nat.eq_dec m (S n)) as [->|Hne]; [exact Ek|].
      apply IH; auto. lia.
Qed.

(** What the matcher returns is a match, and it fails only when every
    match is refused by the continuation. *)
Lemma re_match_meaning r :
  forall i k,
    (forall e, re_match U r s i k = Some e ->
               exists j, re_sem U s r i j /\ k j = Some e) /\
    (re_match U r s i k = None ->
     forall j, re_sem U s r i j -> k j = None).
Proof.
  induction r as [|p|r1 IH1 r2 IH2|r1 IH1 r2 IH2|p lo hi|]; intros i k; simpl.
  - split.
    + intros e H. exists i. split; [constructor|exact H].
    + intros H j Hj. inversion Hj; subst. exact H.
  - split.
    + intros e H. destruct (nth_error s i) as [c|] eqn:E; [|discriminate].
      destruct (p c) eqn:Ep; [|discriminate].
      exists (S i). split; [now apply sem_cls with (c := c)|exact H].
    + intros H j Hj. inversion Hj as [|? ? c Hc Hp| | | | |]; subst.
      rewrite Hc, Hp in H. exact H.
  - split.
    + intros e H. apply (proj1 (IH1 _ _)) in H as (j1 & H1 & H).
      apply (proj1 (IH2 _ _)) in H as (j2 & H2 & H).
      exists j2. split; [now apply sem_cat with (j := j1)|exact H].
    + intros H j Hj. inversion Hj as [| |? ? ? j1 ? H1 H2| | | |]; subst.
      apply (proj2 (IH2 j1 k)); [|exact H2].
      now apply (proj2 (IH1 i (fun j => re_match U r2 s j k)) H j1).
  - split.
    + intros e H. destruct (re_match U r1 s i k) as [e1|] eqn:E1.
      * injection H as <-. apply (proj1 (IH1 _ _)) in E1 as (j & H1 & H).
        exists j. split; [now apply sem_alt_l|exact H].
      * apply (proj1 (IH2 _ _)) in H as (j & H2 & H).
        exists j. split; [now apply sem_alt_r|exact H].
    + intros H j Hj. destruct (re_match U r1 s i k) as [e1|] eqn:E1;
        [discriminate|].
      inversion Hj; subst.
      * now apply (proj2 (IH1 i k) E1).
      * now apply (proj2 (IH2 i k) H).
  - split.
    + intros e H. apply backoff_sound in H as (m & H1 & H2 & H3).
      exists (i + m). split; [|exact H3]. apply sem_rep; auto.
      * intros h ->. pose proof (run_bound p h (skipn i s)). lia.
      * intros m' Hm'. destruct (@run_class p hi (skipn i s) m') as (c & Hc & Hp);
          [lia|]. rewrite nth_error_skipn in Hc. now exists c.
    + intros H j Hj. inversion Hj as [| | | | |? ? ? ? n Hlo Hhi Hrun|]; subst.
      eapply backoff_complete; [exact H|exact Hlo|].
      apply run_longest; [|exact Hhi].
      intros m Hm. destruct (Hrun m Hm) as (c & Hc & Hp).
      exists c. now rewrite nth_error_skipn.
  - split.
    + intros e H. destruct (word_boundary U s i) eqn:E; [|discriminate].
      exists i. split; [now constructor|exact H].
    + intros H j Hj. inversion Hj as [| | | | | |? Hb]; subst.
      now rewrite Hb in H.
Qed.

Lemma re_match_finds r i e :
  re_match U r s i Some = Some e -> re_sem U s r i e.
Proof.
  intros H. apply (proj1 (re_match_meaning r i Some)) in H as (j & H & [= <-]).
  exact H.
Qed.

Lemma re_match_misses r i j :
  re_match U r s i Some = None -> ~ re_sem U s r i j.
Proof.
  intros H Hj. apply (proj2 (re_match_meaning r i Some) H) in Hj. discriminate.
Qed.

Lemma finditer_from_found r offsets next :
  Forall (fun m => re_sem U s r (m_start m) (m_end m))
         (finditer_from U r s offsets next).
Proof.
  revert next. induction offsets as [|i offsets IH]; intros next; simpl;
    [constructor|].
  destruct (i <? next); [apply IH|].
  destruct (re_match U r s i Some) as [e|] eqn:E; [|apply IH].
  constructor; [|apply IH]. simpl. now apply re_match_finds.
Qed.

Lemma finditer_from_covers r :
  0 < min_len r ->
  forall n a next i j,
    a <= i < a + n -> next <= i -> a + n <= S (length s) ->
    re_sem U s r i j ->
    exists m, In m (finditer_from U r s (seq a n) next) /\
              m_start m <= i < m_end m.
Proof.
  intros Hmin. induction n as [|n IH]; intros a next i j Hi Hnext Hlen Hj;
    [lia|].
  cbn [seq finditer_from]. destruct (a <? next) eqn:Ea.
  - apply Nat.ltb_lt in Ea. apply (IH (S a) next i j); auto; lia.
  - apply Nat.ltb_ge in Ea.
    destruct (re_match U r s a Some) as [e|] eqn:E.
    + assert (He : a + min_len r <= e).
      { apply re_match_sound in E; [|lia].
        destruct E as (j' & H1 & _ & [= <-]). exact H1. }
      destruct (Nat.lt_ge_cases i e) as [Hlt|Hge].
      * exists (Span a e (slice a e s)). split; [now left|]. simpl. lia.
      * destruct (IH (S a) (Nat.max e (S a)) i j) as (m & Hm & Hcov); auto;
          try lia.
        exists m. split; [now right|exact Hcov].
    + assert (Hne : a <> i).
      { intros ->. exact (re_match_misses E Hj). }
      apply (IH (S a) next i j); auto; lia.
Qed.

End ReMeaning.

Section PatternMeaning.

Variable U : unicode_db.
Variable s : str.

Lemma re_sem_bounds r i j :
  re_sem U s r i j -> i + min_len r <= j /\ (i < j -> j <= length s).
Proof.
  induction 1 as [i|p i c Hc Hp|r1 r2 i j k H1 IH1 H2 IH2|r1 r2 i j H IH
                  |r1 r2 i j H IH|p lo hi i n Hlo Hhi Hrun|i Hb]; simpl.
  - split; lia.
  - split; [lia|]. intros _. apply Nat.le_succ_l. apply nth_error_Some. congruence.
  - split; [lia|]. intros Hlt. destruct (Nat.eq_dec j k) as [->|Hne].
    + apply IH1. lia.
    + apply IH2. lia.
  - split; [lia|apply IH].
  - split; [lia|apply IH].
  - split; [lia|]. intros Hlt. destruct n as [|n]; [lia|].
    destruct (Hrun n) as (c & Hc & _); [lia|].
    assert (i + n < length s) by (apply nth_error_Some; congruence). lia.
  - split; lia.
Qed.

Lemma finditer_matches r :
  0 < min_len r ->
  Forall (fun m => re_sem U s r (m_start m) (m_end m) /\ valid_span s m)
         (finditer U r s) /\
  forall i j, re_sem U s r i j ->
              exists m, In m (finditer U r s) /\ in_span m i.
Proof.
  intros Hmin. split.
  - apply Forall_forall. intros m Hm. split.
    + pose proof (finditer_from_found U s r (seq 0 (S (length s))) 0) as H.
      rewrite Forall_forall in H. now apply H.
    + pose proof (finditer_spans U r s Hmin) as H.
      rewrite Forall_forall in H. now apply H.
  - intros i j Hj. destruct (re_sem_bounds Hj) as [H1 H2].
    assert (Hi : i < j) by lia. specialize (H2 Hi).
    apply (@finditer_from_covers U s r Hmin (S (length s)) 0 0 i j); auto; lia.
Qed.

Lemma re_sem_cls_inv p i j :
  re_sem U s (Cls p) i j ->
  j = S i /\ exists c, nth_error s i = Some c /\ p c = true.
Proof. intros H. inversion H; subst. split; [reflexivity|eauto]. Qed.

Lemma re_sem_cat_inv r1 r2 i k :
  re_sem U s (Cat r1 r2) i k ->
  exists j, re_sem U s r1 i j /\ re_sem U s r2 j k.
Proof. intros H. inversion H; subst. eauto. Qed.

Lemma re_sem_rep_inv p lo hi i j :
  re_sem U s (Rep p lo hi) i j ->
  exists n, j = i + n /\ lo <= n /\ (forall h, hi = Some h -> n <= h)
            /\ class_run p s i n.
Proof. intros H. inversion H; subst. eauto 6. Qed.

Lemma re_sem_wordb_inv i j :
  re_sem U s WordB i j -> j = i /\ word_boundary U s i = true.
Proof. intros H. inversion H; subst. auto. Qed.

Lemma re_sem_eps_inv i j : re_sem U s Eps i j -> j = i.
Proof. intros H. now inversion H. Qed.

Lemma re_sem_alt_inv r1 r2 i j :
  re_sem U s (Alt r1 r2) i j -> re_sem U s r1 i j \/ re_sem U s r2 i j.
Proof. intros H. inversion H; subst; auto. Qed.

Lemma re_sem_char n i j :
  re_sem U s (Cls (is_char n)) i j <-> j = S i /\ char_at s i n.
Proof.
  split.
  - intros H. apply re_sem_cls_inv in H as (-> & c & Hc & Hp).
    split; [reflexivity|]. exists c. split; [exact Hc|].
    unfold is_char in Hp. now apply N.eqb_eq in Hp.
  - intros (-> & c & Hc & Hn). apply sem_cls with (c := c); auto.
    unfold is_char. now apply N.eqb_eq.
Qed.

Lemma re_sem_rep p lo hi i n :
  lo <= n -> (forall h, hi = Some h -> n <= h) -> class_run p s i n ->
  re_sem U s (Rep p lo hi) i (i + n).
Proof. intros. now apply sem_rep. Qed.

End PatternMeaning.

Lemma class_run_eq p (s : str) i n i' n' :
  class_run p s i n -> i = i' -> n = n' -> class_run p s i' n'.
Proof. now intros H <- <-. Qed.

Lemma char_at_eq (s : str) i i' n : char_at s i n -> i = i' -> char_at s i' n.
Proof. now intros H <-. Qed.

Lemma word_boundary_eq U (s : str) i i' :
  word_boundary U s i = true -> i = i' -> word_boundary U s i' = true.
Proof. now intros H <-. Qed.

Lemma sem_rep_at U (s : str) p lo hi i n j :
  j = i + n -> lo <= n -> (forall h, hi = Some h -> n <= h) ->
  class_run p s i n -> re_sem U s (Rep p lo hi) i j.
Proof. intros ->. apply sem_rep. Qed.

Lemma sem_char_at U (s : str) n i j :
  j = S i -> char_at s i n -> re_sem U s (Cls (is_char n)) i j.
Proof. intros -> H. now apply re_sem_char. Qed.

Lemma sem_wordb_at U (s : str) i j :
  j = i -> word_boundary U s i = true -> re_sem U s WordB i j.
Proof. intros ->. apply sem_wordb. Qed.

Ltac sem_inv :=
  repeat match goal with
    | H : re_sem _ _ (Cat _ _) _ _ |- _ =>
        apply re_sem_cat_inv in H; destruct H as (? & ? & ?)
    | H : re_sem _ _ (Alt _ _) _ _ |- _ =>
        apply re_sem_alt_inv in H; destruct H as [?|?]
    | H : re_sem _ _ (Cls (is_char _)) _ _ |- _ =>
        apply re_sem_char in H; destruct H as (? & ?)
    | H : re_sem _ _ (Cls _) _ _ |- _ =>
        apply re_sem_cls_inv in H; destruct H as (? & ? & ? & ?)
    | H : re_sem _ _ (Rep _ _ _) _ _ |- _ =>
        apply re_sem_rep_inv in H; destruct H as (? & ? & ? & ? & ?)
    | H : re_sem _ _ WordB _ _ |- _ =>
        apply re_sem_wordb_inv in H; destruct H as (? & ?)
    | H : re_sem _ _ Eps _ _ |- _ => apply re_sem_eps_inv in H
    | H : forall h, Some ?k = Some h -> _ |- _ => specialize (H k eq_refl)
    | H : forall h, None = Some h -> _ |- _ => clear H
    end; subst.

Ltac by_index :=
  match goal with
  | H : class_run ?p ?s _ _ |- class_run ?p ?s _ _ =>
      eapply class_run_eq; [exact H|lia|lia]
  | H : char_at ?s _ ?n |- char_at ?s _ ?n =>
      eapply char_at_eq; [exact H|lia]
  | H : word_boundary ?U ?s _ = true |- word_boundary ?U ?s _ = true =>
      eapply word_boundary_eq; [exact H|lia]
  end.

Section Recognisers.

Variable U : unicode_db.
Variable s : str.

Lemma caps_pattern_meaning i j :
  re_sem U s caps_pattern i j <-> capitalised_at U s i j.
Proof.
  unfold caps_pattern, capitalised_at. cbn [cat_all]. split.
  - intros H. sem_inv.
    repeat split; eauto; try lia; try by_index.
  - intros (Hb & (c & Hc & Hup) & Hj & Hrun & He).
    eapply sem_cat; [apply sem_wordb; exact Hb|].
    eapply sem_cat; [apply sem_cls with (c := c); eauto|].
    eapply sem_cat; [|apply sem_wordb; exact He].
    apply sem_rep_at with (n := j - S i); try lia; [discriminate|exact Hrun].
Qed.

Lemma digits_meaning n i j :
  re_sem U s (digits U n) i j <-> j = i + n /\ class_run (re_digit U) s i n.
Proof.
  unfold digits. split.
  - intros H. sem_inv.
    match goal with
    | H : class_run _ _ _ ?x |- _ => assert (x = n) by lia; subst x
    end.
    auto.
  - intros (-> & H). apply sem_rep; auto. intros h [= <-]. lia.
Qed.

Lemma date_group_meaning a b c sep i j :
  re_sem U s (cat_all [digits U a; Cls (is_char sep); digits U b;
                       Cls (is_char sep); digits U c]) i j
  <-> date_shape U s i a b c sep /\ j = i + a + b + c + 2.
Proof.
  cbn [cat_all]. unfold date_shape. split.
  - intros H.
    apply re_sem_cat_inv in H as (j1 & H1 & H).
    apply re_sem_cat_inv in H as (j2 & H2 & H).
    apply re_sem_cat_inv in H as (j3 & H3 & H).
    apply re_sem_cat_inv in H as (j4 & H4 & H5).
    apply digits_meaning in H1 as (-> & R1).
    apply re_sem_char in H2 as (-> & C2).
    apply digits_meaning in H3 as (-> & R3).
    apply re_sem_char in H4 as (-> & C4).
    apply digits_meaning in H5 as (-> & R5).
    repeat split; try lia; try by_index.
  - intros ((R1 & C2 & R3 & C4 & R5) & ->).
    eapply sem_cat; [apply digits_meaning; split; [reflexivity|exact R1]|].
    eapply sem_cat; [apply sem_char_at; [reflexivity|exact C2]|].
    eapply sem_cat; [apply digits_meaning; split; [reflexivity|by_index]|].
    eapply sem_cat; [apply sem_char_at; [reflexivity|by_index]|].
    apply digits_meaning. split; [lia|by_index].
Qed.

Lemma date_pattern_meaning i j :
  re_sem U s (date_pattern U) i j <-> date_at U s i j.
Proof.
  unfold date_pattern, date_at.
  change (cat_all [WordB; ?a; WordB]) with (Cat WordB (Cat a WordB)).
  split.
  - intros H.
    apply re_sem_cat_inv in H as (j1 & H1 & H).
    apply re_sem_cat_inv in H as (j2 & H2 & H3).
    apply re_sem_wordb_inv in H1 as (-> & Hb).
    apply re_sem_wordb_inv in H3 as (-> & He).
    apply re_sem_alt_inv in H2 as [H2|H2];
      [|apply re_sem_alt_inv in H2 as [H2|H2]];
      apply date_group_meaning in H2 as (Hs & ->);
      (split; [exact Hb|]); (split; [lia|]); (split; [tauto|]);
      by_index.
  - intros (Hb & -> & Hs & He).
    eapply sem_cat; [apply sem_wordb; exact Hb|].
    eapply sem_cat; [|apply sem_wordb; exact He].
    destruct Hs as [Hs|[Hs|Hs]].
    + apply sem_alt_l. apply date_group_meaning. split; [exact Hs|lia].
    + apply sem_alt_r, sem_alt_l. apply date_group_meaning. split; [exact Hs|lia].
    + apply sem_alt_r, sem_alt_r. apply date_group_meaning. split; [exact Hs|lia].
Qed.

Lemma ipv4_pattern_meaning i j :
  re_sem U s ipv4_pattern i j <-> ipv4_at U s i j.
Proof.
  unfold ipv4_pattern, ipv4_at. cbn [cat_all times]. split.
  - intros H. sem_inv. split; [assumption|]. split; [|by_index].
    match goal with
    | _ : class_run _ _ i ?a, _ : class_run _ _ (S (i + ?a)) ?b,
      _ : class_run _ _ (S (S (i + ?a) + ?b)) ?c,
      _ : class_run _ _ (S (S (S (i + ?a) + ?b) + ?c)) ?d |- _ =>
        exists a, b, c, d
    end.
    repeat split; try lia; try by_index.
  - intros (Hb & (a & b & c & d & Ha & Hb' & Hc & Hd & R1 & C1 & R2 & C2
                  & R3 & C3 & R4 & ->) & He).
    eapply sem_cat; [apply sem_wordb; exact Hb|].
    eapply sem_cat.
    + eapply sem_cat.
      * eapply sem_cat; [apply sem_rep_at with (n := a);
                         [reflexivity|lia|intros h [= <-]; lia|exact R1]|].
        apply sem_char_at; [reflexivity|exact C1].
      * eapply sem_cat.
        -- eapply sem_cat; [apply sem_rep_at with (n := b);
                            [reflexivity|lia|intros h [= <-]; lia|by_index]|].
           apply sem_char_at; [reflexivity|by_index].
        -- eapply sem_cat; [|apply sem_eps].
           eapply sem_cat; [apply sem_rep_at with (n := c);
                            [reflexivity|lia|intros h [= <-]; lia|by_index]|].
           apply sem_char_at; [reflexivity|by_index].
    + eapply sem_cat; [|apply sem_wordb_at; [reflexivity|exact He]].
      apply sem_rep_at with (n := d); [lia|lia|intros h [= <-]; lia|by_index].
Qed.

Lemma email_pattern_meaning i j :
  re_sem U s email_pattern i j <-> email_at U s i j.
Proof.
  unfold email_pattern, email_at. cbn [cat_all]. split.
  - intros H. sem_inv. split; [assumption|]. split; [|by_index].
    match goal with
    | _ : class_run email_local _ i ?a,
      _ : class_run email_domain _ _ ?b,
      _ : class_run email_tld _ _ ?c |- _ => exists a, b, c
    end.
    repeat split; try lia; try by_index.
  - intros (Hb & (a & b & c & Ha & Hb' & Hc & R1 & C1 & R2 & C2 & R3 & ->) & He).
    eapply sem_cat; [apply sem_wordb; exact Hb|].
    eapply sem_cat; [apply sem_rep_at with (n := a);
                     [reflexivity|lia|discriminate|exact R1]|].
    eapply sem_cat; [apply sem_char_at; [reflexivity|exact C1]|].
    eapply sem_cat; [apply sem_rep_at with (n := b);
                     [reflexivity|lia|discriminate|by_index]|].
    eapply sem_cat; [apply sem_char_at; [reflexivity|by_index]|].
    eapply sem_cat; [|apply sem_wordb_at; [reflexivity|exact He]].
    apply sem_rep_at with (n := c); [lia|lia|discriminate|by_index].
Qed.

End Recognisers.

Lemma skipn_nth_error {A} (l : list A) (i : nat) (x : A) :
  nth_error l i = Some x -> skipn i l = x :: skipn (S i) l.
Proof.
  revert l. induction i as [|i IH]; intros [|a l] H; simpl in *;
    try discriminate.
  - now injection H as ->.
  - now apply IH.
Qed.

Lemma slice_cons {A} (l : list A) (i b : nat) (x : A) :
  nth_error l i = Some x -> i < b -> slice i b l = x :: slice (S i) b l.
Proof.
  intros H Hb. unfold slice. rewrite (skipn_nth_error _ _ H).
  replace (b - i) with (S (b - S i)) by lia. reflexivity.
Qed.

Lemma slice_head {A} (l : list A) (i b : nat) (x : A) (rest : list A) :
  slice i b l = x :: rest -> nth_error l i = Some x /\ i < b.
Proof.
  unfold slice. intros H.
  destruct (b - i) as [|k] eqn:E; [discriminate|].
  split; [|lia]. rewrite <- hd_error_skipn.
  destruct (skipn i l) as [|a t]; [discriminate|].
  simpl in *. now injection H as -> _.
Qed.

Section WordMeaning.

Variable U : unicode_db.
Variable s : str.

Lemma word_tail_meaning (word : str) :
  forall i j,
    re_sem U s (fold_right (fun c r => Cat (Cls (re_ignorecase_eq U c)) r)
                           WordB word) i j
    <-> j = i + length word /\
        Forall2 (fun c t => re_ignorecase_eq U c t = true)
                word (slice i (i + length word) s) /\
        word_boundary U s j = true.
Proof.
  induction word as [|c word IH]; intros i j; cbn [fold_right length].
  - unfold slice. rewrite Nat.add_0_r, Nat.sub_diag. cbn [firstn]. split.
    + intros H. apply re_sem_wordb_inv in H as (-> & H). auto.
    + intros (-> & _ & H). now apply sem_wordb.
  - split.
    + intros H. apply re_sem_cat_inv in H as (j1 & H1 & H2).
      apply re_sem_cls_inv in H1 as (-> & t & Ht & Hc).
      apply IH in H2 as (-> & Hw & Hb).
      split; [lia|]. split; [|exact Hb].
      rewrite (slice_cons _ Ht) by lia. constructor; [exact Hc|].
      now replace (i + S (length word)) with (S i + length word) by lia.
    + intros (-> & Hw & Hb).
      inversion Hw as [|? t ? rest Hc Hrest E1 E2]; subst.
      symmetry in E2. destruct (slice_head _ _ _ E2) as [Ht Hlt].
      rewrite (slice_cons _ Ht Hlt) in E2. injection E2 as <-.
      eapply sem_cat; [apply sem_cls with (c := t); eauto|].
      apply IH. split; [lia|]. split; [|exact Hb].
      now replace (S i + length word) with (i + S (length word)) by lia.
Qed.

Lemma word_pattern_meaning (word : str) i j :
  re_sem U s (word_pattern U word) i j
  <-> j = i + length word /\ word_occurs_at U s word i.
Proof.
  unfold word_pattern, word_occurs_at. split.
  - intros H. apply re_sem_cat_inv in H as (j1 & H1 & H2).
    apply re_sem_wordb_inv in H1 as (-> & Hb).
    apply word_tail_meaning in H2 as (-> & Hw & He). auto.
  - intros (-> & Hb & Hw & He).
    eapply sem_cat; [apply sem_wordb; exact Hb|].
    apply word_tail_meaning. auto.
Qed.

End WordMeaning.

(** X12.  Nothing but an entity is ever redacted: every resolved match is a
    span of the text that holds an address-like, date-like or email-like
    string, a whole-word case-insensitive occurrence of a non-empty custom
    word, or (only with the heuristic on) a capitalised word. *)
Theorem matches_are_entities (U : unicode_db) (text : str)
        (custom_words : list str) (redact_caps : bool) :
  Forall (fun m =>
            valid_span text m /\
            entity_at U text custom_words redact_caps (m_start m) (m_end m))
         (find_matches U text custom_words redact_caps).
Proof.
  apply Forall_forall. intros m Hm.
  destruct (find_matches_spans U text custom_words redact_caps) as [Hv _].
  rewrite Forall_forall in Hv. split; [now apply Hv|].
  apply resolve_incl in Hm. unfold find_candidates in Hm.
  assert (Hsem : forall r, 0 < min_len r -> In m (finditer U r text) ->
                           re_sem U text r (m_start m) (m_end m)).
  { intros r Hmin Hin. destruct (@finditer_matches U text r Hmin) as [H _].
    rewrite Forall_forall in H. now apply H. }
  unfold entity_at.
  apply in_app_or in Hm as [Hm|Hm]; [|apply in_app_or in Hm as [Hm|Hm]].
  - cbn [flat_map] in Hm. rewrite app_nil_r in Hm.
    apply in_app_or in Hm as [Hm|Hm]; [|apply in_app_or in Hm as [Hm|Hm]].
    + left. apply ipv4_pattern_meaning, Hsem; [simpl; lia|exact Hm].
    + right. left. apply date_pattern_meaning, Hsem; [simpl; lia|exact Hm].
    + right. right. left.
      apply email_pattern_meaning, Hsem; [simpl; lia|exact Hm].
  - apply in_flat_map in Hm as (word & Hw & Hm).
    destruct word as [|c word]; [contradiction|].
    do 3 right. left. exists (c :: word).
    apply Hsem in Hm; [|apply word_pattern_min_len].
    apply word_pattern_meaning in Hm as [H1 H2].
    split; [exact Hw|]. split; [discriminate|]. split; [exact H1|exact H2].
  - destruct redact_caps; [|contradiction].
    do 4 right. split; [reflexivity|].
    apply caps_pattern_meaning, Hsem; [simpl; lia|exact Hm].
Qed.

(** X13.  The scan covers the start of every entity, and the resolution
    the start of every candidate: wherever a recogniser that is switched
    on has an entity starting at offset [i], some candidate span contains
    [i], and some resolved match contains the start of that candidate.
    The resolved match need not reach [i]: an entity that starts inside a
    candidate which loses its conflict can stay as it is (see
    [entity_left_in_place]). *)
Theorem entity_start_in_candidate (U : unicode_db) (text : str)
        (custom_words : list str) (redact_caps : bool) (i j : nat) :
  entity_at U text custom_words redact_caps i j ->
  exists c, In c (find_candidates U text custom_words redact_caps) /\
            in_span c i /\
            exists k, In k (find_matches U text custom_words redact_caps) /\
                      in_span k (m_start c).
Proof.
  intros He.
  assert (Hcand : exists c, In c (find_candidates U text custom_words redact_caps)
                            /\ in_span c i).
  { assert (Hcov : forall r, 0 < min_len r -> re_sem U text r i j ->
                             exists c, In c (finditer U r text) /\ in_span c i).
    { intros r Hmin Hr. destruct (@finditer_matches U text r Hmin) as [_ H].
      now apply (H i j). }
    unfold find_candidates.
    destruct He as [He|[He|[He|[(word & Hw & Hne & -> & He)|[-> He]]]]].
    - apply ipv4_pattern_meaning in He.
      destruct (Hcov ipv4_pattern) as (c & Hc & Hi); [simpl; lia|exact He|].
      exists c. split; [|exact Hi]. apply in_or_app. left.
      cbn [flat_map]. apply in_or_app. now left.
    - apply date_pattern_meaning in He.
      destruct (Hcov (date_pattern U)) as (c & Hc & Hi); [simpl; lia|exact He|].
      exists c. split; [|exact Hi]. apply in_or_app. left.
      cbn [flat_map]. apply in_or_app. right. apply in_or_app. now left.
    - apply email_pattern_meaning in He.
      destruct (Hcov email_pattern) as (c & Hc & Hi); [simpl; lia|exact He|].
      exists c. split; [|exact Hi]. apply in_or_app. left.
      cbn [flat_map]. apply in_or_app. right. apply in_or_app. right.
      apply in_or_app. now left.
    - destruct word as [|c0 word]; [congruence|].
      assert (Hr : re_sem U text (word_pattern U (c0 :: word)) i
                          (i + length (c0 :: word)))
        by (apply word_pattern_meaning; auto).
      destruct (Hcov _ (word_pattern_min_len U c0 word) Hr) as (c & Hc & Hi).
      exists c. split; [|exact Hi]. apply in_or_app. right.
      apply in_or_app. left. apply in_flat_map. now exists (c0 :: word).
    - apply caps_pattern_meaning in He.
      destruct (Hcov caps_pattern) as (c & Hc & Hi); [simpl; lia|exact He|].
      exists c. split; [|exact Hi]. apply in_or_app. right.
      apply in_or_app. now right. }
  destruct Hcand as (c & Hc & Hi). exists c. split; [exact Hc|].
  split; [exact Hi|].
  assert (Hok : Forall span_ok (find_candidates U text custom_words redact_caps)).
  { eapply Forall_impl; [|apply find_candidates_spans]. intros m Hm. apply Hm. }
  destruct (resolve_sorted_covers
              (sorted_by_start_strong
                 (find_candidates U text custom_words redact_caps))
              (Permutation_Forall
                 (Permutation_sym (list_sort_perm start_key false _)) Hok)
              c
              (Permutation_in c
                 (Permutation_sym (list_sort_perm start_key false _)) Hc))
    as (k & Hk & Hcov).
  exists k. split; [exact Hk|exact Hcov].
Qed.

Lemma entity_start_in_candidate_witness :
  exists c, In c (find_candidates ascii_db acme_text [lit "Acme"] false) /\
            in_span c 15 /\
            exists k, In k (find_matches ascii_db acme_text [lit "Acme"] false) /\
                      in_span k (m_start c).
Proof.
  apply (@entity_start_in_candidate ascii_db acme_text [lit "Acme"] false 15 19).
  do 3 right. left. exists (lit "Acme").
  split; [now left|]. split; [discriminate|]. split; [reflexivity|].
  split; [vm_compute; reflexivity|]. split; [|vm_compute; reflexivity].
  vm_compute. repeat constructor.
Defined.

(** In "2023-01-05.6.7.8.9" the scan for addresses finds "05.6.7.8", which
    loses its conflict with the date before it, and "6.7.8.9", an address
    too, is never a candidate: the text comes out with it in place. *)
Example entity_left_in_place :
  let T := lit "2023-01-05.6.7.8.9" in
  entity_at ascii_db T [] false 11 18 /\
  find_candidates ascii_db T [] false
  = [Span 8 16 (lit "05.6.7.8"); Span 0 10 (lit "2023-01-05")] /\
  find_matches ascii_db T [] false = [Span 0 10 (lit "2023-01-05")] /\
  fst (redact ascii_db no_random T CLASSIC [] false)
  = lit "[REDACTED].6.7.8.9".
Proof.
  cbv zeta. split; [|split; [|split]]; try (vm_compute; reflexivity).
  left. apply ipv4_pattern_meaning, re_match_finds.
  vm_compute. reflexivity.
Qed.

(** ** More on the key codec *)

Lemma no_colon_of_forallb (l : str) :
  forallb (fun c => negb (is_char 58 c)) l = true ->
  Forall (fun c => is_char 58 c = false) l.
Proof.
  intros H. apply Forall_forall. intros c Hc.
  rewrite forallb_forall in H. specialize (H c Hc).
  now apply negb_true_iff in H.
Qed.

Lemma marker_colon_last (a rest : str) :
  a <> [] -> Forall (fun c => is_char 58 c = false) a ->
  startswith MARKER (a ++ MARKER ++ rest) = false.
Proof.
  intros Hne Ha. destruct (startswith MARKER (a ++ MARKER ++ rest)) eqn:E;
    [|reflexivity].
  exfalso. apply startswith_true in E as [s' E].
  assert (H1 : nth_error (a ++ MARKER ++ rest) 11 = Some (chr 58)).
  { rewrite E. rewrite nth_error_app1 by (vm_compute; lia). reflexivity. }
  assert (Hpre : Forall (fun c => is_char 58 c = false) (a ++ firstn 11 MARKER)).
  { apply Forall_app. split; [exact Ha|].
    apply no_colon_of_forallb. vm_compute. reflexivity. }
  assert (Hsplit : a ++ MARKER ++ rest
                   = (a ++ firstn 11 MARKER) ++ (skipn 11 MARKER ++ rest)).
  { rewrite <- app_assoc, (app_assoc (firstn 11 MARKER)), firstn_skipn.
    reflexivity. }
  rewrite Hsplit in H1.
  assert (Hlen : 11 < length (a ++ firstn 11 MARKER)).
  { rewrite length_app. destruct a; [congruence|].
    assert (length (firstn 11 MARKER) = 11) by (vm_compute; reflexivity).
    simpl. lia. }
  rewrite nth_error_app1 in H1 by exact Hlen.
  apply nth_error_In in H1. rewrite Forall_forall in Hpre.
  specialize (Hpre _ H1). vm_compute in Hpre. discriminate Hpre.
Qed.

Lemma str_replace_inner_marker (a rest : str) :
  Forall (fun c => is_char 58 c = false) a ->
  str_replace MARKER [] (a ++ MARKER ++ rest) = a ++ str_replace MARKER [] rest.
Proof.
  induction a as [|c a IH]; intros Ha.
  - exact (@str_replace_head MARKER [] rest ltac:(discriminate)).
  - unfold str_replace.
    change ((c :: a) ++ MARKER ++ rest) with (c :: (a ++ MARKER ++ rest)).
    cbn [replace_from].
    change (c :: (a ++ MARKER ++ rest)) with ((c :: a) ++ MARKER ++ rest).
    rewrite marker_colon_last by (auto; discriminate).
    cbn [app]. f_equal. apply IH. now inversion Ha.
Qed.

Lemma no_colon_no_marker (s : str) :
  Forall (fun c => is_char 58 c = false) s -> ~ occurs MARKER s.
Proof.
  intros Hall (a & b & ->).
  apply Forall_app in Hall as [_ Hall]. apply Forall_app in Hall as [Hall _].
  rewrite Forall_forall in Hall.
  assert (H : is_char 58 (chr 58) = false).
  { apply Hall. vm_compute. tauto. }
  vm_compute in H. discriminate H.
Qed.

(** X14.  [deobfuscate_key] removes every occurrence of the marker, not
    only the one at the head: a marked input with the marker repeated
    inside a payload free of colons is decoded exactly as the same input
    without the inner marker. *)
Theorem deobfuscate_removes_inner_markers
        (json_loads : str -> loads_outcome)
        (json_loads_bytes : bytes -> option json)
        (zlib_decompress : bytes -> option bytes)
        (b64decode : str -> option bytes) (a b : str) :
  Forall (fun c => is_char 58 c = false) a ->
  Forall (fun c => is_char 58 c = false) b ->
  deobfuscate_key json_loads json_loads_bytes zlib_decompress b64decode
    (MARKER ++ a ++ MARKER ++ b)
  = deobfuscate_key json_loads json_loads_bytes zlib_decompress b64decode
      (MARKER ++ a ++ b).
Proof.
  intros Ha Hb. rewrite !deobfuscate_marked.
  rewrite str_replace_inner_marker by exact Ha.
  rewrite (str_replace_absent [] (no_colon_no_marker Hb)).
  rewrite (@str_replace_absent MARKER [] (a ++ b)); [reflexivity|].
  apply no_colon_no_marker. apply Forall_app. now split.
Qed.

Lemma deobfuscate_removes_inner_markers_witness :
  deobfuscate_key sample_loads sample_loads_bytes sample_decompress
    sample_b64decode
    (MARKER ++ firstn 40 sample_encoded ++ MARKER ++ skipn 40 sample_encoded)
  = Return (json_of_key sample_key).
Proof.
  rewrite deobfuscate_removes_inner_markers.
  - rewrite firstn_skipn. vm_compute. reflexivity.
  - apply no_colon_of_forallb. vm_compute. reflexivity.
  - apply no_colon_of_forallb. vm_compute. reflexivity.
Defined.

(** ** The hash of the key *)

Lemma round_length (st : list N) (kw : N * N) :
  length (Sha256.round st kw) = length st.
Proof.
  destruct st as [|a [|b [|c [|d [|e [|f [|g [|h [|i t]]]]]]]]]; reflexivity.
Qed.

Lemma rounds_length (kws : list (N * N)) (st : list N) :
  length (fold_left Sha256.round kws st) = length st.
Proof.
  revert st. induction kws as [|kw kws IH]; intros st; simpl; [reflexivity|].
  now rewrite IH, round_length.
Qed.

Lemma compress_length (h block : list N) :
  length (Sha256.compress h block) = length h.
Proof.
  unfold Sha256.compress. rewrite length_map, length_combine, rounds_length.
  apply Nat.min_id.
Qed.

Lemma compress_all_length (bs : list (list N)) (h : list N) :
  length (fold_left Sha256.compress bs h) = length h.
Proof.
  revert h. induction bs as [|b bs IH]; intros h; simpl; [reflexivity|].
  now rewrite IH, compress_length.
Qed.

Lemma be_bytes_spec (k : nat) (x : N) :
  length (Sha256.be_bytes k x) = k /\
  Forall (fun b => (b < 256)%N) (Sha256.be_bytes k x).
Proof.
  induction k as [|k [IH1 IH2]]; simpl; [split; constructor|].
  split; [now rewrite IH1|]. constructor; [|exact IH2].
  change 255%N with (N.ones 8). rewrite N.land_ones.
  apply N.mod_lt. discriminate.
Qed.

Lemma flat_map_length_const {A B} (f : A -> list B) (k : nat) (l : list A) :
  (forall x, length (f x) = k) -> length (flat_map f l) = k * length l.
Proof.
  intros H. induction l as [|x l IH]; simpl; [lia|].
  rewrite length_app, H, IH. lia.
Qed.

Lemma digest_spec (m : bytes) :
  length (Sha256.digest m) = 32 /\
  Forall (fun b => (b < 256)%N) (Sha256.digest m).
Proof.
  unfold Sha256.digest. cbv zeta. split.
  - rewrite flat_map_length_const with (k := 4)
      by (intros x; apply be_bytes_spec).
    rewrite compress_all_length. reflexivity.
  - apply Forall_flat_map. apply Forall_forall. intros x _.
    apply be_bytes_spec.
Qed.

Lemma hex_digit_is_hex (n : N) :
  (n < 16)%N -> is_hex_digit (Sha256.hex_digit n) = true.
Proof.
  intros Hn.
  assert (Hall : forallb (fun k => is_hex_digit (Sha256.hex_digit (N.of_nat k)))
                         (seq 0 16) = true) by (vm_compute; reflexivity).
  rewrite forallb_forall in Hall.
  specialize (Hall (N.to_nat n)). rewrite N2Nat.id in Hall.
  apply Hall. apply in_seq. lia.
Qed.

(** X15.  The hash that [redact] writes into the key, like every digest
    [restore] computes, is 64 lower-case hexadecimal digits. *)
Theorem key_hash_shape (U : unicode_db) (rnd : nat -> nat) (T style : str)
        (custom_words : list str) (redact_caps : bool) :
  let h := hash (snd (redact U rnd T style custom_words redact_caps)) in
  (length h = 64 /\ Forall (fun c => is_hex_digit c = true) h) /\
  (forall s, length (sha256_hex s) = 64 /\
             Forall (fun c => is_hex_digit c = true) (sha256_hex s)).
Proof.
  assert (Hs : forall s, length (sha256_hex s) = 64 /\
                         Forall (fun c => is_hex_digit c = true) (sha256_hex s)).
  { intros s. unfold sha256_hex, Sha256.hexdigest.
    destruct (digest_spec (encode_utf8 s)) as [Hlen Hall]. split.
    - rewrite flat_map_length_const with (k := 2) by reflexivity.
      rewrite Hlen. reflexivity.
    - apply Forall_flat_map. eapply Forall_impl; [|exact Hall].
      intros b Hb. cbv beta. constructor; [|constructor; [|constructor]].
      + apply hex_digit_is_hex. rewrite N.shiftr_div_pow2.
        apply N.Div0.div_lt_upper_bound. exact Hb.
      + apply hex_digit_is_hex. change 15%N with (N.ones 4).
        rewrite N.land_ones. apply N.mod_lt. discriminate. }
  cbv zeta. split; [|exact Hs]. rewrite redact_hash. apply Hs.
Qed.

(** ** The words file *)

Lemma lstrip_split (s : str) :
  exists sp, s = sp ++ lstrip s /\ Forall (fun c => is_space c = true) sp.
Proof.
  induction s as [|c s (sp & E & Hsp)]; simpl.
  - exists []. split; [reflexivity|constructor].
  - destruct (is_space c) eqn:Ec.
    + exists (c :: sp). split; [simpl; now rewrite <- E|now constructor].
    + exists []. split; [reflexivity|constructor].
Qed.

Lemma lstrip_head (s : str) (c : uchar) :
  hd_error (lstrip s) = Some c -> is_space c = false.
Proof.
  induction s as [|d s IH]; simpl; [discriminate|].
  destruct (is_space d) eqn:Ed; [exact IH|].
  simpl. now intros [= <-].
Qed.

Lemma lstrip_clean (s : str) :
  (forall c, hd_error s = Some c -> is_space c = false) -> lstrip s = s.
Proof.
  destruct s as [|c s]; simpl; [reflexivity|].
  intros H. now rewrite (H c eq_refl).
Qed.

Lemma rstrip_split (s : str) : exists sp, s = rstrip s ++ sp.
Proof.
  unfold rstrip. destruct (lstrip_split (rev s)) as (sp & E & _).
  exists (rev sp). rewrite <- rev_app_distr, <- E. now rewrite rev_involutive.
Qed.

Lemma strip_head (s : str) (c : uchar) :
  hd_error (strip s) = Some c -> is_space c = false.
Proof.
  unfold strip. destruct (rstrip_split (lstrip s)) as (sp & E).
  intros H. apply (lstrip_head s). rewrite E.
  destruct (rstrip (lstrip s)); [discriminate|exact H].
Qed.

Lemma strip_last (s : str) (c : uchar) :
  hd_error (rev (strip s)) = Some c -> is_space c = false.
Proof.
  unfold strip, rstrip. rewrite rev_involutive. apply lstrip_head.
Qed.

Lemma lstrip_Forall (P : uchar -> Prop) (s : str) :
  Forall P s -> Forall P (lstrip s).
Proof.
  induction 1 as [|c s Hc Hs IH]; simpl; [constructor|].
  destruct (is_space c); [exact IH|now constructor].
Qed.

Lemma strip_Forall (P : uchar -> Prop) (s : str) :
  Forall P s -> Forall P (strip s).
Proof.
  intros H. unfold strip, rstrip.
  apply Forall_rev, lstrip_Forall, Forall_rev, lstrip_Forall, H.
Qed.

Lemma strip_clean (w : str) : clean_word w -> strip w = w.
Proof.
  intros (_ & Hhd & Hlast & _). unfold strip, rstrip.
  rewrite (lstrip_clean w Hhd), (lstrip_clean (rev w) Hlast).
  apply rev_involutive.
Qed.

Lemma splitlines_from_no_break (n : nat) :
  forall s line,
    length s <= n ->
    Forall (fun c => is_linebreak c = false) line ->
    Forall (Forall (fun c => is_linebreak c = false)) (splitlines_from line s).
Proof.
  induction n as [|n IH]; intros s line Hn Hline.
  - destruct s; [|simpl in Hn; lia]. simpl.
    destruct line; repeat constructor. now apply Forall_rev.
  - destruct s as [|c s]; simpl.
    + destruct line; repeat constructor. now apply Forall_rev.
    + simpl in Hn. destruct (is_linebreak c) eqn:Ec.
      * constructor; [now apply Forall_rev|].
        destruct (is_char 13 c).
        -- destruct s as [|d s]; [apply IH; [simpl; lia|constructor]|].
           simpl in Hn. destruct (is_char 10 d);
             apply IH; simpl; try lia; constructor.
        -- apply IH; [lia|constructor].
      * apply IH; [lia|]. now constructor.
Qed.

(** X16.  Every word loaded from a words file is clean: not empty, with no
    white space at either end and no line boundary inside; blank lines
    give no word. *)
Theorem load_custom_words_clean (content : str) :
  Forall clean_word (load_custom_words content).
Proof.
  unfold load_custom_words. apply Forall_forall. intros w Hw.
  apply in_map_iff in Hw as (line & <- & Hline).
  apply filter_In in Hline as [Hline Htruthy].
  unfold clean_word. split; [|split; [|split]].
  - intros E. rewrite E in Htruthy. discriminate.
  - apply strip_head.
  - apply strip_last.
  - apply strip_Forall.
    pose proof (@splitlines_from_no_break (length content) content []
                  (Nat.le_refl _) (Forall_nil _)) as H.
    rewrite Forall_forall in H. now apply H.
Qed.

Lemma splitlines_from_line (w rest line : str) :
  Forall (fun c => is_linebreak c = false) w ->
  splitlines_from line (w ++ chr 10 :: rest)
  = (rev line ++ w) :: splitlines_from [] rest.
Proof.
  intros Hw. revert line. induction Hw as [|c w Hc Hw IH]; intros line.
  - simpl app. cbn [splitlines_from].
    assert (E1 : is_linebreak (chr 10) = true) by (vm_compute; reflexivity).
    assert (E2 : is_char 13 (chr 10) = false) by (vm_compute; reflexivity).
    rewrite E1, E2. now rewrite app_nil_r.
  - change ((c :: w) ++ chr 10 :: rest) with (c :: (w ++ chr 10 :: rest)).
    cbn [splitlines_from]. rewrite Hc, IH.
    cbn [rev]. now rewrite <- app_assoc.
Qed.

(** X17.  A words file with clean words one per line is loaded as exactly
    those words, in order. *)
Theorem load_custom_words_round_trip (ws : list str) :
  Forall clean_word ws -> load_custom_words (one_per_line ws) = ws.
Proof.
  intros Hws. unfold load_custom_words, splitlines.
  assert (Hsplit : splitlines_from [] (one_per_line ws) = ws).
  { induction Hws as [|w ws Hw Hws IH]; [reflexivity|].
    change (one_per_line (w :: ws))
      with ((w ++ [chr 10]) ++ one_per_line ws).
    rewrite <- app_assoc. cbn [app].
    rewrite splitlines_from_line by apply Hw.
    cbn [rev app]. now rewrite IH. }
  rewrite Hsplit. clear Hsplit.
  induction Hws as [|w ws Hw Hws IH]; [reflexivity|].
  cbn [filter]. rewrite (strip_clean Hw).
  destruct w as [|c w]; [now destruct Hw|].
  cbn [truthy map]. rewrite (strip_clean Hw). f_equal. exact IH.
Qed.

Lemma load_custom_words_round_trip_witness :
  load_custom_words (one_per_line [lit "Acme"; lit "New York"])
  = [lit "Acme"; lit "New York"].
Proof.
  apply load_custom_words_round_trip.
  repeat constructor; try discriminate;
    try (intros c [= <-]; vm_compute; reflexivity);
    vm_compute; reflexivity.
Defined.

(** ** The [redact] command *)

Lemma is_char_eq (n : N) (c : uchar) :
  is_char n c = true -> code (chr n) = n -> c = chr n.
Proof.
  intros H Hn. apply uchar_eq. rewrite Hn. now apply N.eqb_eq.
Qed.

Lemma universal_newlines_no_cr (n : nat) :
  forall s, length s <= n ->
            Forall (fun c => is_char 13 c = false) (universal_newlines s).
Proof.
  induction n as [|n IH]; intros s Hn.
  - destruct s; [constructor|simpl in Hn; lia].
  - destruct s as [|c s]; [constructor|]. simpl in Hn.
    cbn [universal_newlines]. destruct (is_char 13 c) eqn:Ec.
    + constructor; [vm_compute; reflexivity|].
      destruct s as [|d s]; [constructor|]. simpl in Hn.
      destruct (is_char 10 d); apply IH; simpl; lia.
    + constructor; [exact Ec|]. apply IH. lia.
Qed.

Lemma universal_newlines_id (s : str) :
  Forall (fun c => is_char 13 c = false) s -> universal_newlines s = s.
Proof.
  induction 1 as [|c s Hc Hs IH]; [reflexivity|].
  cbn [universal_newlines]. now rewrite Hc, IH.
Qed.

(** A text without CR comes back from a file as it was written, on either
    platform. *)
Lemma read_write_text (linesep s : str) :
  linesep = [chr 10] \/ linesep = [chr 13; chr 10] ->
  Forall (fun c => is_char 13 c = false) s ->
  read_text (write_text linesep s) = s.
Proof.
  intros Hsep. unfold read_text, write_text.
  induction 1 as [|c s Hc Hs IH]; [reflexivity|].
  cbn [flat_map]. destruct (is_char 10 c) eqn:E.
  - apply is_char_eq in E; [|reflexivity]. subst c.
    destruct Hsep as [-> | ->]; cbn [app universal_newlines].
    + rewrite Hc. now rewrite IH.
    + assert (H13 : is_char 13 (chr 13) = true) by (vm_compute; reflexivity).
      assert (H10 : is_char 10 (chr 10) = true) by (vm_compute; reflexivity).
      rewrite H13, H10. now rewrite IH.
  - cbn [app universal_newlines]. rewrite Hc. now rewrite IH.
Qed.

Lemma Forall_slice {A} (P : A -> Prop) (a b : nat) (l : list A) :
  Forall P l -> Forall P (slice a b l).
Proof.
  intros H. unfold slice. apply Forall_forall. intros x Hx.
  rewrite Forall_forall in H. apply H.
  rewrite <- (firstn_skipn a l). apply in_or_app. right.
  rewrite <- (firstn_skipn (b - a) (skipn a l)). apply in_or_app. now left.
Qed.

Lemma Forall_skipn_keeps {A} (P : A -> Prop) (a : nat) (l : list A) :
  Forall P l -> Forall P (skipn a l).
Proof.
  intros H. apply Forall_forall. intros x Hx.
  rewrite Forall_forall in H. apply H.
  rewrite <- (firstn_skipn a l). apply in_or_app. now right.
Qed.

Section RedactChars.

Variable P : uchar -> Prop.
Hypothesis token_ok : Forall P redacted_token.
Hypothesis block_ok : P block_char.
Hypothesis noise_ok : Forall P noise_chars.

Lemma replacement_for_chars (rnd : nat -> nat) (draws : nat)
      (style original : str) :
  Forall P (fst (replacement_for rnd draws style original)).
Proof.
  unfold replacement_for.
  destruct (str_eqb style BLACKOUT); [|destruct (str_eqb style VECTURE_NOISE)];
    cbn [fst].
  - apply Forall_forall. intros c Hc. apply repeat_spec in Hc. now subst.
  - apply Forall_forall. intros c Hc.
    apply in_map_iff in Hc as (j & <- & _).
    rewrite Forall_forall in noise_ok. apply noise_ok, random_choice_in.
  - exact token_ok.
Qed.

Lemma redact_loop_chars (rnd : nat -> nat) (T style : str) (ms : list span) :
  Forall P T ->
  forall st,
    Forall (Forall P) (result_text st) ->
    Forall (Forall P) (result_text (fold_left (redact_step T style rnd) ms st)).
Proof.
  intros HT. induction ms as [|m ms IH]; intros st Hst; [exact Hst|].
  cbn [fold_left]. apply IH. unfold redact_step.
  pose proof (replacement_for_chars rnd (rnd_draws st) style (m_text m)) as Hr.
  destruct (replacement_for rnd (rnd_draws st) style (m_text m)) as [tok draws].
  cbn [fst] in Hr. cbn [result_text].
  apply Forall_app. split; [apply Forall_app; split|]; auto.
  constructor; [|constructor]. now apply Forall_slice.
Qed.

(** Every character of the redacted text is a character of the text or a
    character of a token. *)
Lemma redact_chars (U : unicode_db) (rnd : nat -> nat) (T style : str)
      (custom_words : list str) (redact_caps : bool) :
  Forall P T -> Forall P (fst (redact U rnd T style custom_words redact_caps)).
Proof.
  intros HT. rewrite redact_text. cbv zeta. apply Forall_app. split.
  - apply Forall_concat. apply redact_loop_chars; [exact HT|constructor].
  - now apply Forall_skipn_keeps.
Qed.

End RedactChars.

Lemma Forall_of_forallb_false {A} (f : A -> bool) (l : list A) :
  forallb (fun c => negb (f c)) l = true -> Forall (fun c => f c = false) l.
Proof.
  intros H. apply Forall_forall. intros c Hc.
  rewrite forallb_forall in H. specialize (H c Hc).
  now apply negb_true_iff in H.
Qed.

Lemma redact_no_cr (U : unicode_db) (rnd : nat -> nat) (T style : str)
      (custom_words : list str) (redact_caps : bool) :
  Forall (fun c => is_char 13 c = false) T ->
  Forall (fun c => is_char 13 c = false)
         (fst (redact U rnd T style custom_words redact_caps)).
Proof.
  apply redact_chars.
  - apply Forall_of_forallb_false. vm_compute. reflexivity.
  - vm_compute. reflexivity.
  - apply Forall_of_forallb_false. vm_compute. reflexivity.
Qed.

Lemma base64_has_no_cr (s : str) :
  Forall (fun c => b64_char c = true) s ->
  Forall (fun c => is_char 13 c = false) s.
Proof.
  apply Forall_impl. intros c Hc.
  destruct (is_char 13 c) eqn:E; [|reflexivity].
  apply is_char_eq in E; [|reflexivity]. subst c.
  vm_compute in Hc. discriminate Hc.
Qed.

Section CommandLineFacts.

Variable U : unicode_db.
Variable json_dumps : option nat -> json -> str.
Variable json_loads : str -> loads_outcome.
Variable json_loads_bytes : bytes -> option json.
Variable zlib_compress : bytes -> bytes.
Variable zlib_decompress : bytes -> option bytes.
Variable b64encode : bytes -> str.
Variable b64decode : str -> option bytes.

(** X18.  What the [redact] command writes can be read back by the
    [restore] command, on POSIX and on Windows.  Read again, the redacted
    file is the text that [redact] returned and the key file is the key
    content, which starts with the marker exactly when obfuscation was
    asked for; [deobfuscate_key] of it is the JSON value of the key that
    [redact] returned, which is the JSON value of no other key; and
    [restore] of the text read with that key is the text of the source file
    as [read_text] gave it, with every line end an LF: the content of the
    source file itself when it holds no CR.  The libraries are assumed to
    undo their own encoding of that key in the form the option selects,
    and [json.dumps] to write no raw CR. *)
Theorem redact_command_recoverable (linesep : str) (rnd : nat -> nat)
        (source : str) (words : option str) (style : str)
        (capitals obfuscate : bool) :
  let text := read_text source in
  let custom_word_list :=
    match words with
    | Some content => load_custom_words (read_text content)
    | None => []
    end in
  let redacted := fst (redact U rnd text style custom_word_list capitals) in
  let key := snd (redact U rnd text style custom_word_list capitals) in
  let json_bytes := encode_utf8 (json_dumps None (json_of_key key)) in
  let encoded := b64encode (zlib_compress json_bytes) in
  let plain := json_dumps (Some 2) (json_of_key key) in
  linesep = [chr 10] \/ linesep = [chr 13; chr 10] ->
  (obfuscate = true ->
   Forall (fun c => b64_char c = true) encoded /\
   b64decode encoded = Some (zlib_compress json_bytes) /\
   zlib_decompress (zlib_compress json_bytes) = Some json_bytes /\
   json_loads_bytes json_bytes = Some (json_of_key key)) ->
  (obfuscate = false ->
   (exists rest, plain = chr 123 :: rest) /\
   Forall (fun c => is_char 13 c = false) plain /\
   json_loads plain = Loaded (json_of_key key)) ->
  let files :=
    redact_command U json_dumps zlib_compress b64encode linesep
                   rnd source words style capitals obfuscate in
  let r_text := read_text (fst files) in
  let k_text := read_text (snd files) in
  r_text = redacted /\
  k_text = (if obfuscate
            then obfuscate_key json_dumps zlib_compress b64encode key
            else import_json_dumps json_dumps key) /\
  startswith MARKER k_text = obfuscate /\
  deobfuscate_key json_loads json_loads_bytes zlib_decompress b64decode k_text
  = Return (json_of_key key) /\
  (forall key', json_of_key key' = json_of_key key -> key' = key) /\
  snd (restore r_text key) = Return text /\
  (Forall (fun c => is_char 13 c = false) source -> text = source).
Proof.
  intros text custom_word_list redacted key json_bytes encoded plain
         Hsep Hpacked Hplain files r_text k_text.
  assert (Hfiles : files
                   = (write_text linesep redacted,
                      write_text linesep
                        (if obfuscate
                         then obfuscate_key json_dumps zlib_compress b64encode key
                         else import_json_dumps json_dumps key))).
  { subst files redacted key. unfold redact_command.
    fold custom_word_list. fold text.
    now destruct (redact U rnd text style custom_word_list capitals). }
  assert (Htext : Forall (fun c => is_char 13 c = false) text)
    by apply (@universal_newlines_no_cr (length source) source (Nat.le_refl _)).
  assert (Hr : r_text = redacted).
  { subst r_text. rewrite Hfiles. cbn [fst].
    apply read_write_text; [exact Hsep|]. now apply redact_no_cr. }
  assert (Hk : k_text = (if obfuscate
                         then obfuscate_key json_dumps zlib_compress b64encode key
                         else import_json_dumps json_dumps key)).
  { subst k_text. rewrite Hfiles. cbn [snd].
    apply read_write_text; [exact Hsep|]. destruct obfuscate.
    - destruct (Hpacked eq_refl) as (Halpha & _).
      unfold obfuscate_key. fold json_bytes. fold encoded.
      apply Forall_app. split; [|now apply base64_has_no_cr].
      apply Forall_of_forallb_false. vm_compute. reflexivity.
    - destruct (Hplain eq_refl) as (_ & Hcr & _). exact Hcr. }
  split; [exact Hr|]. split; [exact Hk|]. rewrite Hk, Hr.
  split; [|split; [|split; [|split]]].
  - destruct obfuscate.
    + unfold obfuscate_key. apply startswith_app.
    + destruct (Hplain eq_refl) as [[rest Hrest] _].
      unfold import_json_dumps. fold plain. rewrite Hrest.
      vm_compute. reflexivity.
  - destruct obfuscate.
    + destruct (Hpacked eq_refl) as (Halpha & Hb64 & Hzlib & Hjson).
      unfold obfuscate_key. fold json_bytes. fold encoded.
      rewrite deobfuscate_marked.
      rewrite (str_replace_absent [] (base64_has_no_marker Halpha)).
      unfold decode_packed. now rewrite Hb64, Hzlib, Hjson.
    + destruct (Hplain eq_refl) as ([rest Hrest] & _ & Hloads).
      unfold import_json_dumps. fold plain.
      rewrite deobfuscate_unmarked; [now rewrite Hloads|].
      rewrite Hrest. vm_compute. reflexivity.
  - intros key'. apply json_of_key_inj.
  - subst redacted key.
    destruct (redact_inv_final U rnd text style custom_word_list capitals)
      as (Hidx & Hsorted & Hpos & Hrestore).
    rewrite restore_matching by reflexivity.
    rewrite redact_restorations, redact_text.
    rewrite sort_descending_rev by exact Hsorted.
    rewrite Hrestore. cbn [snd]. now rewrite firstn_skipn.
  - intros Hsource. apply universal_newlines_id, Hsource.
Qed.

End CommandLineFacts.

Lemma redact_command_recoverable_witness :
  (let files :=
     redact_command ascii_db mail_dumps mail_compress mail_b64encode
                    [chr 13; chr 10] no_random mail_source
                    (Some (lit "zebra")) CLASSIC false true in
   read_text (fst files) = mail_redacted /\
   deobfuscate_key mail_loads mail_loads_bytes mail_decompress mail_b64decode
                   (read_text (snd files))
   = Return (json_of_key mail_key) /\
   snd (restore (read_text (fst files)) mail_key) = Return mail_text) /\
  (let files :=
     redact_command ascii_db mail_dumps mail_compress mail_b64encode
                    [chr 10] no_random mail_source
                    (Some (lit "zebra")) CLASSIC false false in
   read_text (fst files) = mail_redacted /\
   deobfuscate_key mail_loads mail_loads_bytes mail_decompress mail_b64decode
                   (read_text (snd files))
   = Return (json_of_key mail_key) /\
   snd (restore (read_text (fst files)) mail_key) = Return mail_text).
Proof.
  assert (H : Forall (fun c => b64_char c = true) mail_encoded).
  { apply Forall_forall. apply forallb_forall. vm_compute. reflexivity. }
  assert (Hcr : Forall (fun c => is_char 13 c = false) mail_json_indented).
  { apply Forall_of_forallb_false. vm_compute. reflexivity. }
  assert (R : redact ascii_db no_random (read_text mail_source) CLASSIC
                     (load_custom_words (read_text (lit "zebra"))) false
              = (mail_redacted, mail_key)) by (vm_compute; reflexivity).
  assert (T : read_text mail_source = mail_text) by (vm_compute; reflexivity).
  split.
  - destruct (@redact_command_recoverable ascii_db mail_dumps mail_loads
                mail_loads_bytes mail_compress mail_decompress
                mail_b64encode mail_b64decode [chr 13; chr 10] no_random
                mail_source (Some (lit "zebra")) CLASSIC false true)
      as (E1 & _ & _ & E2 & _ & E3 & _).
    + now right.
    + intros _. rewrite R. cbn [snd]. split; [exact H|].
      split; [|split]; vm_compute; reflexivity.
    + intros E. discriminate E.
    + rewrite R, ?T in *. cbn [fst snd] in *. auto.
  - destruct (@redact_command_recoverable ascii_db mail_dumps mail_loads
                mail_loads_bytes mail_compress mail_decompress
                mail_b64encode mail_b64decode [chr 10] no_random
                mail_source (Some (lit "zebra")) CLASSIC false false)
      as (E1 & _ & _ & E2 & _ & E3 & _).
    + now left.
    + intros E. discriminate E.
    + intros _. rewrite R. cbn [snd]. split; [|split].
      * exists (tl mail_json_indented). vm_compute. reflexivity.
      * exact Hcr.
      * vm_compute. reflexivity.
    + rewrite R, ?T in *. cbn [fst snd] in *. auto.
Defined.

(** ** The names of the files written *)

Lemma contains_false (old s : str) :
  contains old s = false -> ~ occurs old s.
Proof.
  induction s as [|c s IH]; intros H (a & b & E).
  - destruct a; [|discriminate]. destruct old; [|discriminate].
    discriminate.
  - cbn [contains] in H. apply orb_false_iff in H as [H1 H2].
    destruct a as [|d a].
    + simpl in E. rewrite E, startswith_app in H1. discriminate.
    + injection E as _ E. apply (IH H2). now exists a, b.
Qed.

Lemma contains_app_r (old a : str) : contains old (a ++ old) = true.
Proof.
  induction a as [|c a IH].
  - simpl. pose proof (startswith_app old []) as H. rewrite app_nil_r in H.
    destruct old; simpl in *; [reflexivity|now rewrite H].
  - change ((c :: a) ++ old) with (c :: (a ++ old)). cbn [contains].
    rewrite IH. apply orb_true_r.
Qed.

(** The underscore of "_redacted" is its first character only, so an
    occurrence cannot start before the end of a text and finish in a copy
    appended to it. *)
Lemma startswith_redacted_straddle (t : str) :
  t <> [] ->
  startswith (lit "_redacted") (t ++ lit "_redacted")
  = startswith (lit "_redacted") t.
Proof.
  intros Hne. destruct t as [|c1 t]; [congruence|]. clear Hne.
  do 8 (destruct t as [|? t]; [reflexivity|]). reflexivity.
Qed.

Lemma str_replace_redacted_end (stem : str) :
  contains (lit "_redacted") stem = false ->
  str_replace (lit "_redacted") (lit "_restored") (stem ++ lit "_redacted")
  = stem ++ lit "_restored".
Proof.
  unfold str_replace. induction stem as [|c stem IH]; intros H.
  - vm_compute. reflexivity.
  - cbn [contains] in H. apply orb_false_iff in H as [H1 H2].
    pose proof (@startswith_redacted_straddle (c :: stem) ltac:(discriminate))
      as Hs.
    rewrite H1 in Hs.
    change ((c :: stem) ++ lit "_redacted")
      with (c :: (stem ++ lit "_redacted")) in *.
    cbn [replace_from]. rewrite Hs. simpl app. f_equal. exact (IH H2).
Qed.

Lemma str_replace_redacted_changes (s : str) :
  contains (lit "_redacted") s = true ->
  str_replace (lit "_redacted") (lit "_restored") s <> s.
Proof.
  unfold str_replace. induction s as [|c s IH]; intros H.
  - discriminate.
  - cbn [replace_from].
    destruct (startswith (lit "_redacted") (c :: s)) eqn:E.
    + apply startswith_true in E as [s' E]. rewrite E. intros Heq.
      apply (f_equal (fun l => nth_error l 3)) in Heq.
      vm_compute in Heq. discriminate.
    + cbn [contains] in H. rewrite E in H. simpl in H.
      intros Heq. injection Heq as Heq. exact (IH H Heq).
Qed.

(** X19.  With the default output names neither command writes over a file
    it read: the redacted file, its key file and the restored file each
    have a name different from the name of the file the name was made
    from. *)
Theorem default_names_are_fresh (stem suffix : str) :
  redacted_name stem suffix <> stem ++ suffix /\
  key_name (stem ++ suffix) <> stem ++ suffix /\
  restored_name stem suffix <> stem ++ suffix.
Proof.
  split; [|split].
  - unfold redacted_name. intros E. apply (f_equal (@length uchar)) in E.
    rewrite !length_app in E. simpl in E. lia.
  - unfold key_name. intros E. apply (f_equal (@length uchar)) in E.
    rewrite !length_app in E. simpl in E. lia.
  - unfold restored_name.
    destruct (contains (lit "_redacted") stem) eqn:E.
    + intros Heq. apply app_inv_tail in Heq.
      exact (@str_replace_redacted_changes stem E Heq).
    + intros Heq. apply (f_equal (@length uchar)) in Heq.
      rewrite !length_app in Heq. simpl in Heq. lia.
Qed.

Lemma rfind_range (c : uchar) (s : str) :
  (-1 <= rfind c s < Z.of_nat (length s))%Z.
Proof.
  induction s as [|d s IH]; cbn [rfind length]; [lia|].
  destruct (0 <=? rfind c s)%Z eqn:E; [apply Z.leb_le in E; lia|].
  destruct (uchar_eqb d c); lia.
Qed.

Lemma rfind_app (c : uchar) (a b : str) :
  rfind c (a ++ b)
  = if (0 <=? rfind c b)%Z then (Z.of_nat (length a) + rfind c b)%Z
    else rfind c a.
Proof.
  induction a as [|d a IH]; cbn [app rfind length].
  - destruct (0 <=? rfind c b)%Z eqn:E; [lia|].
    apply Z.leb_gt in E. pose proof (rfind_range c b). lia.
  - rewrite IH. destruct (0 <=? rfind c b)%Z eqn:E; [|reflexivity].
    apply Z.leb_le in E.
    replace (0 <=? Z.of_nat (length a) + rfind c b)%Z with true
      by (symmetry; apply Z.leb_le; lia).
    lia.
Qed.

(** What follows the last occurrence has it at its head and nowhere else. *)
Lemma rfind_skipn (c : uchar) (s : str) :
  (0 <= rfind c s)%Z -> rfind c (skipn (Z.to_nat (rfind c s)) s) = 0%Z.
Proof.
  induction s as [|d s IH]; cbn [rfind]; [lia|].
  destruct (0 <=? rfind c s)%Z eqn:E.
  - apply Z.leb_le in E. intros _.
    replace (Z.to_nat (rfind c s + 1)) with (S (Z.to_nat (rfind c s))) by lia.
    cbn [skipn]. now apply IH.
  - destruct (uchar_eqb d c) eqn:Ed; [|lia]. intros _.
    cbn [Z.to_nat skipn rfind]. now rewrite E, Ed.
Qed.

Lemma stem_suffix (name : str) : stem name ++ suffix name = name.
Proof.
  unfold stem, suffix.
  destruct ((0 <? rfind (chr 46) name)
            && (rfind (chr 46) name <? Z.of_nat (length name) - 1))%Z.
  - apply firstn_skipn.
  - apply app_nil_r.
Qed.

Lemma rfind_not_last (name : str) :
  endswith_dot name = false ->
  (rfind (chr 46) name < Z.of_nat (length name) - 1)%Z
  \/ name = [].
Proof.
  destruct name as [|c name] using rev_ind; [now right|]. clear IHname.
  unfold endswith_dot. rewrite rev_app_distr. cbn [rev app].
  intros Hc. left. rewrite rfind_app, length_app. cbn [rfind length].
  change (0 <=? -1)%Z with false. cbv iota.
  assert (E : uchar_eqb c (chr 46) = false) by exact Hc.
  rewrite E. change (0 <=? -1)%Z with false. cbv iota.
  pose proof (rfind_range (chr 46) name). lia.
Qed.

(** The name of the redacted file splits where the name of the source file
    does, when that name does not end with a dot. *)
Lemma default_redacted_name_split (name : str) :
  endswith_dot name = false ->
  stem (default_redacted_name name) = stem name ++ lit "_redacted" /\
  suffix (default_redacted_name name) = suffix name.
Proof.
  intros Hend. unfold default_redacted_name, redacted_name.
  set (i := rfind (chr 46) name).
  assert (Hr : rfind (chr 46) (lit "_redacted") = (-1)%Z)
    by (vm_compute; reflexivity).
  destruct ((0 <? i) && (i <? Z.of_nat (length name) - 1))%Z eqn:E.
  - (* the name has a suffix *)
    apply andb_true_iff in E as [E1 E2].
    apply Z.ltb_lt in E1, E2.
    assert (Hst : stem name = firstn (Z.to_nat i) name).
    { unfold stem. fold i.
      now rewrite (proj2 (Z.ltb_lt _ _) E1), (proj2 (Z.ltb_lt _ _) E2). }
    assert (Hsu : suffix name = skipn (Z.to_nat i) name).
    { unfold suffix. fold i.
      now rewrite (proj2 (Z.ltb_lt _ _) E1), (proj2 (Z.ltb_lt _ _) E2). }
    assert (H0 : rfind (chr 46) (suffix name) = 0%Z).
    { rewrite Hsu. apply rfind_skipn. fold i. lia. }
    assert (Hl1 : length (stem name) = Z.to_nat i).
    { rewrite Hst, length_firstn. lia. }
    assert (Hl2 : length (suffix name) = (length name - Z.to_nat i)%nat).
    { rewrite Hsu. apply length_skipn. }
    set (name' := stem name ++ lit "_redacted" ++ suffix name).
    assert (Hi' : rfind (chr 46) name'
                  = Z.of_nat (length (stem name ++ lit "_redacted"))).
    { unfold name'. rewrite app_assoc, rfind_app, H0.
      change (0 <=? 0)%Z with true. cbv iota. lia. }
    assert (Hlen : length name'
                   = (length (stem name ++ lit "_redacted")
                      + length (suffix name))%nat).
    { unfold name'. now rewrite app_assoc, length_app. }
    unfold stem at 1, suffix at 1. fold name'. rewrite Hi'.
    replace ((0 <? Z.of_nat (length (stem name ++ lit "_redacted")))
             && (Z.of_nat (length (stem name ++ lit "_redacted"))
                 <? Z.of_nat (length name') - 1))%Z with true.
    + rewrite Nat2Z.id. unfold name'. rewrite app_assoc. split.
      * rewrite firstn_app, Nat.sub_diag, firstn_0, app_nil_r.
        apply firstn_all.
      * rewrite skipn_app, Nat.sub_diag. cbn [skipn].
        now rewrite skipn_all.
    + symmetry. apply andb_true_iff. split; apply Z.ltb_lt.
      * rewrite length_app. simpl. lia.
      * rewrite Hlen, Hl2. lia.
  - (* the name has no suffix *)
    assert (Hst : stem name = name) by (unfold stem; fold i; now rewrite E).
    assert (Hsu : suffix name = []) by (unfold suffix; fold i; now rewrite E).
    rewrite Hst, Hsu, app_nil_r.
    set (name' := name ++ lit "_redacted").
    assert (Hi' : rfind (chr 46) name' = i).
    { unfold name'. rewrite rfind_app, Hr. reflexivity. }
    assert (E' : ((0 <? i) && (i <? Z.of_nat (length name') - 1))%Z = false).
    { apply andb_false_iff. left. apply Z.ltb_ge.
      destruct (rfind_not_last name Hend) as [H|H].
      - fold i in H. apply andb_false_iff in E as [E|E].
        + now apply Z.ltb_ge in E.
        + apply Z.ltb_ge in E. lia.
      - unfold i. rewrite H. simpl. lia. }
    unfold stem, suffix. rewrite Hi', E'. now split.
Qed.

(** X20.  For a source file whose name does not end with a dot and whose
    stem does not contain "_redacted", the redacted file is named
    stem_redacted.suffix, pathlib splits that name into stem_redacted and
    the same suffix, and restoring the redacted file by default writes
    stem_restored.suffix. *)
Theorem default_names_round_trip (name : str) :
  endswith_dot name = false ->
  contains (lit "_redacted") (stem name) = false ->
  default_redacted_name name = stem name ++ lit "_redacted" ++ suffix name /\
  stem (default_redacted_name name) = stem name ++ lit "_redacted" /\
  suffix (default_redacted_name name) = suffix name /\
  default_restored_name (default_redacted_name name)
  = stem name ++ lit "_restored" ++ suffix name.
Proof.
  intros Hend Hstem.
  destruct (default_redacted_name_split name Hend) as [H1 H2].
  split; [reflexivity|]. split; [exact H1|]. split; [exact H2|].
  unfold default_restored_name. rewrite H1, H2.
  unfold restored_name. rewrite contains_app_r.
  rewrite (@str_replace_redacted_end (stem name) Hstem).
  now rewrite <- app_assoc.
Qed.

Lemma default_names_round_trip_witness :
  default_redacted_name (lit "report.md") = lit "report_redacted.md" /\
  default_restored_name (lit "report_redacted.md") = lit "report_restored.md".
Proof.
  destruct (@default_names_round_trip (lit "report.md") eq_refl eq_refl)
    as (H1 & _ & _ & H2).
  split; [exact H1|exact H2].
Defined.

(** The name "notes." ends with a dot: its redacted file is named
    "notes._redacted", which pathlib splits at that dot, and the restored
    file is then named after the stem "notes". *)
Example default_names_trailing_dot :
  default_redacted_name (lit "notes.") = lit "notes._redacted" /\
  default_restored_name (lit "notes._redacted")
  = lit "notes_restored._redacted".
Proof. split; vm_compute; reflexivity. Qed.
